(** * Recursive CTE executor ([executor/cte.go]): a shallow embedding

    The producer of a recursive common table expression runs a seed plan
    once and a recursive plan repeatedly, rotating three tables until the
    iteration input is empty, the limit is satisfied or the recursion depth
    is exceeded.  This development embeds the producer, the consumer cursor,
    the limit-aware retrieval and the hash based deduplication, and proves
    the properties of the specification against that embedding. *)

From Stdlib Require Import List ZArith NArith Lia Bool Arith Permutation.
From Stdlib Require Strings.Byte.
Import ListNotations.

(** ** Errors and fallible results *)

(** The error values the executor can surface.  A run-time fault (an index
    out of range, a method call through a nil interface) inside the seed or
    the recursive phase is intercepted by the [recover] of that phase and
    becomes an ordinary error: [ErrPanic]. *)
Inductive error : Type :=
| ErrCTEMaxRecursionDepth (iter : Z)
| ErrSeedExecNil
| ErrPanic
| ErrSubPlan (code : nat).

Inductive result (A : Type) : Type :=
| Ok (a : A)
| Err (e : error).
Arguments Ok {A} a.
Arguments Err {A} e.

Definition bind {A B : Type} (r : result A) (k : A -> result B) : result B :=
  match r with
  | Ok a => k a
  | Err e => Err e
  end.

Notation "'do' x <- r ; k" := (bind r (fun x => k))
  (at level 10, x pattern, r at level 100, k at level 200).

Definition fault {A : Type} (o : option A) : result A :=
  match o with
  | Some a => Ok a
  | None => Err ErrPanic
  end.

Definition isOk {A : Type} (r : result A) : bool :=
  match r with Ok _ => true | Err _ => false end.

(** ** Rows, chunks and row pointers *)

Definition Row : Type := list Z.

Definition row_eqb (r1 r2 : Row) : bool :=
  if list_eq_dec Z.eq_dec r1 r2 then true else false.

(** Modelled from the spec: the row batch of package [chunk], which is not
    part of the sources at hand.  A batch is an ordered sequence of rows with
    an optional selection list of active (physical) row indices. *)
Record Chunk : Type := mkChunk {
  chkRows : list Row;
  chkSel : option (list nat)
}.

Definition NumRows (c : Chunk) : nat :=
  match chkSel c with
  | Some s => length s
  | None => length (chkRows c)
  end.

(** [GetRow] maps a logical index to the physical row; [None] is the
    run-time fault of an index out of range. *)
Definition GetRow (c : Chunk) (i : nat) : option Row :=
  match chkSel c with
  | Some s =>
      match nth_error s i with
      | Some j => nth_error (chkRows c) j
      | None => None
      end
  | None => nth_error (chkRows c) i
  end.

Definition SetSel (c : Chunk) (s : list nat) : Chunk :=
  mkChunk (chkRows c) (Some s).

(** The rows a reader of the chunk sees, in order. *)
Definition logicalRows (c : Chunk) : list Row :=
  match chkSel c with
  | Some s => flat_map (fun j => match nth_error (chkRows c) j with
                                 | Some r => [r]
                                 | None => []
                                 end) s
  | None => chkRows c
  end.

(** [CopyConstructSel] copies the selected rows into a chunk without a
    selection list; [CopyConstruct] is a plain copy. *)
Definition CopyConstructSel (c : Chunk) : Chunk :=
  mkChunk (logicalRows c) None.

Definition CopyConstruct (c : Chunk) : Chunk := c.

(** Both fields of a row pointer are [uint32] in the source. *)
Definition u32 (n : nat) : N := (N.of_nat n mod 2 ^ 32)%N.

Record RowPtr : Type := mkRowPtr {
  ChkIdx : N;
  RowIdx : N
}.

(** ** Storage *)

(** Modelled from the spec: the table of package [cteutil], which is not
    part of the sources at hand: an ordered, append-only sequence of batches
    with a done flag, a sticky error and an iteration tag.  [Add] does not
    store a batch without rows, [Reopen] clears the content and resets the
    done flag and the error, [SwapData] transfers the batches.
    [stDoneCalls] counts the calls of [SetDone]. *)
Record Storage : Type := mkStorage {
  stChunks : list Chunk;
  stDone : bool;
  stErr : option error;
  stIter : Z;
  stDoneCalls : nat
}.

Definition emptyStorage : Storage := mkStorage [] false None 0 0.

(** Modelled from the spec: the operations of the storage contract, on the
    table above.  [GetChunk] and [GetRow] fail on an index the table does not
    hold (in the source: a fault, or an error of the spilled table). *)
Definition NumChunks (s : Storage) : nat := length (stChunks s).

Definition stNumRows (s : Storage) : nat :=
  list_sum (map NumRows (stChunks s)).

Definition stAdd (s : Storage) (c : Chunk) : Storage :=
  if Nat.eqb (NumRows c) 0 then s
  else mkStorage (stChunks s ++ [c]) (stDone s) (stErr s) (stIter s)
         (stDoneCalls s).

Definition stGetChunk (s : Storage) (i : nat) : result Chunk :=
  fault (nth_error (stChunks s) i).

Definition stGetRow (s : Storage) (ptr : RowPtr) : option Row :=
  match nth_error (stChunks s) (N.to_nat (ChkIdx ptr)) with
  | Some c => GetRow c (N.to_nat (RowIdx ptr))
  | None => None
  end.

Definition stReopen (s : Storage) : Storage :=
  mkStorage [] false None (stIter s) (stDoneCalls s).

Definition stSetIter (s : Storage) (i : Z) : Storage :=
  mkStorage (stChunks s) (stDone s) (stErr s) i (stDoneCalls s).

Definition stSetDone (s : Storage) : Storage :=
  mkStorage (stChunks s) true (stErr s) (stIter s) (S (stDoneCalls s)).

Definition stSetError (s : Storage) (e : error) : Storage :=
  mkStorage (stChunks s) (stDone s) (Some e) (stIter s) (stDoneCalls s).

(** [SwapData a b] gives [a] the batches of [b] and [b] those of [a]. *)
Definition stSwapData (a b : Storage) : Storage * Storage :=
  (mkStorage (stChunks b) (stDone a) (stErr a) (stIter a) (stDoneCalls a),
   mkStorage (stChunks a) (stDone b) (stErr b) (stIter b) (stDoneCalls b)).

(** All rows of a table, in reading order. *)
Definition stRows (s : Storage) : list Row :=
  flat_map logicalRows (stChunks s).

(** ** Hash index *)

(** The multimap from a 64-bit hash to row pointers: entries are only ever
    added; [htGet] returns the pointers stored under a key. *)
Definition baseHashTable : Type := list (Z * RowPtr).

Definition newConcurrentMapHashTable : baseHashTable := [].

Definition htPut (h : baseHashTable) (key : Z) (ptr : RowPtr) : baseHashTable :=
  h ++ [(key, ptr)].

Definition htGet (h : baseHashTable) (key : Z) : list RowPtr :=
  map snd (filter (fun kp => Z.eqb (fst kp) key) h).

(** ** Deduplication *)

Section Dedup.

(** The 64-bit hash of a row over all its columns
    ([codec.HashChunkSelected] applied column by column). *)
Variable hashRow : Row -> Z.

(** [Sum64] of a hasher that has been reset and not written to. *)
Definition emptySum : Z := 14695981039346656037.

(** The cached full range [p.sel], grown when the chunk has more rows. *)
Definition growSel (psel : list nat) (numRows : nat) : list nat :=
  if Nat.ltb (length psel) numRows
  then psel ++ map (fun i => i + length psel) (seq 0 (numRows - length psel))
  else psel.

(** Modelled from the spec: the hash context [hCtx] and
    [codec.HashChunkSelected], which are not part of the sources at hand.
    [hCtx.hashVals] after the hashing of all columns: one running hash per
    physical row, written only for the selected rows; all columns are key
    columns. *)
Definition hashValsOf (chk : Chunk) : list Z :=
  match chkSel chk with
  | Some s =>
      map (fun jr => if existsb (Nat.eqb (fst jr)) s
                     then hashRow (snd jr) else emptySum)
          (combine (seq 0 (length (chkRows chk))) (chkRows chk))
  | None => map hashRow (chkRows chk)
  end.

(** [computeChunkHash]: the selection to read the hash values through, the
    hash values, and [p.sel]. *)
Definition computeChunkHash (psel : list nat) (chk : Chunk)
  : list nat * list Z * list nat :=
  let numRows := NumRows chk in
  match chkSel chk with
  | Some s => (s, hashValsOf chk, psel)
  | None => let psel' := growSel psel numRows in
            (psel', hashValsOf chk, psel')
  end.

(** [checkHasDup]: the rows reachable through the bucket of [probeKey] are
    compared by value with [row]. *)
Fixpoint checkPtrs (row : Row) (curChk : option Chunk) (storage : Storage)
         (ptrs : list RowPtr) : result bool :=
  match ptrs with
  | [] => Ok false
  | ptr :: rest =>
      do matchedRow <- fault (match curChk with
                              | Some c => GetRow c (N.to_nat (RowIdx ptr))
                              | None => stGetRow storage ptr
                              end);
      if row_eqb row matchedRow then Ok true
      else checkPtrs row curChk storage rest
  end.

Definition checkHasDup (probeKey : Z) (row : Row) (curChk : option Chunk)
           (storage : Storage) (hashTbl : baseHashTable) : result bool :=
  checkPtrs row curChk storage (htGet hashTbl probeKey).

(** Stage 2 of [deduplicate]: rows duplicated inside the incoming chunk. *)
Fixpoint dedupInChunk (chk : Chunk) (storage : Storage) (hashVals : list Z)
         (selOri : list nat) (idxs : list nat)
         (selChk : list nat) (chkHashTbl : baseHashTable)
  : result (list nat) :=
  match idxs with
  | [] => Ok selChk
  | i :: rest =>
      do phys <- fault (nth_error selOri i);
      do key <- fault (nth_error hashVals phys);
      do row <- fault (GetRow chk i);
      do hasDup <- checkHasDup key row (Some chk) storage chkHashTbl;
      if hasDup
      then dedupInChunk chk storage hashVals selOri rest selChk chkHashTbl
      else dedupInChunk chk storage hashVals selOri rest
             (selChk ++ [phys])
             (htPut chkHashTbl key (mkRowPtr (u32 0) (u32 i)))
  end.

(** Stage 3 of [deduplicate]: rows already present in the table. *)
Fixpoint dedupInStorage (chk : Chunk) (storage : Storage)
         (hashVals : list Z) (selChk : list nat) (chkIdx : nat)
         (idxs : list nat) (selStorage : list nat) (hashTbl : baseHashTable)
  : result (list nat * baseHashTable) :=
  match idxs with
  | [] => Ok (selStorage, hashTbl)
  | i :: rest =>
      do phys <- fault (nth_error selChk i);
      do key <- fault (nth_error hashVals phys);
      do row <- fault (GetRow chk i);
      do hasDup <- checkHasDup key row None storage hashTbl;
      if hasDup
      then dedupInStorage chk storage hashVals selChk chkIdx rest
             selStorage hashTbl
      else dedupInStorage chk storage hashVals selChk chkIdx rest
             (selStorage ++ [phys])
             (htPut hashTbl key
                (mkRowPtr (u32 chkIdx) (u32 (length selStorage))))
  end.

Definition deduplicate (psel : list nat) (chk : Chunk) (storage : Storage)
           (hashTbl : option baseHashTable)
  : result (Chunk * option baseHashTable * list nat) :=
  let numRows := NumRows chk in
  if Nat.eqb numRows 0 then Ok (chk, hashTbl, psel)
  else
    let '(selOri, hashVals, psel') := computeChunkHash psel chk in
    do selChk <- dedupInChunk chk storage hashVals selOri (seq 0 numRows)
                   [] newConcurrentMapHashTable;
    let chk2 := SetSel chk selChk in
    let chkIdx := NumChunks storage in
    do tbl <- fault hashTbl;
    do res <- dedupInStorage chk2 storage hashVals selChk chkIdx
                (seq 0 (length selChk)) [] tbl;
    let '(selStorage, tbl') := res in
    Ok (SetSel chk2 selStorage, Some tbl', psel').

(** [tryDedupAndAdd] *)
Definition tryDedupAndAdd (isDistinct : bool) (psel : list nat)
           (chk : Chunk) (storage : Storage)
           (hashTbl : option baseHashTable)
  : result (Chunk * Storage * option baseHashTable * list nat) :=
  if isDistinct then
    do r <- deduplicate psel chk storage hashTbl;
    let '(chk', hashTbl', psel') := r in
    Ok (chk', stAdd storage chk', hashTbl', psel')
  else Ok (chk, stAdd storage chk, hashTbl, psel).

End Dedup.

(** ** Sub-plans *)

(** Modelled from the spec: the sub-plan contract [Open] / [Next] / [Close]
    of the executor interface, which is not part of the sources at hand.
    After an [Open], the [k]-th call of [Next] returns a batch or an error;
    the batch may depend on the content of the iteration-input table, which a
    table reader below the recursive plan reads.  [exPos] counts the calls of
    [Next] since the last [Open]; [exOpens] and [exCloses] count the calls
    of [Open] and [Close]. *)
Record Executor : Type := mkExecutor {
  exOpenErr : option error;
  exCloseErr : option error;
  exNext : list Chunk -> nat -> result Chunk;
  exPos : nat;
  exOpens : nat;
  exCloses : nat
}.

Definition execOpen (e : Executor) : option error * Executor :=
  (exOpenErr e,
   mkExecutor (exOpenErr e) (exCloseErr e) (exNext e) 0 (S (exOpens e))
     (exCloses e)).

Definition execClose (e : Executor) : option error * Executor :=
  (exCloseErr e,
   mkExecutor (exOpenErr e) (exCloseErr e) (exNext e) (exPos e) (exOpens e)
     (S (exCloses e))).

Definition execNext (e : Executor) (input : list Chunk)
  : result Chunk * Executor :=
  (exNext e input (exPos e),
   mkExecutor (exOpenErr e) (exCloseErr e) (exNext e) (S (exPos e))
     (exOpens e) (exCloses e)).

(** ** Producer and consumer state *)

Definition u64 (z : Z) : Z := (z mod 2 ^ 64)%Z.

(** [cteProducer].  The memory and disk trackers only account resources and
    are left out; [CTEMaxRecursionDepth] is the session variable read through
    [p.ctx]; [corCols] holds the current values of the correlated columns. *)
Record cteProducer : Type := mkProducer {
  opened : bool;
  produced : bool;
  closed : bool;
  openErr : option error;
  seedExec : option Executor;
  recursiveExec : option Executor;
  resTbl : Storage;
  iterInTbl : Storage;
  iterOutTbl : option Storage;
  hashTbl : option baseHashTable;
  isDistinct : bool;
  curIter : Z;
  sel : list nat;
  hasLimit : bool;
  limitBeg : Z;
  limitEnd : Z;
  CTEMaxRecursionDepth : Z;
  corCols : list Z;
  corColHashCodes : list (list Z)
}.

(** [CTEExec], the consumer cursor.  [childOpenErr] is the result of opening
    the children through [baseExecutor.Open]. *)
Record CTEExec : Type := mkCTEExec {
  chkIdx : nat;
  cursor : Z;
  meetFirstBatch : bool;
  childOpenErr : option error
}.

(** Field updates of the producer. *)
Definition setOpen (p : cteProducer) (o : bool) (e : option error) :=
  mkProducer o (produced p) (closed p) e (seedExec p) (recursiveExec p)
    (resTbl p) (iterInTbl p) (iterOutTbl p) (hashTbl p) (isDistinct p)
    (curIter p) (sel p) (hasLimit p) (limitBeg p) (limitEnd p)
    (CTEMaxRecursionDepth p) (corCols p) (corColHashCodes p).

Definition setSeedExec (p : cteProducer) (e : option Executor) :=
  mkProducer (opened p) (produced p) (closed p) (openErr p) e
    (recursiveExec p) (resTbl p) (iterInTbl p) (iterOutTbl p) (hashTbl p)
    (isDistinct p) (curIter p) (sel p) (hasLimit p) (limitBeg p) (limitEnd p)
    (CTEMaxRecursionDepth p) (corCols p) (corColHashCodes p).

Definition setRecursiveExec (p : cteProducer) (e : option Executor) :=
  mkProducer (opened p) (produced p) (closed p) (openErr p) (seedExec p) e
    (resTbl p) (iterInTbl p) (iterOutTbl p) (hashTbl p) (isDistinct p)
    (curIter p) (sel p) (hasLimit p) (limitBeg p) (limitEnd p)
    (CTEMaxRecursionDepth p) (corCols p) (corColHashCodes p).

Definition setResTbl (p : cteProducer) (s : Storage) :=
  mkProducer (opened p) (produced p) (closed p) (openErr p) (seedExec p)
    (recursiveExec p) s (iterInTbl p) (iterOutTbl p) (hashTbl p)
    (isDistinct p) (curIter p) (sel p) (hasLimit p) (limitBeg p) (limitEnd p)
    (CTEMaxRecursionDepth p) (corCols p) (corColHashCodes p).

Definition setIterInTbl (p : cteProducer) (s : Storage) :=
  mkProducer (opened p) (produced p) (closed p) (openErr p) (seedExec p)
    (recursiveExec p) (resTbl p) s (iterOutTbl p) (hashTbl p)
    (isDistinct p) (curIter p) (sel p) (hasLimit p) (limitBeg p) (limitEnd p)
    (CTEMaxRecursionDepth p) (corCols p) (corColHashCodes p).

Definition setIterOutTbl (p : cteProducer) (s : option Storage) :=
  mkProducer (opened p) (produced p) (closed p) (openErr p) (seedExec p)
    (recursiveExec p) (resTbl p) (iterInTbl p) s (hashTbl p)
    (isDistinct p) (curIter p) (sel p) (hasLimit p) (limitBeg p) (limitEnd p)
    (CTEMaxRecursionDepth p) (corCols p) (corColHashCodes p).

Definition setHashTbl (p : cteProducer) (h : option baseHashTable) :=
  mkProducer (opened p) (produced p) (closed p) (openErr p) (seedExec p)
    (recursiveExec p) (resTbl p) (iterInTbl p) (iterOutTbl p) h
    (isDistinct p) (curIter p) (sel p) (hasLimit p) (limitBeg p) (limitEnd p)
    (CTEMaxRecursionDepth p) (corCols p) (corColHashCodes p).

Definition setCurIter (p : cteProducer) (i : Z) :=
  mkProducer (opened p) (produced p) (closed p) (openErr p) (seedExec p)
    (recursiveExec p) (resTbl p) (iterInTbl p) (iterOutTbl p) (hashTbl p)
    (isDistinct p) i (sel p) (hasLimit p) (limitBeg p) (limitEnd p)
    (CTEMaxRecursionDepth p) (corCols p) (corColHashCodes p).

Definition setSel (p : cteProducer) (s : list nat) :=
  mkProducer (opened p) (produced p) (closed p) (openErr p) (seedExec p)
    (recursiveExec p) (resTbl p) (iterInTbl p) (iterOutTbl p) (hashTbl p)
    (isDistinct p) (curIter p) s (hasLimit p) (limitBeg p) (limitEnd p)
    (CTEMaxRecursionDepth p) (corCols p) (corColHashCodes p).

Definition setCorColHashCodes (p : cteProducer) (c : list (list Z)) :=
  mkProducer (opened p) (produced p) (closed p) (openErr p) (seedExec p)
    (recursiveExec p) (resTbl p) (iterInTbl p) (iterOutTbl p) (hashTbl p)
    (isDistinct p) (curIter p) (sel p) (hasLimit p) (limitBeg p) (limitEnd p)
    (CTEMaxRecursionDepth p) (corCols p) c.

(** ** Reading the result table *)

Local Open Scope Z_scope.

Definition withChkIdx (e : CTEExec) (i : nat) : CTEExec :=
  mkCTEExec i (cursor e) (meetFirstBatch e) (childOpenErr e).

Definition withCursor (e : CTEExec) (c : Z) : CTEExec :=
  mkCTEExec (chkIdx e) c (meetFirstBatch e) (childOpenErr e).

Definition withMeetFirstBatch (e : CTEExec) (b : bool) : CTEExec :=
  mkCTEExec (chkIdx e) (cursor e) b (childOpenErr e).

(** [uint64] to [int]. *)
Definition toInt (z : Z) : Z := if z <? 2 ^ 63 then z else z - 2 ^ 64.

(** [req.Append(chk, begin, end)] on an empty [req]: the rows [begin, end)
    of [chk]; a range outside the chunk is a run-time fault. *)
Definition chunkAppend (rows : list Row) (b e : Z) : result (list Row) :=
  if (0 <=? b) && (b <=? e) && (e <=? Z.of_nat (length rows))
  then Ok (firstn (Z.to_nat (e - b)) (skipn (Z.to_nat b) rows))
  else Err ErrPanic.

(** The first loop of [nextChunkLimit], over the batches of [resTbl] from
    [chkIdx] on ([chunks] is that remainder, its head is
    [resTbl.GetChunk(chkIdx)]).  [inl] is a return from [nextChunkLimit],
    [inr] the fall through to its second part, by [break] or at the end of
    the table. *)
Fixpoint scanFirstBatch (limBeg limEnd : Z) (chunks : list Chunk)
         (e : CTEExec) : (result (list Row) * CTEExec) + CTEExec :=
  match chunks with
  | [] => inr e
  | res :: rest =>
      let e := withChkIdx e (S (chkIdx e)) in
      let numRows := u64 (Z.of_nat (NumRows res)) in
      let newCursor := u64 (cursor e + numRows) in
      if newCursor >=? limBeg then
        let e := withMeetFirstBatch e true in
        let begInChk := u64 (limBeg - cursor e) in
        let endInChk := if newCursor >? limEnd
                        then u64 (limEnd - cursor e) else numRows in
        let e := withCursor e (u64 (cursor e + endInChk)) in
        if begInChk =? endInChk then inr e
        else inl (chunkAppend (logicalRows (CopyConstructSel res))
                    (toInt begInChk) (toInt endInChk), e)
      else scanFirstBatch limBeg limEnd rest
             (withCursor e (u64 (cursor e + numRows)))
  end.

(** The second part of [nextChunkLimit]. *)
Definition nextChunkAfterFirst (p : cteProducer) (e : CTEExec)
  : result (list Row) * CTEExec :=
  if Nat.ltb (chkIdx e) (NumChunks (resTbl p)) && (cursor e <? limitEnd p)
  then
    match stGetChunk (resTbl p) (chkIdx e) with
    | Err err => (Err err, e)
    | Ok res =>
        let e := withChkIdx e (S (chkIdx e)) in
        let numRows := u64 (Z.of_nat (NumRows res)) in
        if u64 (cursor e + numRows) >? limitEnd p then
          let numRows := u64 (limitEnd p - cursor e) in
          (chunkAppend (logicalRows (CopyConstructSel res)) 0 (toInt numRows),
           withCursor e (u64 (cursor e + numRows)))
        else
          (Ok (logicalRows (CopyConstructSel res)),
           withCursor e (u64 (cursor e + numRows)))
    end
  else (Ok [], e).

Definition nextChunkLimit (p : cteProducer) (e : CTEExec)
  : result (list Row) * CTEExec :=
  if meetFirstBatch e then nextChunkAfterFirst p e
  else
    match scanFirstBatch (limitBeg p) (limitEnd p)
            (skipn (chkIdx e) (stChunks (resTbl p))) e with
    | inl r => r
    | inr e' => nextChunkAfterFirst p e'
    end.

(** [getChunk]: the rows handed to the caller in [req], and the cursor. *)
Definition getChunk (p : cteProducer) (e : CTEExec)
  : result (list Row) * CTEExec :=
  if hasLimit p then nextChunkLimit p e
  else if Nat.ltb (chkIdx e) (NumChunks (resTbl p)) then
    match stGetChunk (resTbl p) (chkIdx e) with
    | Err err => (Err err, e)
    | Ok res => (Ok (logicalRows (CopyConstructSel res)),
                 withChkIdx e (S (chkIdx e)))
    end
  else (Ok [], e).

(** ** The producer *)

Section Producer.

(** The row hash of the deduplication and the fingerprint of a correlated
    value ([codec.HashCode]). *)
Variable hashRow : Row -> Z.
Variable HashCode : Z -> list Z.

(** [limitDone] *)
Definition limitDone (p : cteProducer) (tbl : Storage) : bool :=
  hasLimit p && (u64 (Z.of_nat (stNumRows tbl)) >=? limitEnd p).

(** [openProducer]: the body, then the deferred update of [openErr] and
    [opened]. *)
Definition openProducerBody (p : cteProducer) : option error * cteProducer :=
  match seedExec p with
  | None => (Some ErrSeedExecNil, p)
  | Some s =>
      let '(err, s') := execOpen s in
      let p := setSeedExec p (Some s') in
      match err with
      | Some e => (Some e, p)
      | None =>
          let '(err2, p) :=
            match recursiveExec p with
            | None => (None, p)
            | Some r =>
                let '(er, r') := execOpen r in
                let p := setRecursiveExec p (Some r') in
                match er with
                | Some e => (Some e, p)
                | None => (None, setIterOutTbl p (Some emptyStorage))
                end
            end in
          match err2 with
          | Some e => (Some e, p)
          | None =>
              (None,
               if isDistinct p
               then setHashTbl p (Some newConcurrentMapHashTable)
               else p)
          end
      end
  end.

Definition openProducer (p : cteProducer) : option error * cteProducer :=
  let '(err, p') := openProducerBody p in
  match err with
  | None => (None, setOpen p' true None)
  | Some e => (Some e, setOpen p' false (Some e))
  end.

(** [cteProducer.reset] *)
Definition reset (p : cteProducer) : cteProducer :=
  mkProducer false false false None (seedExec p) (recursiveExec p)
    (resTbl p) (iterInTbl p) (iterOutTbl p) None (isDistinct p)
    0 (sel p) (hasLimit p) (limitBeg p) (limitEnd p)
    (CTEMaxRecursionDepth p) (corCols p) (corColHashCodes p).

(** [reopenTbls] *)
Definition reopenTbls (p : cteProducer) : cteProducer :=
  let p := if isDistinct p
           then setHashTbl p (Some newConcurrentMapHashTable) else p in
  let p := setResTbl p (stReopen (resTbl p)) in
  setIterInTbl p (stReopen (iterInTbl p)).

(** [checkAndUpdateCorColHashCode]: [None] is the fault of reading
    [corColHashCodes] out of range. *)
Definition codes_eqb (a b : list Z) : bool :=
  if list_eq_dec Z.eq_dec a b then true else false.

Fixpoint checkCodes (cols : list Z) (codes : list (list Z))
  : option (bool * list (list Z)) :=
  match cols with
  | [] => Some (false, codes)
  | c :: cols' =>
      match codes with
      | [] => None
      | old :: codes' =>
          match checkCodes cols' codes' with
          | None => None
          | Some (changed, rest) =>
              let newHashCode := HashCode c in
              if codes_eqb newHashCode old then Some (changed, old :: rest)
              else Some (true, newHashCode :: rest)
          end
      end
  end.

Definition checkAndUpdateCorColHashCode (p : cteProducer)
  : option (bool * cteProducer) :=
  match checkCodes (corCols p) (corColHashCodes p) with
  | None => None
  | Some (changed, codes) => Some (changed, setCorColHashCodes p codes)
  end.

(** [CTEExec.reset] and [CTEExec.Open] *)
Definition resetExec (e : CTEExec) : CTEExec :=
  mkCTEExec 0 0 false (childOpenErr e).

Definition Open (e : CTEExec) (p : cteProducer)
  : result unit * CTEExec * cteProducer :=
  let e := resetExec e in
  match childOpenErr e with
  | Some err => (Err err, e, p)
  | None =>
      match checkAndUpdateCorColHashCode p with
      | None => (Err ErrPanic, e, p)
      | Some (changed, p) =>
          let p := if changed then reopenTbls (reset p) else p in
          match openErr p with
          | Some err => (Err err, e, p)
          | None =>
              if negb (opened p) then
                match openProducer p with
                | (Some err, p) => (Err err, e, p)
                | (None, p) => (Ok tt, e, p)
                end
              else (Ok tt, e, p)
          end
      end
  end.

(** The loop of [computeSeedPart].  [None] means that the fuel ran out
    before the loop ended.  The seed plan has no table reader below it:
    its batches do not depend on the iteration input. *)
Fixpoint seedLoop (fuel : nat) (p : cteProducer) (chks : list Chunk)
  : option (result (list Chunk) * cteProducer) :=
  match fuel with
  | O => None
  | S fuel' =>
      if limitDone p (iterInTbl p) then Some (Ok chks, p)
      else
        match seedExec p with
        | None => Some (Err ErrPanic, p)
        | Some ex =>
            let '(r, ex') := execNext ex [] in
            let p := setSeedExec p (Some ex') in
            match r with
            | Err e => Some (Err e, p)
            | Ok chk =>
                if Nat.eqb (NumRows chk) 0 then Some (Ok chks, p)
                else
                  match tryDedupAndAdd hashRow (isDistinct p) (sel p) chk
                          (iterInTbl p) (hashTbl p) with
                  | Err e => Some (Err e, p)
                  | Ok (chk', st', h', psel') =>
                      seedLoop fuel'
                        (setSel (setHashTbl (setIterInTbl p st') h') psel')
                        (chks ++ [chk'])
                  end
            end
        end
  end.

(** [computeSeedPart] *)
Definition computeSeedPart (fuel : nat) (p : cteProducer)
  : option (result unit * cteProducer) :=
  let p := setCurIter p 0 in
  let p := setIterInTbl p (stSetIter (iterInTbl p) (curIter p)) in
  match seedLoop fuel p [] with
  | None => None
  | Some (Err e, p) => Some (Err e, p)
  | Some (Ok chks, p) =>
      let p := setResTbl p (fold_left stAdd chks (resTbl p)) in
      let p := setCurIter p (curIter p + 1) in
      let p := setIterInTbl p (stSetIter (iterInTbl p) (curIter p)) in
      Some (Ok tt, p)
  end.

(** The first loop of [setupTblsForNewIteration]: the batches of
    [iterOutTbl] are deduplicated against, and added to, [resTbl]. *)
Fixpoint foldIntoRes (out : Storage) (idxs : list nat) (p : cteProducer)
         (chks : list Chunk) : result (list Chunk) * cteProducer :=
  match idxs with
  | [] => (Ok chks, p)
  | i :: rest =>
      match stGetChunk out i with
      | Err e => (Err e, p)
      | Ok chk =>
          let chk := if isDistinct p then CopyConstruct chk else chk in
          match tryDedupAndAdd hashRow (isDistinct p) (sel p) chk
                  (resTbl p) (hashTbl p) with
          | Err e => (Err e, p)
          | Ok (chk', st', h', psel') =>
              foldIntoRes out rest
                (setSel (setHashTbl (setResTbl p st') h') psel')
                (chks ++ [chk'])
          end
      end
  end.

(** [setupTblsForNewIteration], the rotation. *)
Definition setupTblsForNewIteration (p : cteProducer)
  : result unit * cteProducer :=
  match iterOutTbl p with
  | None => (Err ErrPanic, p)
  | Some out =>
      let num := NumChunks out in
      match foldIntoRes out (seq 0 num) p [] with
      | (Err e, p) => (Err e, p)
      | (Ok chks, p) =>
          let iterIn := stReopen (iterInTbl p) in
          let '(iterIn, out) :=
            if isDistinct p then (fold_left stAdd chks iterIn, out)
            else stSwapData iterIn out in
          let p := setIterInTbl p iterIn in
          (Ok tt, setIterOutTbl p (Some (stReopen out)))
      end
  end.

(** One pass through the body of the loop of [computeRecursivePart]:
    [inl] is a return from the function (by [return] or by [break]),
    [inr] the state the next pass starts from. *)
Definition recBody (p : cteProducer)
  : (result unit * cteProducer) + cteProducer :=
  match recursiveExec p with
  | None => inl (Err ErrPanic, p)
  | Some ex =>
      let '(r, ex') := execNext ex (stChunks (iterInTbl p)) in
      let p := setRecursiveExec p (Some ex') in
      match r with
      | Err e => inl (Err e, p)
      | Ok chk =>
          if Nat.eqb (NumRows chk) 0 then
            match setupTblsForNewIteration p with
            | (Err e, p) => inl (Err e, p)
            | (Ok _, p) =>
                if limitDone p (resTbl p) then inl (Ok tt, p)
                else if Nat.eqb (NumChunks (iterInTbl p)) 0
                then inl (Ok tt, p)
                else
                  let p := setCurIter p (curIter p + 1) in
                  let p := setIterInTbl p
                             (stSetIter (iterInTbl p) (curIter p)) in
                  if curIter p >? CTEMaxRecursionDepth p
                  then inl (Err (ErrCTEMaxRecursionDepth (curIter p)), p)
                  else
                    let '(cerr, ex1) := execClose ex' in
                    let p := setRecursiveExec p (Some ex1) in
                    match cerr with
                    | Some e => inl (Err e, p)
                    | None =>
                        let '(oerr, ex2) := execOpen ex1 in
                        let p := setRecursiveExec p (Some ex2) in
                        match oerr with
                        | Some e => inl (Err e, p)
                        | None => inr p
                        end
                    end
            end
          else
            match iterOutTbl p with
            | None => inl (Err ErrPanic, p)
            | Some out => inr (setIterOutTbl p (Some (stAdd out chk)))
            end
      end
  end.

(** The loop of [computeRecursivePart]; [None] means that the fuel ran
    out before the loop ended. *)
Fixpoint recLoop (fuel : nat) (p : cteProducer)
  : option (result unit * cteProducer) :=
  match fuel with
  | O => None
  | S fuel' =>
      match recBody p with
      | inl r => Some r
      | inr p' => recLoop fuel' p'
      end
  end.

(** [computeRecursivePart] *)
Definition computeRecursivePart (fuel : nat) (p : cteProducer)
  : option (result unit * cteProducer) :=
  match recursiveExec p with
  | None => Some (Ok tt, p)
  | Some _ =>
      if Nat.eqb (NumChunks (iterInTbl p)) 0 then Some (Ok tt, p)
      else if curIter p >? CTEMaxRecursionDepth p
      then Some (Err (ErrCTEMaxRecursionDepth (curIter p)), p)
      else if limitDone p (resTbl p) then Some (Ok tt, p)
      else recLoop fuel p
  end.

(** [produce] *)
Definition produce (fuel : nat) (p : cteProducer)
  : option (result unit * cteProducer) :=
  match stErr (resTbl p) with
  | Some e => Some (Err e, p)
  | None =>
      match computeSeedPart fuel p with
      | None => None
      | Some (Err e, p) =>
          Some (Err e, setResTbl p (stSetError (resTbl p) e))
      | Some (Ok _, p) =>
          match computeRecursivePart fuel p with
          | None => None
          | Some (Err e, p) =>
              Some (Err e, setResTbl p (stSetError (resTbl p) e))
          | Some (Ok _, p) =>
              Some (Ok tt, setResTbl p (stSetDone (resTbl p)))
          end
      end
  end.

(** [CTEExec.Next]: the rows handed to the caller. *)
Definition Next (fuel : nat) (e : CTEExec) (p : cteProducer)
  : option (result (list Row) * CTEExec * cteProducer) :=
  if negb (stDone (resTbl p)) then
    match produce fuel p with
    | None => None
    | Some (Err err, p) => Some (Err err, e, p)
    | Some (Ok _, p) =>
        let '(r, e) := getChunk p e in Some (r, e, p)
    end
  else let '(r, e) := getChunk p e in Some (r, e, p).

End Producer.

(** ** Closing *)

(** [setFirstErr]: the first error is kept (the new one is only logged). *)
Definition setFirstErr (firstErr newErr : option error) : option error :=
  match newErr with
  | Some e => match firstErr with
              | None => Some e
              | Some _ => firstErr
              end
  | None => firstErr
  end.

Definition setClosed (p : cteProducer) (c : bool) :=
  mkProducer (opened p) (produced p) c (openErr p) (seedExec p)
    (recursiveExec p) (resTbl p) (iterInTbl p) (iterOutTbl p) (hashTbl p)
    (isDistinct p) (curIter p) (sel p) (hasLimit p) (limitBeg p) (limitEnd p)
    (CTEMaxRecursionDepth p) (corCols p) (corColHashCodes p).

Section Closing.

(** Modelled from the spec: [DerefAndClose] of the storage contract
    (reference counting), which is not part of the sources at hand: the
    error it returns and the table it leaves. *)
Variable DerefAndClose : Storage -> option error * Storage.

(** [closeProducer].  A producer without seed plan makes the call of
    [p.seedExec.Close()] a run-time fault, which nothing recovers. *)
Definition closeProducer (p : cteProducer)
  : result (option error) * cteProducer :=
  match seedExec p with
  | None => (Err ErrPanic, p)
  | Some s =>
      let '(err, s') := execClose s in
      let p := setSeedExec p (Some s') in
      let firstErr := setFirstErr None err in
      let '(firstErr, p) :=
        match recursiveExec p with
        | None => (firstErr, p)
        | Some r =>
            let '(err, r') := execClose r in
            let p := setRecursiveExec p (Some r') in
            let firstErr := setFirstErr firstErr err in
            match iterOutTbl p with
            | None => (firstErr, p)
            | Some out =>
                let '(err, out') := DerefAndClose out in
                (setFirstErr firstErr err, setIterOutTbl p (Some out'))
            end
        end in
      (Ok firstErr, setClosed p true)
  end.

(** [CTEExec.Close]; [childCloseErr] is the result of closing the children
    through [baseExecutor.Close]. *)
Definition Close (childCloseErr : option error) (p : cteProducer)
  : result (option error) * cteProducer :=
  let '(r, p) :=
    if negb (closed p) then
      match closeProducer p with
      | (Err e, p) => (Err e, p)
      | (Ok err, p) => (Ok (setFirstErr None err), p)
      end
    else (Ok None, p) in
  match r with
  | Err e => (Err e, p)
  | Ok firstErr => (Ok (setFirstErr firstErr childCloseErr), p)
  end.

End Closing.

(** ** Task metadata ([distribute_framework/proto/task.go]) *)

Module Proto.

(** [GlobalTaskMeta] and [SubTaskMeta] are interfaces, each with one
    implementation in the file; a nil interface value is [None]. *)
Inductive GlobalTaskMeta : Type := SimpleNumberGTaskMeta.

Inductive TaskType : Type :=
| TaskTypeExample | TaskTypeCreateIndex | TaskTypeImport | TaskTypeTTL
| TaskTypeNumber.

Definition GetType (g : GlobalTaskMeta) : TaskType := TaskTypeNumber.

Definition GetConcurrency (g : GlobalTaskMeta) : Z := 4.

Definition SerializeG (g : GlobalTaskMeta) : list Byte.byte := [Byte.x01].

(** [UnSerializeGlobalTaskMeta]: reading [b[0]] of an empty slice is a
    run-time fault. *)
Definition UnSerializeGlobalTaskMeta (b : list Byte.byte)
  : result (option GlobalTaskMeta) :=
  match b with
  | [] => Err ErrPanic
  | b0 :: _ => if Byte.eqb b0 Byte.x01 then Ok (Some SimpleNumberGTaskMeta)
               else Ok None
  end.

Section SubTask.

(** The value of the field [Numbers] (a slice of [int], nil or not), and
    [encoding/json] on it, which is not part of the repository:
    [jsonMarshal] is [json.Marshal]; [jsonUnmarshal b v] is
    [json.Unmarshal(b, &v)], the value it leaves in [v] and its error. *)
Variable Ints : Type.
Variable nilInts : Ints.
Variable jsonMarshal : Ints -> result (list Byte.byte).
Variable jsonUnmarshal : list Byte.byte -> Ints -> Ints * option error.

Record SimpleNumberSTaskMeta : Type := mkSTaskMeta { Numbers : Ints }.

(** [SimpleNumberSTaskMeta.Serialize] *)
Definition SerializeS (g : SimpleNumberSTaskMeta) : list Byte.byte :=
  let head := [Byte.x01] in
  match jsonMarshal (Numbers g) with
  | Err _ => head
  | Ok jsonMeta => head ++ jsonMeta
  end.

(** [UnSerializeSubTaskMeta]: the error of [json.Unmarshal] is dropped. *)
Definition UnSerializeSubTaskMeta (b : list Byte.byte)
  : result (option SimpleNumberSTaskMeta) :=
  match b with
  | [] => Err ErrPanic
  | b0 :: rest =>
      if Byte.eqb b0 Byte.x01 then
        let '(numbers, _) := jsonUnmarshal rest nilInts in
        Ok (Some (mkSTaskMeta numbers))
      else Ok None
  end.

End SubTask.

End Proto.

(** ** Notions used in the statements *)

(** The row a pointer is resolved to: in the current chunk, or in the
    table. *)
Definition resolvePtr (curChk : option Chunk) (storage : Storage)
           (ptr : RowPtr) : option Row :=
  match curChk with
  | Some c => GetRow c (N.to_nat (RowIdx ptr))
  | None => stGetRow storage ptr
  end.

(** ** Fixtures for the concrete evaluations *)

(** A hash that only reads the first column: rows that agree on it
    collide. *)
Definition firstColumnHash (r : Row) : Z := hd 0 r.

(** The fingerprint of a correlated value. *)
Definition unitHashCode (z : Z) : list Z := [z].

(** The part of [Open] that follows the fingerprint check and the reset it
    may trigger. *)
Definition openAfterCheck (e : CTEExec) (p : cteProducer)
  : result unit * CTEExec * cteProducer :=
  match openErr p with
  | Some err => (Err err, e, p)
  | None =>
      if negb (opened p) then
        match openProducer p with
        | (Some err, p) => (Err err, e, p)
        | (None, p) => (Ok tt, e, p)
        end
      else (Ok tt, e, p)
  end.

(** A seed plan whose [Open] fails, one whose [Next] fails, and producers
    built on them. *)
Definition brokenOpenExec : Executor :=
  mkExecutor (Some (ErrSubPlan 3)) None (fun _ _ => Ok (mkChunk [] None))
    0 0 0.

Definition brokenNextExec : Executor :=
  mkExecutor None None (fun _ _ => Err (ErrSubPlan 7)) 0 0 0.

Definition producerOf (seed rec : option Executor) (distinct : bool)
           (maxDepth : Z) : cteProducer :=
  mkProducer false false false None seed rec emptyStorage emptyStorage None
    None distinct 0 [0; 1]%nat false 0 0 maxDepth [] [].

Definition freshExec : CTEExec := mkCTEExec 0 0 false None.

(** A producer that has completed an evaluation in DISTINCT mode and depends
    on one correlated value, whose fingerprint was taken at value 1. *)
Definition finishedProducer (corVal : Z) : cteProducer :=
  mkProducer true false false None None None
    (mkStorage [mkChunk [[1]; [2]] None] true None 0 1)
    (mkStorage [mkChunk [[2]] None] false None 2 0)
    (Some emptyStorage)
    (Some [(1, mkRowPtr 0 0); (2, mkRowPtr 0 1)])
    true 2 [0; 1]%nat false 0 0 10 [corVal] [unitHashCode 1].

(** A chunk is well formed when its selection list only names rows it
    holds. *)
Definition wfChunk (c : Chunk) : Prop :=
  match chkSel c with
  | Some s => Forall (fun j => (j < length (chkRows c))%nat) s
  | None => True
  end.

(** The rows of a sequence of batches, in reading order. *)
Definition rowsOf (chunks : list Chunk) : list Row :=
  flat_map logicalRows chunks.

(** The rows handed out by [n] successive calls of [getChunk] of one
    consumer, concatenated. *)
Fixpoint drainChunks (n : nat) (p : cteProducer) (e : CTEExec)
  : result (list Row) :=
  match n with
  | O => Ok []
  | S n' =>
      match getChunk p e with
      | (Ok rows, e') =>
          match drainChunks n' p e' with
          | Ok rest => Ok (rows ++ rest)
          | Err x => Err x
          end
      | (Err x, _) => Err x
      end
  end.


(** The slice [[B, E)] of the whole output that is still to come when [c]
    rows have been passed and [rows] remain. *)
Definition sliceFrom (B E c : nat) (rows : list Row) : list Row :=
  firstn (E - Nat.max B c) (skipn (Nat.max B c - c) rows).

(** The batches of [resTbl] the cursor has not read yet. *)
Definition Rem (p : cteProducer) (e : CTEExec) (rem : list Chunk) : Prop :=
  skipn (chkIdx e) (stChunks (resTbl p)) = rem /\
  (chkIdx e <= NumChunks (resTbl p))%nat.

(** The cursor states of the limit-aware retrieval, for the limit [[B, E)]:
    before the first batch was met the counter is the number [c] of rows
    passed, at most [B]; afterwards it is that number capped at [E]. *)
Definition UnmetSt (p : cteProducer) (B c : nat) (rem : list Chunk)
           (e : CTEExec) : Prop :=
  meetFirstBatch e = false /\ cursor e = Z.of_nat c /\ (c <= B)%nat /\
  Rem p e rem.

Definition MetSt (p : cteProducer) (B E c : nat) (rem : list Chunk)
           (e : CTEExec) : Prop :=
  meetFirstBatch e = true /\ cursor e = Z.of_nat (Nat.min c E) /\
  (B <= c)%nat /\ Rem p e rem.

(** A finished result table of three batches holding the rows 1 to 8, and a
    producer with the limit [[B, E)] over it. *)
Definition oneToEight : list Chunk :=
  [mkChunk [[1]; [2]; [3]] None; mkChunk [[4]; [5]] None;
   mkChunk [[6]; [7]; [8]] None].

Definition limitedProducer (B E : Z) : cteProducer :=
  mkProducer true false false None None None
    (mkStorage oneToEight true None 0 1) emptyStorage None None
    false 1 [0; 1]%nat true B E 10 [] [].

(** The example of the specification: the seed yields the rows 1, 2, 3 in
    one batch; the recursive step maps every [x < 5] of the iteration input
    to [x + 1]. *)
Definition seedOneTwoThree : Executor :=
  mkExecutor None None
    (fun _ k => match k with
                | O => Ok (mkChunk [[1]; [2]; [3]] None)
                | _ => Ok (mkChunk [] None)
                end) 0 0 0.

Definition incrBelowFive (inp : list Chunk) : list Row :=
  flat_map (fun r => match r with
                     | [x] => if x <? 5 then [[x + 1]] else []
                     | _ => []
                     end) (rowsOf inp).

Definition recIncrBelowFive : Executor :=
  mkExecutor None None
    (fun inp k => match k with
                  | O => Ok (mkChunk (incrBelowFive inp) None)
                  | _ => Ok (mkChunk [] None)
                  end) 0 0 0.

(** The producer of the example, opened. *)
Definition exampleProducer (distinct : bool) (maxDepth : Z) : cteProducer :=
  snd (openProducer
         (producerOf (Some seedOneTwoThree) (Some recIncrBelowFive)
            distinct maxDepth)).

(** [n] passes through the loop body of [computeRecursivePart] that all
    continue the loop. *)
Fixpoint iterBody (hashRow : Row -> Z) (n : nat) (p : cteProducer)
  : option cteProducer :=
  match n with
  | O => Some p
  | S n' =>
      match recBody hashRow p with
      | inr q => iterBody hashRow n' q
      | inl _ => None
      end
  end.

(** The flags of a table that only [SetDone], [SetError] and [Reopen]
    change. *)
Definition sameFlags (s s' : Storage) : Prop :=
  stDone s' = stDone s /\ stErr s' = stErr s /\
  stDoneCalls s' = stDoneCalls s.

(** What an evaluation never changes: the configuration of the producer,
    the behaviour of its plans and the flags of [resTbl]. *)
Definition sameSetup (p p' : cteProducer) : Prop :=
  CTEMaxRecursionDepth p' = CTEMaxRecursionDepth p /\
  isDistinct p' = isDistinct p /\
  hasLimit p' = hasLimit p /\
  limitBeg p' = limitBeg p /\
  limitEnd p' = limitEnd p /\
  option_map exNext (recursiveExec p') = option_map exNext (recursiveExec p) /\
  option_map exNext (seedExec p') = option_map exNext (seedExec p) /\
  sameFlags (resTbl p) (resTbl p').

(** A plan eventually yields an empty batch: whatever the iteration input
    and however many batches it has returned since its [Open], a later call
    of [Next] returns a batch without rows. *)
Definition eventuallyEmpty (f : list Chunk -> nat -> result Chunk) : Prop :=
  forall inp pos,
  exists k, (pos <= k)%nat /\ exists c, f inp k = Ok c /\ NumRows c = 0%nat.

(** States of the evaluation of the example in DISTINCT mode with maximum
    depth [D]: after the seed phase, after [n] further passes through the
    loop body, and after the rotation that follows. *)
Definition exampleSeeded (D : Z) : cteProducer :=
  match computeSeedPart firstColumnHash 5 (exampleProducer true D) with
  | Some (_, ps) => ps
  | None => exampleProducer true D
  end.

Definition exampleAt (D : Z) (n : nat) : cteProducer :=
  match iterBody firstColumnHash n (exampleSeeded D) with
  | Some q => q
  | None => exampleSeeded D
  end.

Definition exampleExecAt (D : Z) (n : nat) : Executor :=
  match recursiveExec (exampleAt D n) with
  | Some ex => ex
  | None => recIncrBelowFive
  end.

Definition exampleRotated (D : Z) (n : nat) : cteProducer :=
  snd (setupTblsForNewIteration firstColumnHash
         (setRecursiveExec (exampleAt D n)
            (Some (snd (execNext (exampleExecAt D n)
                          (stChunks (iterInTbl (exampleAt D n)))))))).

(** Every pointer of the hash index resolves to a row of the table. *)
Definition htValid (st : Storage) (h : baseHashTable) : Prop :=
  forall key ptr, In (key, ptr) h -> stGetRow st ptr <> None.

(** The row is in the table and the hash index leads to it. *)
Definition indexed (hashRow : Row -> Z) (st : Storage) (h : baseHashTable)
           (r : Row) : Prop :=
  exists ptr, In (hashRow r, ptr) h /\ stGetRow st ptr = Some r.

(** The rows selected by the selection list [s] of physical indices. *)
Definition rowsAt (c : Chunk) (s : list nat) : list Row :=
  logicalRows (SetSel c s).

(** A chunk with a duplicate row, and the same rows in another order. *)
Definition dupChunk : Chunk := mkChunk [[1; 10]; [2; 5]; [1; 10]] None.

Definition dupChunkPermuted : Chunk :=
  mkChunk [[2; 5]; [1; 10]; [1; 10]] None.

(** The example with one seed row asked for: limit [[0, 1)], and no
    recursion allowed. *)
Definition limitOneNoRecursion : cteProducer :=
  let p := exampleProducer false 0 in
  mkProducer (opened p) (produced p) (closed p) (openErr p) (seedExec p)
    (recursiveExec p) (resTbl p) (iterInTbl p) (iterOutTbl p) (hashTbl p)
    (isDistinct p) (curIter p) (sel p) true 0 1
    (CTEMaxRecursionDepth p) (corCols p) (corColHashCodes p).


(** A stand-in for [encoding/json] on byte strings: the payload is the
    value itself. *)
Definition rawMarshal (v : list Byte.byte) : result (list Byte.byte) := Ok v.

Definition rawUnmarshal (b v : list Byte.byte)
  : list Byte.byte * option error := (b, None).

(** The first error of a sequence of results, none when all succeeded. *)
Definition firstError (l : list (option error)) : option error :=
  fold_left setFirstErr l None.

(** A stand-in for [DerefAndClose] that fails and leaves the table. *)
Definition derefFails (s : Storage) : option error * Storage :=
  (Some (ErrSubPlan 9), s).

(** A plan whose [Close] fails. *)
Definition brokenCloseExec : Executor :=
  mkExecutor None (Some (ErrSubPlan 5)) (fun _ _ => Ok (mkChunk [] None))
    0 1 0.

(** An opened recursive producer whose seed plan fails to close. *)
Definition closeFixture : cteProducer :=
  mkProducer true false false None (Some brokenCloseExec)
    (Some recIncrBelowFive) emptyStorage emptyStorage (Some emptyStorage)
    None false 1 [0; 1]%nat false 0 0 10 [] [].

(** The stored fingerprints agree with those of the current values. *)
Definition codesAgree (new old : list (list Z)) : bool :=
  if list_eq_dec (list_eq_dec Z.eq_dec) new old then true else false.

(** The batches [Add] stores: those with rows. *)
Definition nonEmptyChunks (l : list Chunk) : list Chunk :=
  filter (fun c => negb (Nat.eqb (NumRows c) 0)) l.

(** The example after its seed phase, with one batch of the recursive step
    waiting in [iterOutTbl]. *)
Definition rotationFixture : cteProducer :=
  setIterOutTbl (exampleSeeded 10)
    (Some (mkStorage [mkChunk [[2]; [3]; [4]] None] false None 0 0)).

(** The second table holds the batches of the first, at the same places,
    and possibly more after them. *)
Definition extendsTbl (s s' : Storage) : Prop :=
  exists more, stChunks s' = stChunks s ++ more.

(** How far an evaluation has advanced from [p] to [q]: the counter has
    not decreased and, when it has moved, is within the recursion depth;
    the recursive plan has been closed and opened once for each step of the
    counter; the seed plan is the one of [p]. *)
Definition advanced (p q : cteProducer) : Prop :=
  seedExec q = seedExec p /\
  CTEMaxRecursionDepth q = CTEMaxRecursionDepth p /\
  curIter p <= curIter q /\
  (curIter q = curIter p \/ curIter q <= CTEMaxRecursionDepth p) /\
  forall ex, recursiveExec p = Some ex ->
    exists ex', recursiveExec q = Some ex' /\
      Z.of_nat (exOpens ex')
      = Z.of_nat (exOpens ex) + (curIter q - curIter p) /\
      Z.of_nat (exCloses ex')
      = Z.of_nat (exCloses ex) + (curIter q - curIter p).

(** Every row of the table is reachable through the hash index. *)
Definition htComplete (hashRow : Row -> Z) (st : Storage)
           (h : baseHashTable) : Prop :=
  forall r, In r (stRows st) -> indexed hashRow st h r.

(** A batch a plan may hand out: well formed, with fewer than 2^32 rows. *)
Definition goodChunk (c : Chunk) : Prop :=
  wfChunk c /\ (N.of_nat (NumRows c) < 2 ^ 32)%N.

(** Every batch the plan returns is such a batch. *)
Definition goodNext (f : option (list Chunk -> nat -> result Chunk)) : Prop :=
  forall g inp k c, f = Some g -> g inp k = Ok c -> goodChunk c.

(** The table is a set described by the hash index: its rows are pairwise
    different, the index is valid and complete, and the cached selection
    is a full range. *)
Definition setTable (hashRow : Row -> Z) (st : Storage)
           (h : option baseHashTable) (psel : list nat) : Prop :=
  psel = seq 0 (length psel) /\ NoDup (stRows st) /\
  exists h', h = Some h' /\ htValid st h' /\ htComplete hashRow st h'.

(** What a DISTINCT evaluation maintains between the steps of its
    recursive part: [resTbl] is a set described by the hash index, and the
    recursive plan and the batches waiting in [iterOutTbl] are as above. *)
Definition distinctInv (hashRow : Row -> Z) (p : cteProducer) : Prop :=
  isDistinct p = true /\
  goodNext (option_map exNext (recursiveExec p)) /\
  setTable hashRow (resTbl p) (hashTbl p) (sel p) /\
  forall out, iterOutTbl p = Some out -> Forall goodChunk (stChunks out).

(** The recursive step of the example, handing out at most 1024 rows in a
    batch, and the opened DISTINCT producer over it. *)
Definition recIncrBatched : Executor :=
  mkExecutor None None
    (fun inp k => match k with
                  | O => Ok (mkChunk (firstn 1024 (incrBelowFive inp)) None)
                  | _ => Ok (mkChunk [] None)
                  end) 0 0 0.

Definition batchedProducer : cteProducer :=
  snd (openProducer
         (producerOf (Some seedOneTwoThree) (Some recIncrBatched) true 10)).

(** The batched example after its seed phase, with one batch of the
    recursive step waiting in [iterOutTbl]. *)
Definition batchedSeeded : cteProducer :=
  match computeSeedPart firstColumnHash 5 batchedProducer with
  | Some (_, ps) => ps
  | None => batchedProducer
  end.

Definition batchedRotation : cteProducer :=
  setIterOutTbl batchedSeeded
    (Some (mkStorage [mkChunk [[2]; [3]; [4]] None] false None 0 0)).

(** * Properties *)

(** ** Elementary facts: results, chunks, tables, hash index *)

Lemma row_eqb_true (r1 r2 : Row) : row_eqb r1 r2 = true <-> r1 = r2.
Proof.
  unfold row_eqb. destruct (list_eq_dec Z.eq_dec r1 r2); split; congruence.
Qed.

Lemma row_eqb_refl (r : Row) : row_eqb r r = true.
Proof. apply row_eqb_true; reflexivity. Qed.

Lemma u32_small (n : nat) : (N.of_nat n < 2 ^ 32)%N -> N.to_nat (u32 n) = n.
Proof.
  intros H. unfold u32. rewrite N.mod_small by exact H. apply Nat2N.id.
Qed.

Lemma In_htGet (h : baseHashTable) (key : Z) (ptr : RowPtr) :
  In ptr (htGet h key) <-> In (key, ptr) h.
Proof.
  unfold htGet. rewrite in_map_iff. split.
  - intros [[k q] [Hq Hin]]. simpl in Hq. subst q.
    apply filter_In in Hin. destruct Hin as [Hin Hk]. simpl in Hk.
    apply Z.eqb_eq in Hk. subst k. exact Hin.
  - intros Hin. exists (key, ptr). split; [reflexivity|].
    apply filter_In. split; [exact Hin|]. simpl. apply Z.eqb_refl.
Qed.

Lemma htGet_htPut (h : baseHashTable) (k key : Z) (ptr : RowPtr) :
  htGet (htPut h k ptr) key =
  htGet h key ++ (if Z.eqb k key then [ptr] else []).
Proof.
  unfold htGet, htPut. rewrite filter_app, map_app. simpl.
  destruct (Z.eqb k key); reflexivity.
Qed.

Lemma NumChunks_stAdd_le (s : Storage) (c : Chunk) :
  (NumChunks s <= NumChunks (stAdd s c))%nat.
Proof.
  unfold stAdd, NumChunks. destruct (Nat.eqb (NumRows c) 0); simpl.
  - lia.
  - rewrite length_app. simpl. lia.
Qed.

Lemma stGetRow_stAdd_old (s : Storage) (c : Chunk) (ptr : RowPtr) (r : Row) :
  stGetRow s ptr = Some r -> stGetRow (stAdd s c) ptr = Some r.
Proof.
  unfold stGetRow, stAdd. intros H.
  destruct (Nat.eqb (NumRows c) 0); [exact H|]. simpl.
  destruct (nth_error (stChunks s) (N.to_nat (ChkIdx ptr))) eqn:E;
    [|discriminate].
  rewrite nth_error_app1.
  - rewrite E. exact H.
  - apply nth_error_Some. rewrite E. discriminate.
Qed.

(** ** The bucket scan of [checkHasDup] *)

(** A row is only reported as a duplicate when a pointer of the scanned
    bucket resolves to a row equal to it. *)
Lemma checkPtrs_true (row : Row) (cur : option Chunk) (st : Storage)
      (ptrs : list RowPtr) :
  checkPtrs row cur st ptrs = Ok true ->
  exists ptr, In ptr ptrs /\ resolvePtr cur st ptr = Some row.
Proof.
  induction ptrs as [|ptr rest IH]; simpl; [discriminate|].
  fold (resolvePtr cur st ptr).
  destruct (resolvePtr cur st ptr) as [m|] eqn:E; simpl; [|discriminate].
  destruct (row_eqb row m) eqn:Eq.
  - intros _. apply row_eqb_true in Eq. subst m.
    exists ptr. split; [left; reflexivity | exact E].
  - intros H. destruct (IH H) as [q [Hin Hq]].
    exists q. split; [right; exact Hin | exact Hq].
Qed.

(** When every pointer of the bucket resolves, the scan does not fault and
    reports whether one of them resolves to an equal row. *)
Lemma checkPtrs_total (row : Row) (cur : option Chunk) (st : Storage)
      (ptrs : list RowPtr) :
  (forall ptr, In ptr ptrs -> resolvePtr cur st ptr <> None) ->
  exists b, checkPtrs row cur st ptrs = Ok b /\
    (b = true <-> exists ptr, In ptr ptrs /\ resolvePtr cur st ptr = Some row).
Proof.
  induction ptrs as [|ptr rest IH]; intros Hall; simpl.
  - exists false. split; [reflexivity|]. split; [discriminate|].
    intros [q [[] _]].
  - fold (resolvePtr cur st ptr).
    destruct (resolvePtr cur st ptr) as [m|] eqn:E;
      [|exfalso; apply (Hall ptr); [left; reflexivity | exact E]].
    simpl. destruct (row_eqb row m) eqn:Eq.
    + apply row_eqb_true in Eq. subst m. exists true.
      split; [reflexivity|]. split; [|reflexivity].
      intros _. exists ptr. split; [left; reflexivity | exact E].
    + destruct IH as [b [Hb Hiff]].
      { intros q Hq. apply Hall. right. exact Hq. }
      exists b. split; [exact Hb|]. rewrite Hiff. split.
      * intros [q [Hin Hq]]. exists q. split; [right; exact Hin | exact Hq].
      * intros [q [[Hq0|Hin] Hq]].
        -- subst q. rewrite E in Hq. inversion Hq; subst m.
           rewrite row_eqb_refl in Eq. discriminate.
        -- exists q. split; assumption.
Qed.

Lemma map_add_seq (n k a : nat) :
  map (fun i => (i + n)%nat) (seq a k) = seq (a + n) k.
Proof.
  revert a. induction k as [|k IH]; intros a; simpl; [reflexivity|].
  f_equal. apply (IH (S a)).
Qed.

Lemma growSel_seq (n m : nat) : growSel (seq 0 n) m = seq 0 (Nat.max n m).
Proof.
  unfold growSel. rewrite length_seq.
  destruct (Nat.ltb n m) eqn:E.
  - apply Nat.ltb_lt in E.
    replace (Nat.max n m) with (n + (m - n))%nat by lia.
    rewrite seq_app. f_equal. apply map_add_seq.
  - apply Nat.ltb_ge in E. f_equal. lia.
Qed.

Lemma nth_error_seq0 (n i : nat) :
  (i < n)%nat -> nth_error (seq 0 n) i = Some i.
Proof.
  intros H. rewrite nth_error_nth' with (d := O) by (rewrite length_seq; lia).
  rewrite seq_nth by lia. reflexivity.
Qed.

(** ** Hash collisions inside one incoming chunk *)

(** Two different rows with the same hash, arriving in one chunk: stage 3
    registers the first row under a pointer into the batch that the table
    does not hold yet, and the bucket scan for the second row resolves that
    pointer in the table. *)
Lemma collision_in_chunk_faults (hashRow : Row -> Z) (r1 r2 : Row) (n : nat)
      (st : Storage) (h : baseHashTable) :
  r1 <> r2 ->
  hashRow r1 = hashRow r2 ->
  htGet h (hashRow r1) = [] ->
  (N.of_nat (NumChunks st) < 2 ^ 32)%N ->
  deduplicate hashRow (seq 0 n) (mkChunk [r1; r2] None) st (Some h)
  = Err ErrPanic.
Proof.
  intros Hne Hh Hget Hsz.
  assert (Hr21 : row_eqb r2 r1 = false).
  { destruct (row_eqb r2 r1) eqn:E; [|reflexivity].
    apply row_eqb_true in E. congruence. }
  unfold deduplicate, computeChunkHash. simpl NumRows. simpl Nat.eqb.
  cbv iota. simpl chkSel. cbv iota. rewrite growSel_seq.
  unfold hashValsOf. simpl chkSel. simpl chkRows. cbv iota. simpl map.
  simpl seq at 2.
  unfold dedupInChunk.
  change (NumRows (mkChunk [r1; r2] None)) with 2%nat.
  rewrite (nth_error_seq0 (Nat.max n 2) 0) by lia.
  rewrite (nth_error_seq0 (Nat.max n 2) 1) by lia.
  simpl. rewrite Hh in Hget |- *.
  unfold checkHasDup at 1. rewrite htGet_htPut.
  change (htGet newConcurrentMapHashTable (hashRow r2)) with (@nil RowPtr).
  rewrite Z.eqb_refl. simpl. rewrite Hr21. simpl.
  unfold checkHasDup at 1. rewrite Hget. simpl.
  unfold checkHasDup. rewrite htGet_htPut.
  rewrite Hget, Z.eqb_refl. simpl.
  unfold stGetRow. simpl ChkIdx.
  rewrite u32_small by exact Hsz.
  assert (E : nth_error (stChunks st) (NumChunks st) = None).
  { apply nth_error_None. unfold NumChunks. lia. }
  rewrite E. reflexivity.
Qed.

(** Two different rows with the same hash that arrive in two different
    chunks are both kept: the row of the second chunk is compared with the
    row the table already holds. *)
Example collision_across_chunks_kept :
  exists st1 h1 ps1,
    tryDedupAndAdd firstColumnHash true [0; 1]%nat
      (mkChunk [[1; 10]] None) emptyStorage (Some newConcurrentMapHashTable)
    = Ok (mkChunk [[1; 10]] (Some [0%nat]), st1, h1, ps1) /\
    exists c2 st2 h2 ps2,
      tryDedupAndAdd firstColumnHash true ps1 (mkChunk [[1; 20]] None) st1 h1
      = Ok (c2, st2, h2, ps2) /\
      stRows st2 = [[1; 10]; [1; 20]].
Proof.
  do 3 eexists. split; [vm_compute; reflexivity|].
  do 4 eexists. split; vm_compute; reflexivity.
Qed.

(** C4 (evaluation at the failing input).  Collision safety asks that two
    different rows with the same hash are both kept.  For the chunk
    [[1;10]; [1;20]] under a hash that collides on them, inserted in
    DISTINCT mode into an empty table, [deduplicate] ends in a fault instead
    of keeping both rows, and so does [tryDedupAndAdd]. *)
Theorem collision_in_one_chunk_is_a_fault :
  [1; 10] <> [1; 20] /\
  firstColumnHash [1; 10] = firstColumnHash [1; 20] /\
  deduplicate firstColumnHash [0; 1]%nat (mkChunk [[1; 10]; [1; 20]] None)
    emptyStorage (Some newConcurrentMapHashTable) = Err ErrPanic /\
  tryDedupAndAdd firstColumnHash true [0; 1]%nat
    (mkChunk [[1; 10]; [1; 20]] None)
    emptyStorage (Some newConcurrentMapHashTable) = Err ErrPanic.
Proof.
  split; [discriminate|]. split; [reflexivity|].
  assert (H : deduplicate firstColumnHash [0; 1]%nat
                (mkChunk [[1; 10]; [1; 20]] None)
                emptyStorage (Some newConcurrentMapHashTable) = Err ErrPanic).
  { apply (@collision_in_chunk_faults firstColumnHash [1; 10] [1; 20] 2
             emptyStorage newConcurrentMapHashTable).
    - discriminate.
    - reflexivity.
    - reflexivity.
    - vm_compute. reflexivity. }
  split; [exact H|]. unfold tryDedupAndAdd. rewrite H. reflexivity.
Qed.

(** ** Sticky errors of [produce] *)

Ltac break_match :=
  match goal with
  | |- context [match ?x with _ => _ end] => destruct x eqn:?
  | H : context [match ?x with _ => _ end] |- _ => destruct x eqn:?
  end.

(** C6.  Every error [produce] returns is the sticky error of [resTbl] when
    it returns; and [produce] on a table whose error is set returns that
    error at once, leaving the producer, and so both sub-plans and all
    tables, as they are. *)
Theorem produce_error_latched (hashRow : Row -> Z) :
  (forall fuel p e p',
      produce hashRow fuel p = Some (Err e, p') ->
      stErr (resTbl p') = Some e) /\
  (forall fuel p e,
      stErr (resTbl p) = Some e ->
      produce hashRow fuel p = Some (Err e, p)).
Proof.
  split.
  - intros fuel p e p' H. unfold produce in H.
    destruct (stErr (resTbl p)) as [e0|] eqn:E0.
    + inversion H; subst. exact E0.
    + destruct (computeSeedPart hashRow fuel p) as [[[[]|e1] p1]|];
        [|inversion H; subst; reflexivity|discriminate].
      destruct (computeRecursivePart hashRow fuel p1) as [[[[]|e2] p2]|];
        [discriminate|inversion H; subst; reflexivity|discriminate].
  - intros fuel p e H. unfold produce. rewrite H. reflexivity.
Qed.

Lemma produce_error_latched_witness :
  exists p',
    produce firstColumnHash 5
      (producerOf (Some brokenNextExec) None false 10)
    = Some (Err (ErrSubPlan 7), p') /\
    stErr (resTbl p') = Some (ErrSubPlan 7) /\
    produce firstColumnHash 5 p' = Some (Err (ErrSubPlan 7), p').
Proof.
  destruct (produce_error_latched firstColumnHash) as [A B].
  eexists. split; [vm_compute; reflexivity|]. split.
  - apply (A 5%nat (producerOf (Some brokenNextExec) None false 10)).
    vm_compute. reflexivity.
  - apply B. vm_compute. reflexivity.
Defined.

(** ** Opening the producer *)

Lemma checkCodes_unchanged (HashCode : Z -> list Z) (cols : list Z) :
  forall codes codes',
    checkCodes HashCode cols codes = Some (false, codes') -> codes' = codes.
Proof.
  induction cols as [|c cols IH]; intros codes codes' H; simpl in H.
  - inversion H. reflexivity.
  - destruct codes as [|old rest]; [discriminate|].
    destruct (checkCodes HashCode cols rest) as [[ch r]|] eqn:E;
      [|discriminate].
    destruct (codes_eqb (HashCode c) old); [|discriminate].
    inversion H; subst. f_equal. apply IH. exact E.
Qed.

Lemma setCorColHashCodes_same (p : cteProducer) :
  setCorColHashCodes p (corColHashCodes p) = p.
Proof. destruct p; reflexivity. Qed.

Lemma openProducer_keeps (p : cteProducer) (r : option error)
      (p' : cteProducer) :
  openProducer p = (r, p') ->
  curIter p' = curIter p /\ resTbl p' = resTbl p /\
  iterInTbl p' = iterInTbl p /\ produced p' = produced p /\
  closed p' = closed p /\ openErr p' = r /\
  opened p' = (match r with None => true | Some _ => false end).
Proof.
  unfold openProducer, openProducerBody. intros H.
  repeat break_match; inversion H; subst; simpl;
    repeat split; try reflexivity;
    repeat match goal with
           | E : (_, _) = (_, _) |- _ => inversion E; clear E; subst
           end; simpl; try reflexivity; try congruence.
Qed.

(** C7.  A failing [openProducer] leaves [openErr] set to its error and
    [opened] false; an [Open] of any consumer of that producer, the
    fingerprints being unchanged, then returns the same error and leaves the
    producer as it is: [openProducer] is not run again and no sub-plan is
    opened. *)
Theorem openProducer_failure_sticky (HashCode : Z -> list Z)
        (p : cteProducer) (err : error) (p' : cteProducer) :
  openProducer p = (Some err, p') ->
  openErr p' = Some err /\ opened p' = false /\
  forall e codes,
    childOpenErr e = None ->
    checkCodes HashCode (corCols p') (corColHashCodes p')
    = Some (false, codes) ->
    Open HashCode e p' = (Err err, resetExec e, p').
Proof.
  intros H. apply openProducer_keeps in H.
  destruct H as (_ & _ & _ & _ & _ & Herr & Hop).
  split; [exact Herr|]. split; [exact Hop|].
  intros e codes He Hc. unfold Open. simpl childOpenErr. rewrite He.
  unfold checkAndUpdateCorColHashCode. rewrite Hc.
  apply checkCodes_unchanged in Hc. subst codes.
  rewrite setCorColHashCodes_same. rewrite Herr. reflexivity.
Qed.

Lemma openProducer_failure_sticky_witness :
  exists p',
    openProducer (producerOf (Some brokenOpenExec) None true 10)
    = (Some (ErrSubPlan 3), p') /\
    openErr p' = Some (ErrSubPlan 3) /\ opened p' = false /\
    Open unitHashCode freshExec p'
    = (Err (ErrSubPlan 3), resetExec freshExec, p') /\
    openProducer (producerOf None None true 10)
    = (Some ErrSeedExecNil,
       setOpen (producerOf None None true 10) false (Some ErrSeedExecNil)).
Proof.
  eexists. split; [vm_compute; reflexivity|].
  destruct (@openProducer_failure_sticky unitHashCode
              (producerOf (Some brokenOpenExec) None true 10)
              (ErrSubPlan 3) _ eq_refl) as (A & B & C).
  split; [exact A|]. split; [exact B|]. split.
  - apply (C freshExec []); reflexivity.
  - reflexivity.
Defined.

(** ** Correlated columns: reset on a changed fingerprint *)

Lemma Open_unfold (HashCode : Z -> list Z) (e : CTEExec) (p : cteProducer)
      (changed : bool) (p1 : cteProducer) :
  childOpenErr e = None ->
  checkAndUpdateCorColHashCode HashCode p = Some (changed, p1) ->
  Open HashCode e p =
  openAfterCheck (resetExec e) (if changed then reopenTbls (reset p1) else p1).
Proof.
  intros He Hc. unfold Open, openAfterCheck. simpl childOpenErr.
  rewrite He, Hc. reflexivity.
Qed.

Lemma openAfterCheck_keeps (e : CTEExec) (p : cteProducer)
      (r : result unit) (e' : CTEExec) (p' : cteProducer) :
  openAfterCheck e p = (r, e', p') ->
  curIter p' = curIter p /\ resTbl p' = resTbl p /\
  iterInTbl p' = iterInTbl p /\ produced p' = produced p /\
  closed p' = closed p /\
  (opened p = true \/ openErr p <> None -> p' = p).
Proof.
  unfold openAfterCheck. intros H.
  destruct (openErr p) as [err|] eqn:Eerr.
  - inversion H; subst. repeat split; reflexivity.
  - destruct (opened p) eqn:Eop; simpl in H.
    + inversion H; subst. repeat split; reflexivity.
    + destruct (openProducer p) as [[err|] q] eqn:Eq;
        inversion H; subst;
        apply openProducer_keeps in Eq;
        destruct Eq as (A & B & C & D & E & _);
        (repeat split; try assumption);
        intros [F|F]; congruence.
Qed.

(** C8.  On [Open], a changed fingerprint makes the producer continue from
    the fully reset state: iteration counter 0, the flags [opened],
    [produced], [closed] and [openErr] cleared, a fresh hash index in
    DISTINCT mode, [resTbl] and [iterInTbl] reopened and empty.  With
    unchanged fingerprints there is no reset and no reopening: the counter,
    both tables and the flags [produced] and [closed] are as before, and a
    producer that is already opened (or has failed to open) is left as it
    is, hash index included. *)
Theorem Open_resets_iff_fingerprint_changed (HashCode : Z -> list Z)
        (e : CTEExec) (p : cteProducer) (changed : bool) (p1 : cteProducer) :
  childOpenErr e = None ->
  checkAndUpdateCorColHashCode HashCode p = Some (changed, p1) ->
  (changed = true ->
   let p2 := reopenTbls (reset p1) in
   Open HashCode e p = openAfterCheck (resetExec e) p2 /\
   curIter p2 = 0 /\ opened p2 = false /\ produced p2 = false /\
   closed p2 = false /\ openErr p2 = None /\
   (isDistinct p = true -> hashTbl p2 = Some newConcurrentMapHashTable) /\
   stChunks (resTbl p2) = [] /\ stChunks (iterInTbl p2) = [] /\
   stDone (resTbl p2) = false /\ stErr (resTbl p2) = None) /\
  (changed = false ->
   p1 = p /\
   forall r e' p',
     Open HashCode e p = (r, e', p') ->
     curIter p' = curIter p /\ resTbl p' = resTbl p /\
     iterInTbl p' = iterInTbl p /\ produced p' = produced p /\
     closed p' = closed p /\
     (opened p = true \/ openErr p <> None -> p' = p)).
Proof.
  intros He Hc. split; intros Hch; subst changed.
  - rewrite (Open_unfold HashCode e p true p1 He Hc). cbv zeta.
    split; [reflexivity|].
    unfold checkAndUpdateCorColHashCode in Hc.
    destruct (checkCodes HashCode (corCols p) (corColHashCodes p))
      as [[ch codes]|]; [|discriminate].
    inversion Hc; subst. unfold reopenTbls, reset. simpl.
    destruct (isDistinct p); simpl; repeat split; try reflexivity;
      intros; congruence.
  - assert (p1 = p).
    { unfold checkAndUpdateCorColHashCode in Hc.
      destruct (checkCodes HashCode (corCols p) (corColHashCodes p))
        as [[ch codes]|] eqn:E; [|discriminate].
      inversion Hc; subst. apply checkCodes_unchanged in E. subst codes.
      apply setCorColHashCodes_same. }
    subst p1. split; [reflexivity|].
    intros r e' p' HO. rewrite (Open_unfold HashCode e p false p He Hc) in HO.
    apply (openAfterCheck_keeps _ _ _ _ _ HO).
Qed.

Lemma Open_resets_iff_fingerprint_changed_witness :
  (let p2 := reopenTbls (reset (setCorColHashCodes (finishedProducer 5)
                                  [unitHashCode 5])) in
   Open unitHashCode freshExec (finishedProducer 5)
   = openAfterCheck (resetExec freshExec) p2 /\
   curIter p2 = 0 /\ hashTbl p2 = Some newConcurrentMapHashTable /\
   stChunks (resTbl p2) = [] /\ stChunks (iterInTbl p2) = []) /\
  (forall r e' p',
      Open unitHashCode freshExec (finishedProducer 1) = (r, e', p') ->
      p' = finishedProducer 1).
Proof.
  split.
  - destruct (@Open_resets_iff_fingerprint_changed unitHashCode freshExec
                (finishedProducer 5) true
                (setCorColHashCodes (finishedProducer 5) [unitHashCode 5])
                eq_refl eq_refl) as [A _].
    destruct (A eq_refl) as (A1 & A2 & _ & _ & _ & _ & A3 & A4 & A5 & _).
    cbv zeta. split; [exact A1|]. split; [exact A2|].
    split; [apply A3; reflexivity|]. split; [exact A4 | exact A5].
  - intros r e' p' H.
    destruct (@Open_resets_iff_fingerprint_changed unitHashCode freshExec
                (finishedProducer 1) false (finishedProducer 1)
                eq_refl eq_refl) as [_ B].
    destruct (B eq_refl) as [_ B1].
    destruct (B1 r e' p' H) as (_ & _ & _ & _ & _ & B2).
    apply B2. left. reflexivity.
Defined.

(** ** Limit-aware retrieval *)

Lemma length_logicalRows_wf (c : Chunk) :
  wfChunk c -> length (logicalRows c) = NumRows c.
Proof.
  unfold wfChunk, logicalRows, NumRows. destruct (chkSel c) as [s|];
    [|reflexivity].
  induction s as [|j s IH]; intros H; [reflexivity|].
  inversion H as [|? ? Hj Hs]; subst. simpl.
  destruct (nth_error (chkRows c) j) eqn:E.
  - simpl. f_equal. apply IH. exact Hs.
  - apply nth_error_None in E. lia.
Qed.

Lemma u64_small (z : Z) : 0 <= z < 2 ^ 64 -> u64 z = z.
Proof. intros H. unfold u64. apply Z.mod_small. exact H. Qed.

Lemma toInt_small (z : Z) : 0 <= z < 2 ^ 63 -> toInt z = z.
Proof.
  intros H. unfold toInt. destruct (z <? 2 ^ 63) eqn:E; [reflexivity|].
  apply Z.ltb_ge in E. lia.
Qed.

Lemma chunkAppend_ok (rows : list Row) (b e : nat) :
  (b <= e <= length rows)%nat ->
  chunkAppend rows (Z.of_nat b) (Z.of_nat e)
  = Ok (firstn (e - b) (skipn b rows)).
Proof.
  intros H. unfold chunkAppend.
  replace ((0 <=? Z.of_nat b) && (Z.of_nat b <=? Z.of_nat e)
           && (Z.of_nat e <=? Z.of_nat (length rows))) with true.
  - rewrite <- Nat2Z.inj_sub by lia. rewrite !Nat2Z.id. reflexivity.
  - symmetry. rewrite !andb_true_iff. repeat split; apply Z.leb_le; lia.
Qed.

Lemma Rem_cons (p : cteProducer) (e : CTEExec) (ch : Chunk)
      (rest : list Chunk) :
  Rem p e (ch :: rest) ->
  stGetChunk (resTbl p) (chkIdx e) = Ok ch /\
  (chkIdx e < NumChunks (resTbl p))%nat /\
  forall e', chkIdx e' = S (chkIdx e) -> Rem p e' rest.
Proof.
  unfold Rem, stGetChunk, NumChunks. intros [Hs Hle].
  set (l := stChunks (resTbl p)) in *.
  assert (Hlt : (chkIdx e < length l)%nat).
  { destruct (Nat.lt_ge_cases (chkIdx e) (length l)) as [H|H]; [exact H|].
    rewrite skipn_all2 in Hs by exact H. discriminate. }
  assert (Hnth : nth_error l (chkIdx e) = Some ch).
  { rewrite <- (firstn_skipn (chkIdx e) l) at 1.
    rewrite nth_error_app2 by (rewrite length_firstn; lia).
    rewrite length_firstn, Nat.min_l by lia.
    rewrite Nat.sub_diag, Hs. reflexivity. }
  split; [rewrite Hnth; reflexivity|]. split; [exact Hlt|].
  intros e' He'. rewrite He'. split; [|lia].
  replace (S (chkIdx e)) with (1 + chkIdx e)%nat by lia.
  rewrite <- skipn_skipn, Hs. reflexivity.
Qed.

Lemma Rem_nil (p : cteProducer) (e : CTEExec) :
  Rem p e [] -> Nat.ltb (chkIdx e) (NumChunks (resTbl p)) = false.
Proof.
  unfold Rem, NumChunks. intros [Hs Hle]. apply Nat.ltb_ge.
  destruct (Nat.lt_ge_cases (chkIdx e) (length (stChunks (resTbl p))))
    as [H|H]; [|exact H].
  assert (L : length (skipn (chkIdx e) (stChunks (resTbl p))) = 0%nat)
    by (rewrite Hs; reflexivity).
  rewrite length_skipn in L. lia.
Qed.

Section LimitFacts.

Variable p : cteProducer.
Variables B E : nat.
Hypothesis HB : limitBeg p = Z.of_nat B.
Hypothesis HE : limitEnd p = Z.of_nat E.
Hypothesis HBE : (B <= E)%nat.
Hypothesis HE64 : Z.of_nat E < 2 ^ 64.

Lemma met_step (ch : Chunk) (rest : list Chunk) (c : nat) (e : CTEExec) :
  MetSt p B E c (ch :: rest) e ->
  (c < E)%nat ->
  wfChunk ch ->
  Z.of_nat (c + length (logicalRows ch)) < 2 ^ 63 ->
  exists e',
    nextChunkAfterFirst p e
    = (Ok (firstn (E - c) (logicalRows ch)), e') /\
    MetSt p B E (c + length (logicalRows ch)) rest e'.
Proof.
  intros (Hm & Hc & HBc & HR) HcE Hwf Hbound.
  destruct (Rem_cons p e ch rest HR) as (Hg & Hlt & Hrest).
  unfold nextChunkAfterFirst.
  apply Nat.ltb_lt in Hlt. rewrite Hlt, Hg. clear Hlt.
  rewrite Nat.min_l in Hc by lia.
  replace (cursor e <? limitEnd p) with true
    by (symmetry; apply Z.ltb_lt; lia).
  cbn [andb]. cbv zeta. simpl cursor.
  rewrite <- (length_logicalRows_wf ch Hwf).
  set (m := length (logicalRows ch)) in *.
  rewrite (u64_small (Z.of_nat m)) by lia.
  rewrite Hc, HE.
  rewrite (u64_small (Z.of_nat c + Z.of_nat m)) by lia.
  destruct (Z.of_nat c + Z.of_nat m >? Z.of_nat E) eqn:Ecmp.
  - apply Z.gtb_lt in Ecmp.
    rewrite (u64_small (Z.of_nat E - Z.of_nat c)) by lia.
    rewrite toInt_small by lia.
    replace (Z.of_nat E - Z.of_nat c) with (Z.of_nat (E - c)) by lia.
    change 0 with (Z.of_nat 0).
    unfold CopyConstructSel, logicalRows at 1. simpl chkSel. cbv iota.
    simpl chkRows.
    rewrite chunkAppend_ok by (fold m; lia).
    rewrite Nat.sub_0_r. simpl skipn.
    eexists. split; [reflexivity|].
    split; [exact Hm|]. split; [|split; [lia | apply Hrest; reflexivity]].
    simpl. rewrite u64_small by lia. lia.
  - assert (Hle : Z.of_nat c + Z.of_nat m <= Z.of_nat E).
    { destruct (Z.gtb_spec (Z.of_nat c + Z.of_nat m) (Z.of_nat E));
        [discriminate | assumption]. }
    unfold CopyConstructSel, logicalRows at 1. simpl chkSel. cbv iota.
    simpl chkRows.
    rewrite firstn_all2 by (fold m; lia).
    eexists. split; [reflexivity|].
    split; [exact Hm|]. split; [|split; [lia | apply Hrest; reflexivity]].
    simpl. lia.
Qed.

Hypothesis HL : hasLimit p = true.

Lemma met_stuck (rem : list Chunk) (c : nat) (e : CTEExec) :
  MetSt p B E c rem e ->
  rem = [] \/ (E <= c)%nat ->
  nextChunkAfterFirst p e = (Ok [], e).
Proof.
  intros (Hm & Hc & HBc & HR) [Hnil|HEc]; unfold nextChunkAfterFirst.
  - subst rem. rewrite (Rem_nil p e HR). reflexivity.
  - replace (cursor e <? limitEnd p) with false.
    + rewrite andb_false_r. reflexivity.
    + symmetry. apply Z.ltb_ge. lia.
Qed.

Lemma drain_stuck (e : CTEExec) :
  nextChunkLimit p e = (Ok [], e) ->
  forall n, drainChunks n p e = Ok [].
Proof.
  intros H n. induction n as [|n IH]; [reflexivity|].
  simpl. unfold getChunk. rewrite HL, H, IH. reflexivity.
Qed.

Lemma nextChunkLimit_met (e : CTEExec) :
  meetFirstBatch e = true ->
  nextChunkLimit p e = nextChunkAfterFirst p e.
Proof. intros H. unfold nextChunkLimit. rewrite H. reflexivity. Qed.

Lemma sliceFrom_met (c : nat) (rows : list Row) :
  (B <= c)%nat -> sliceFrom B E c rows = firstn (E - c) rows.
Proof.
  intros H. unfold sliceFrom. rewrite Nat.max_r by lia.
  rewrite Nat.sub_diag. reflexivity.
Qed.

Lemma met_drain (rem : list Chunk) :
  forall c e n,
    MetSt p B E c rem e ->
    Forall wfChunk rem ->
    Z.of_nat (c + length (rowsOf rem)) < 2 ^ 63 ->
    (length rem <= n)%nat ->
    drainChunks n p e = Ok (sliceFrom B E c (rowsOf rem)).
Proof.
  induction rem as [|ch rest IH]; intros c e n HM Hwf Hbound Hn.
  - rewrite (drain_stuck e).
    + unfold sliceFrom. simpl. rewrite skipn_nil, firstn_nil. reflexivity.
    + rewrite (nextChunkLimit_met e (proj1 HM)).
      apply (met_stuck [] c e HM). left. reflexivity.
  - assert (HBc : (B <= c)%nat) by (destruct HM as (_ & _ & H & _); exact H).
    rewrite (sliceFrom_met c _ HBc).
    destruct (Nat.le_gt_cases E c) as [HEc|HcE].
    + rewrite (drain_stuck e).
      * replace (E - c)%nat with 0%nat by lia. reflexivity.
      * rewrite (nextChunkLimit_met e (proj1 HM)).
        apply (met_stuck (ch :: rest) c e HM). right. exact HEc.
    + inversion Hwf as [|? ? Hch Hrest]; subst.
      simpl rowsOf in Hbound |- *. rewrite length_app in Hbound.
      destruct (met_step ch rest c e HM HcE Hch) as (e' & Hstep & HM');
        [lia|].
      destruct n as [|n]; [simpl in Hn; lia|].
      simpl drainChunks. unfold getChunk. rewrite HL.
      rewrite (nextChunkLimit_met e (proj1 HM)), Hstep.
      rewrite (IH _ e' n HM' Hrest); [|lia|simpl in Hn; lia].
      rewrite sliceFrom_met by lia.
      rewrite firstn_app. do 3 f_equal. lia.
Qed.

Lemma slice_split (c m : nat) (X R : list Row) :
  length X = m -> (c <= B)%nat -> (B <= c + m)%nat ->
  firstn (E - B) (skipn (B - c) (X ++ R))
  = firstn (Nat.min m (E - c) - (B - c)) (skipn (B - c) X)
    ++ firstn (E - (c + m)) R.
Proof.
  intros HX HcB HBcm.
  rewrite skipn_app, firstn_app, length_skipn, HX.
  replace (B - c - m)%nat with 0%nat by lia. simpl skipn.
  f_equal.
  - destruct (Nat.le_gt_cases m (E - c)) as [H|H].
    + rewrite Nat.min_l by lia.
      rewrite !firstn_all2; [reflexivity| |]; rewrite length_skipn; lia.
    + rewrite Nat.min_r by lia. f_equal. lia.
  - f_equal. lia.
Qed.

Lemma scan_spec (rem : list Chunk) :
  forall c e,
    UnmetSt p B c rem e ->
    Forall wfChunk rem ->
    Z.of_nat (c + length (rowsOf rem)) < 2 ^ 63 ->
    (exists out e' c' rest,
        ((scanFirstBatch (limitBeg p) (limitEnd p) rem e = inl (Ok out, e')
          /\ out <> [])
         \/ (scanFirstBatch (limitBeg p) (limitEnd p) rem e = inr e'
             /\ out = [])) /\
        MetSt p B E c' rest e' /\
        (length rest < length rem)%nat /\
        sliceFrom B E c (rowsOf rem)
        = out ++ sliceFrom B E c' (rowsOf rest) /\
        Forall wfChunk rest /\
        Z.of_nat (c' + length (rowsOf rest)) < 2 ^ 63 /\
        exists pre, rem = pre ++ rest)
    \/ (exists e' c',
           scanFirstBatch (limitBeg p) (limitEnd p) rem e = inr e' /\
           UnmetSt p B c' [] e' /\
           sliceFrom B E c (rowsOf rem) = []).
Proof.
  rewrite HB, HE.
  induction rem as [|ch rest IH]; intros c e HU Hwf Hbound.
  - right. exists e, c. split; [reflexivity|]. split; [exact HU|].
    unfold sliceFrom. simpl. rewrite skipn_nil, firstn_nil. reflexivity.
  - destruct HU as (Hm & Hc & HcB & HR).
    destruct (Rem_cons p e ch rest HR) as (_ & _ & Hrest).
    inversion Hwf as [|? ? Hch Hwfr]; subst.
    simpl rowsOf in Hbound |- *. rewrite length_app in Hbound.
    pose proof (length_logicalRows_wf ch Hch) as Hlen.
    set (X := logicalRows ch) in *. set (m := length X) in *.
    simpl scanFirstBatch. rewrite <- Hlen. rewrite Hc.
    rewrite (u64_small (Z.of_nat m)) by lia.
    rewrite (u64_small (Z.of_nat c + Z.of_nat m)) by lia.
    destruct (Z.of_nat c + Z.of_nat m >=? Z.of_nat B) eqn:Eq1.
    + (* the batch reaches [limitBeg] *)
      assert (HBcm : (B <= c + m)%nat).
      { destruct (Z.geb_spec (Z.of_nat c + Z.of_nat m) (Z.of_nat B));
          [lia | discriminate]. }
      left.
      rewrite (u64_small (Z.of_nat B - Z.of_nat c)) by lia.
      set (endZ := if Z.of_nat c + Z.of_nat m >? Z.of_nat E
                   then u64 (Z.of_nat E - Z.of_nat c) else Z.of_nat m).
      assert (HendZ : endZ = Z.of_nat (Nat.min m (E - c))).
      { unfold endZ.
        destruct (Z.gtb_spec (Z.of_nat c + Z.of_nat m) (Z.of_nat E)).
        - rewrite u64_small by lia. lia.
        - lia. }
      rewrite HendZ.
      rewrite (u64_small (Z.of_nat c + Z.of_nat (Nat.min m (E - c))))
        by lia.
      set (e' := withCursor
                   (withMeetFirstBatch (withChkIdx e (S (chkIdx e))) true)
                   (Z.of_nat c + Z.of_nat (Nat.min m (E - c)))).
      assert (HM' : MetSt p B E (c + m) rest e').
      { split; [reflexivity|]. split; [simpl; lia|].
        split; [lia|]. apply Hrest. reflexivity. }
      assert (Hslice :
                sliceFrom B E c (X ++ rowsOf rest)
                = firstn (Nat.min m (E - c) - (B - c)) (skipn (B - c) X)
                    ++ sliceFrom B E (c + m) (rowsOf rest)).
      { rewrite (sliceFrom_met (c + m)) by lia.
        unfold sliceFrom. rewrite Nat.max_l by lia.
        apply slice_split; [reflexivity | lia | lia]. }
      destruct (Z.of_nat B - Z.of_nat c =? Z.of_nat (Nat.min m (E - c)))
        eqn:Eq2.
      * apply Z.eqb_eq in Eq2.
        exists [], e', (c + m)%nat, rest.
        split; [right; split; reflexivity|]. split; [exact HM'|].
        split; [simpl; lia|].
        split; [|split; [exact Hwfr|split; [lia|exists [ch]; reflexivity]]].
        rewrite Hslice.
        replace (Nat.min m (E - c) - (B - c))%nat with 0%nat by lia.
        reflexivity.
      * apply Z.eqb_neq in Eq2.
        exists (firstn (Nat.min m (E - c) - (B - c)) (skipn (B - c) X)),
          e', (c + m)%nat, rest.
        split.
        { left. split.
          - do 2 f_equal.
            rewrite !toInt_small by lia.
            replace (Z.of_nat B - Z.of_nat c) with (Z.of_nat (B - c))
              by lia.
            unfold CopyConstructSel, logicalRows at 1. simpl chkSel.
            cbv iota. simpl chkRows. fold X.
            apply chunkAppend_ok. fold m. lia.
          - intros Hnil. apply (f_equal (@length Row)) in Hnil.
            rewrite length_firstn, length_skipn in Hnil. fold m in Hnil.
            simpl in Hnil. lia. }
        split; [exact HM'|]. split; [simpl; lia|].
        split; [exact Hslice|]. split; [exact Hwfr|].
        split; [lia | exists [ch]; reflexivity].
    + (* the batch ends before [limitBeg] *)
      assert (HcmB : (c + m < B)%nat).
      { destruct (Z.geb_spec (Z.of_nat c + Z.of_nat m) (Z.of_nat B));
          [discriminate | lia]. }
      set (e1 := withCursor (withChkIdx e (S (chkIdx e)))
                   (Z.of_nat c + Z.of_nat m)).
      assert (HU1 : UnmetSt p B (c + m) rest e1).
      { split; [exact Hm|]. split; [simpl; lia|].
        split; [lia|]. apply Hrest. reflexivity. }
      assert (Hslice : sliceFrom B E c (X ++ rowsOf rest)
                       = sliceFrom B E (c + m) (rowsOf rest)).
      { unfold sliceFrom. rewrite !Nat.max_l by lia.
        rewrite skipn_app. rewrite skipn_all2 by (fold m; lia).
        fold m. simpl app. do 2 f_equal. lia. }
      destruct (IH (c + m)%nat e1 HU1 Hwfr) as
        [(out & e' & c' & rest' & Hs & HM' & Hl & Hsl & Hw & Hb & pre & Hp)
        |(e' & c' & Hs & HU' & Hsl)]; [lia| |].
      * left. exists out, e', c', rest'.
        split; [exact Hs|]. split; [exact HM'|]. split; [simpl; lia|].
        split; [rewrite Hslice; exact Hsl|]. split; [exact Hw|].
        split; [exact Hb|]. exists (ch :: pre). rewrite Hp. reflexivity.
      * right. exists e', c'. split; [exact Hs|]. split; [exact HU'|].
        rewrite Hslice. exact Hsl.
Qed.

Lemma unmet_end_stuck (c : nat) (e : CTEExec) :
  UnmetSt p B c [] e -> nextChunkLimit p e = (Ok [], e).
Proof.
  intros (Hm & _ & _ & HR). unfold nextChunkLimit. rewrite Hm.
  rewrite (proj1 HR). simpl. unfold nextChunkAfterFirst.
  rewrite (Rem_nil p e HR). reflexivity.
Qed.

Lemma unmet_drain (rem : list Chunk) (c : nat) (e : CTEExec) (n : nat) :
  UnmetSt p B c rem e ->
  Forall wfChunk rem ->
  Z.of_nat (c + length (rowsOf rem)) < 2 ^ 63 ->
  (length rem <= n)%nat ->
  drainChunks n p e = Ok (sliceFrom B E c (rowsOf rem)).
Proof.
  intros HU Hwf Hbound Hn.
  destruct n as [|n].
  - destruct rem; [|simpl in Hn; lia].
    unfold sliceFrom. simpl. rewrite skipn_nil, firstn_nil. reflexivity.
  - assert (Hm : meetFirstBatch e = false) by apply HU.
    assert (Hsk : skipn (chkIdx e) (stChunks (resTbl p)) = rem)
      by apply HU.
    destruct (scan_spec rem c e HU Hwf Hbound) as
      [(out & e' & c' & rest & [[Hs _]|[Hs Hout]] & HM' & Hl & Hsl & Hw
        & Hb & _)
      |(e' & c' & Hs & HU' & Hsl)].
    + simpl. unfold getChunk, nextChunkLimit. rewrite HL, Hm, Hsk, Hs.
      rewrite (met_drain rest c' e' n HM' Hw Hb) by lia.
      rewrite Hsl. reflexivity.
    + subst out. simpl in Hsl. rewrite Hsl.
      rewrite <- (met_drain rest c' e' (S n) HM' Hw Hb) by lia.
      simpl. unfold getChunk. rewrite HL.
      rewrite (nextChunkLimit_met e' (proj1 HM')).
      unfold nextChunkLimit. rewrite Hm, Hsk, Hs. reflexivity.
    + simpl. unfold getChunk. rewrite HL.
      pose proof (unmet_end_stuck c' e' HU') as Hstuck.
      assert (Hcall : nextChunkLimit p e = (Ok [], e')).
      { unfold nextChunkLimit in Hstuck |- *.
        rewrite Hm, Hsk, Hs.
        destruct HU' as (Hm' & _ & _ & HR').
        rewrite Hm', (proj1 HR') in Hstuck. simpl in Hstuck.
        exact Hstuck. }
      rewrite Hcall, (drain_stuck e' Hstuck n), Hsl. reflexivity.
Qed.






End LimitFacts.




(** ** Production is skipped once the result is done *)

(** C9.  When [resTbl] is marked done, [Next] does not run [produce]: the
    producer, and with it [resTbl], [iterInTbl] and [iterOutTbl], is
    returned as it is, and what [Next] returns is what [getChunk] returns;
    without a limit that is never an error.  A successful [produce] leaves
    [resTbl] marked done. *)
Theorem Next_skips_produce_when_done (hashRow : Row -> Z) :
  (forall fuel e p,
      stDone (resTbl p) = true ->
      Next hashRow fuel e p
      = Some (fst (getChunk p e), snd (getChunk p e), p) /\
      (hasLimit p = false ->
       exists rows e', Next hashRow fuel e p = Some (Ok rows, e', p))) /\
  (forall fuel p p',
      produce hashRow fuel p = Some (Ok tt, p') ->
      stDone (resTbl p') = true).
Proof.
  split.
  - intros fuel e p Hd.
    assert (HN : Next hashRow fuel e p
                 = Some (fst (getChunk p e), snd (getChunk p e), p)).
    { unfold Next. rewrite Hd. simpl negb. cbv iota.
      destruct (getChunk p e); reflexivity. }
    split; [exact HN|]. intros HL. rewrite HN.
    unfold getChunk. rewrite HL.
    destruct (Nat.ltb (chkIdx e) (NumChunks (resTbl p))) eqn:Elt.
    + apply Nat.ltb_lt in Elt. unfold stGetChunk, NumChunks in *.
      destruct (nth_error (stChunks (resTbl p)) (chkIdx e)) eqn:En.
      * simpl. do 2 eexists. reflexivity.
      * apply nth_error_None in En. lia.
    + simpl. do 2 eexists. reflexivity.
  - intros fuel p p' H. unfold produce in H.
    destruct (stErr (resTbl p)); [discriminate|].
    destruct (computeSeedPart hashRow fuel p) as [[[[]|e1] p1]|];
      [|discriminate|discriminate].
    destruct (computeRecursivePart hashRow fuel p1) as [[[[]|e2] p2]|];
      [|discriminate|discriminate].
    inversion H; subst. reflexivity.
Qed.

Lemma Next_skips_produce_when_done_witness :
  Next firstColumnHash 0 freshExec (finishedProducer 1)
  = Some (Ok [[1]; [2]], withChkIdx freshExec 1, finishedProducer 1) /\
  exists p',
    produce firstColumnHash 20 (exampleProducer true 10) = Some (Ok tt, p') /\
    stDone (resTbl p') = true.
Proof.
  destruct (Next_skips_produce_when_done firstColumnHash) as [A B].
  split.
  - exact (proj1 (A 0%nat freshExec (finishedProducer 1) eq_refl)).
  - eexists. split; [vm_compute; reflexivity|].
    apply (B 20%nat (exampleProducer true 10)). vm_compute. reflexivity.
Defined.

(** ** What an evaluation leaves unchanged *)

Lemma sameFlags_refl (s : Storage) : sameFlags s s.
Proof. repeat split. Qed.

Lemma sameFlags_trans (s1 s2 s3 : Storage) :
  sameFlags s1 s2 -> sameFlags s2 s3 -> sameFlags s1 s3.
Proof.
  unfold sameFlags. intros (A & B & C) (D & E & F).
  repeat split; congruence.
Qed.

Lemma sameFlags_stAdd (s : Storage) (c : Chunk) : sameFlags s (stAdd s c).
Proof.
  unfold sameFlags, stAdd. destruct (Nat.eqb (NumRows c) 0);
    repeat split; reflexivity.
Qed.

Lemma sameFlags_fold_stAdd (chks : list Chunk) :
  forall s, sameFlags s (fold_left stAdd chks s).
Proof.
  induction chks as [|c chks IH]; intros s; simpl.
  - apply sameFlags_refl.
  - eapply sameFlags_trans; [apply sameFlags_stAdd | apply IH].
Qed.

Lemma sameSetup_refl (p : cteProducer) : sameSetup p p.
Proof. unfold sameSetup. repeat split; reflexivity. Qed.

Lemma sameSetup_trans (p1 p2 p3 : cteProducer) :
  sameSetup p1 p2 -> sameSetup p2 p3 -> sameSetup p1 p3.
Proof.
  unfold sameSetup.
  intros (A1 & A2 & A3 & A4 & A5 & A6 & A7 & A8)
         (B1 & B2 & B3 & B4 & B5 & B6 & B7 & B8).
  repeat split; try congruence;
    destruct A8 as (X & Y & Z0), B8 as (X' & Y' & Z'); congruence.
Qed.

Lemma tryDedupAndAdd_storage (hashRow : Row -> Z) (d : bool)
      (ps : list nat) (chk : Chunk) (st : Storage)
      (ht : option baseHashTable) (c' : Chunk) (st' : Storage)
      (ht' : option baseHashTable) (ps' : list nat) :
  tryDedupAndAdd hashRow d ps chk st ht = Ok (c', st', ht', ps') ->
  st' = stAdd st c'.
Proof.
  unfold tryDedupAndAdd. destruct d.
  - destruct (deduplicate hashRow ps chk st ht) as [[[c1 h1] p1]|];
      simpl; intros H; inversion H; reflexivity.
  - intros H; inversion H; reflexivity.
Qed.

Section EvaluationFacts.

Variable hashRow : Row -> Z.

Lemma foldIntoRes_same (out : Storage) (idxs : list nat) :
  forall p chks r p',
    foldIntoRes hashRow out idxs p chks = (r, p') ->
    sameSetup p p' /\ curIter p' = curIter p /\
    recursiveExec p' = recursiveExec p /\
    iterInTbl p' = iterInTbl p /\ iterOutTbl p' = iterOutTbl p.
Proof.
  induction idxs as [|i rest IH]; intros p chks r p' H; simpl in H.
  - inversion H; subst. split; [apply sameSetup_refl|].
    repeat split; reflexivity.
  - destruct (stGetChunk out i) as [chk|e0].
    2:{ inversion H; subst. split; [apply sameSetup_refl|].
        repeat split; reflexivity. }
    destruct (tryDedupAndAdd hashRow (isDistinct p) (sel p)
                (if isDistinct p then CopyConstruct chk else chk)
                (resTbl p) (hashTbl p))
      as [[[[c' st'] h'] ps']|e0] eqn:E.
    2:{ inversion H; subst. split; [apply sameSetup_refl|].
        repeat split; reflexivity. }
    apply tryDedupAndAdd_storage in E. subst st'.
    apply IH in H. destruct H as (S1 & C1 & R1 & I1 & O1).
    simpl in C1, R1, I1, O1.
    split; [|repeat split; assumption].
    eapply sameSetup_trans; [|exact S1].
    unfold sameSetup. simpl. repeat split; try reflexivity;
      apply sameFlags_stAdd.
Qed.

Lemma setup_same (p : cteProducer) (r : result unit) (p' : cteProducer) :
  setupTblsForNewIteration hashRow p = (r, p') ->
  sameSetup p p' /\ curIter p' = curIter p /\
  recursiveExec p' = recursiveExec p.
Proof.
  unfold setupTblsForNewIteration. intros H.
  destruct (iterOutTbl p) as [out|].
  2:{ inversion H; subst. split; [apply sameSetup_refl|].
      split; reflexivity. }
  destruct (foldIntoRes hashRow out (seq 0 (NumChunks out)) p [])
    as [[chks|e0] q] eqn:E;
    apply foldIntoRes_same in E; destruct E as (S1 & C1 & R1 & _ & _).
  - destruct (if isDistinct q
              then (fold_left stAdd chks (stReopen (iterInTbl q)), out)
              else stSwapData (stReopen (iterInTbl q)) out) as [a b].
    inversion H; subst. simpl.
    split; [|split; assumption].
    eapply sameSetup_trans; [exact S1|].
    unfold sameSetup. simpl. repeat split; reflexivity.
  - inversion H; subst. split; [exact S1|]. split; assumption.
Qed.

(** The loop body of the recursive part, when it returns. *)
Lemma recBody_inl_same (p : cteProducer) (r : result unit)
      (p' : cteProducer) :
  recBody hashRow p = inl (r, p') -> sameSetup p p'.
Proof.
  unfold recBody. intros H.
  destruct (recursiveExec p) as [ex|] eqn:Eex.
  2:{ inversion H; subst. apply sameSetup_refl. }
  simpl in H.
  set (p0 := setRecursiveExec p _) in H.
  assert (S0 : sameSetup p p0).
  { unfold sameSetup, p0. simpl. rewrite Eex.
    repeat split; reflexivity. }
  destruct (exNext ex (stChunks (iterInTbl p)) (exPos ex)) as [chk|e0].
  2:{ inversion H; subst. exact S0. }
  destruct (Nat.eqb (NumRows chk) 0).
  2:{ destruct (iterOutTbl p); [discriminate|].
      inversion H; subst. exact S0. }
  destruct (setupTblsForNewIteration hashRow p0) as [[[]|e1] p1] eqn:Es;
    apply setup_same in Es; destruct Es as (S1 & C1 & R1).
  2:{ inversion H; subst. eapply sameSetup_trans; eassumption. }
  assert (S01 : sameSetup p p1) by (eapply sameSetup_trans; eassumption).
  destruct (limitDone p1 (resTbl p1)).
  { inversion H; subst. exact S01. }
  destruct (Nat.eqb (NumChunks (iterInTbl p1)) 0).
  { inversion H; subst. exact S01. }
  cbv zeta in H. simpl in H.
  assert (S2 : forall x, option_map exNext (Some x) =
                         option_map exNext (recursiveExec p1) ->
               forall q, q = setRecursiveExec
                  (setIterInTbl (setCurIter p1 (curIter p1 + 1))
                     (stSetIter (iterInTbl p1) (curIter p1 + 1)))
                  (Some x) -> sameSetup p q).
  { intros x Hx q Hq. subst q. eapply sameSetup_trans; [exact S01|].
    unfold sameSetup. simpl. simpl in Hx. rewrite <- Hx.
    repeat split; reflexivity. }
  destruct (curIter p1 + 1 >? CTEMaxRecursionDepth p1).
  { inversion H; subst. eapply sameSetup_trans; [exact S01|].
    unfold sameSetup. simpl. repeat split; reflexivity. }
  destruct (exCloseErr _) in H.
  { inversion H; subst. eapply S2; [|reflexivity].
    rewrite R1. unfold p0. reflexivity. }
  destruct (exOpenErr _) in H; [|discriminate].
  inversion H; subst. eapply S2; [|reflexivity].
  rewrite R1. unfold p0. reflexivity.
Qed.

(** The loop body of the recursive part, when the loop goes on: either a
    non-empty batch was added to [iterOutTbl], or a rotation has begun the
    next iteration, within the recursion depth. *)
Lemma recBody_inr (p q : cteProducer) :
  recBody hashRow p = inr q ->
  sameSetup p q /\
  ((curIter q = curIter p /\
    stChunks (iterInTbl q) = stChunks (iterInTbl p) /\
    exists ex ex' chk,
      recursiveExec p = Some ex /\ recursiveExec q = Some ex' /\
      exPos ex' = S (exPos ex) /\
      exNext ex (stChunks (iterInTbl p)) (exPos ex) = Ok chk /\
      NumRows chk <> 0%nat)
   \/ (curIter q = curIter p + 1 /\
       curIter q <= CTEMaxRecursionDepth p)).
Proof.
  unfold recBody. intros H.
  destruct (recursiveExec p) as [ex|] eqn:Eex; [|discriminate].
  simpl in H.
  set (p0 := setRecursiveExec p _) in H.
  assert (S0 : sameSetup p p0).
  { unfold sameSetup, p0. simpl. rewrite Eex.
    repeat split; reflexivity. }
  destruct (exNext ex (stChunks (iterInTbl p)) (exPos ex)) as [chk|e0]
    eqn:Enext; [|discriminate].
  destruct (Nat.eqb (NumRows chk) 0) eqn:Erows.
  2:{ destruct (iterOutTbl p) as [out|]; [|discriminate].
      inversion H; subst. split.
      - eapply sameSetup_trans; [exact S0|].
        unfold sameSetup. simpl. repeat split; reflexivity.
      - left. split; [reflexivity|]. split; [reflexivity|].
        do 3 eexists. split; [reflexivity|]. split; [reflexivity|].
        split; [reflexivity|]. split; [exact Enext|].
        apply Nat.eqb_neq. exact Erows. }
  destruct (setupTblsForNewIteration hashRow p0) as [[[]|e1] p1] eqn:Es;
    [|discriminate].
  apply setup_same in Es. destruct Es as (S1 & C1 & R1).
  assert (S01 : sameSetup p p1) by (eapply sameSetup_trans; eassumption).
  destruct (limitDone p1 (resTbl p1)); [discriminate|].
  destruct (Nat.eqb (NumChunks (iterInTbl p1)) 0); [discriminate|].
  cbv zeta in H. simpl in H.
  destruct (curIter p1 + 1 >? CTEMaxRecursionDepth p1) eqn:Ed;
    [discriminate|].
  destruct (exCloseErr _) in H; [discriminate|].
  destruct (exOpenErr _) in H; [discriminate|].
  inversion H; subst. split.
  - eapply sameSetup_trans; [exact S01|].
    unfold sameSetup. simpl. rewrite R1. unfold p0. simpl.
    repeat split; reflexivity.
  - right. simpl. rewrite C1. unfold p0. simpl.
    split; [reflexivity|].
    destruct S01 as (HD & _). rewrite <- HD.
    destruct (Z.gtb_spec (curIter p1 + 1) (CTEMaxRecursionDepth p1));
      [discriminate|].
    rewrite C1 in *. unfold p0 in *. simpl in *. lia.
Qed.

Lemma recLoop_step (fuel : nat) (p q : cteProducer) :
  recBody hashRow p = inr q ->
  recLoop hashRow (S fuel) p = recLoop hashRow fuel q.
Proof. intros H. simpl. rewrite H. reflexivity. Qed.

Lemma recLoop_return (fuel : nat) (p : cteProducer)
      (r : result unit * cteProducer) :
  recBody hashRow p = inl r ->
  recLoop hashRow (S fuel) p = Some r.
Proof. intros H. simpl. rewrite H. reflexivity. Qed.

Lemma recLoop_mono (n : nat) :
  forall p r m,
    recLoop hashRow n p = Some r -> (n <= m)%nat ->
    recLoop hashRow m p = Some r.
Proof.
  induction n as [|n IH]; intros p r m H Hm; [discriminate|].
  destruct m as [|m]; [lia|]. simpl in H |- *.
  destruct (recBody hashRow p) as [r0|q]; [exact H|].
  apply IH; [exact H | lia].
Qed.

Lemma recLoop_same (fuel : nat) :
  forall p r p',
    recLoop hashRow fuel p = Some (r, p') -> sameSetup p p'.
Proof.
  induction fuel as [|fuel IH]; intros p r p' H; [discriminate|].
  simpl in H. destruct (recBody hashRow p) as [[r0 p0]|q] eqn:E.
  - inversion H; subst. eapply recBody_inl_same. exact E.
  - apply recBody_inr in E. destruct E as [S1 _].
    eapply sameSetup_trans; [exact S1|]. eapply IH. exact H.
Qed.

Lemma recLoop_iterBody (n : nat) :
  forall p q fuel,
    iterBody hashRow n p = Some q ->
    recLoop hashRow (n + fuel) p = recLoop hashRow fuel q.
Proof.
  induction n as [|n IH]; intros p q fuel H; simpl in H.
  - inversion H; subst. reflexivity.
  - destruct (recBody hashRow p) as [r0|p1] eqn:E; [discriminate|].
    simpl. rewrite E. apply IH. exact H.
Qed.

Lemma seedLoop_same (fuel : nat) :
  forall p chks r p',
    seedLoop hashRow fuel p chks = Some (r, p') -> sameSetup p p'.
Proof.
  induction fuel as [|fuel IH]; intros p chks r p' H; [discriminate|].
  simpl in H.
  destruct (limitDone p (iterInTbl p)).
  { inversion H; subst. apply sameSetup_refl. }
  destruct (seedExec p) as [ex|] eqn:Eex.
  2:{ inversion H; subst. apply sameSetup_refl. }
  simpl in H. set (p0 := setSeedExec p _) in H.
  assert (S0 : sameSetup p p0).
  { unfold sameSetup, p0. simpl. rewrite Eex.
    repeat split; reflexivity. }
  destruct (exNext ex [] (exPos ex)) as [chk|e0].
  2:{ inversion H; subst. exact S0. }
  destruct (Nat.eqb (NumRows chk) 0).
  { inversion H; subst. exact S0. }
  destruct (tryDedupAndAdd hashRow (isDistinct p) (sel p) chk (iterInTbl p)
              (hashTbl p)) as [[[[c' st'] h'] ps']|e0].
  2:{ inversion H; subst. exact S0. }
  apply IH in H. eapply sameSetup_trans; [exact S0|].
  eapply sameSetup_trans; [|exact H].
  unfold sameSetup. simpl. repeat split; reflexivity.
Qed.

Lemma seedLoop_mono (n : nat) :
  forall p chks r m,
    seedLoop hashRow n p chks = Some r -> (n <= m)%nat ->
    seedLoop hashRow m p chks = Some r.
Proof.
  induction n as [|n IH]; intros p chks r m H Hm; [discriminate|].
  destruct m as [|m]; [lia|]. simpl in H |- *.
  destruct (limitDone p (iterInTbl p)); [exact H|].
  destruct (seedExec p) as [ex|]; [|exact H].
  simpl in H |- *.
  destruct (exNext ex [] (exPos ex)) as [chk|e0]; [|exact H].
  destruct (Nat.eqb (NumRows chk) 0); [exact H|].
  destruct (tryDedupAndAdd hashRow (isDistinct p) (sel p) chk (iterInTbl p)
              (hashTbl p)) as [[[[c' st'] h'] ps']|e0]; [|exact H].
  apply IH; [exact H | lia].
Qed.

Lemma computeSeedPart_same (fuel : nat) (p : cteProducer)
      (r : result unit) (p' : cteProducer) :
  computeSeedPart hashRow fuel p = Some (r, p') -> sameSetup p p'.
Proof.
  unfold computeSeedPart. intros H.
  set (p0 := setIterInTbl _ _) in H.
  assert (S0 : sameSetup p p0).
  { unfold sameSetup, p0. simpl. repeat split; reflexivity. }
  destruct (seedLoop hashRow fuel p0 []) as [[[chks|e0] p1]|] eqn:E;
    [| |discriminate]; apply seedLoop_same in E.
  - inversion H; subst. eapply sameSetup_trans; [exact S0|].
    eapply sameSetup_trans; [exact E|].
    unfold sameSetup. simpl. repeat split; try reflexivity;
      apply sameFlags_fold_stAdd.
  - inversion H; subst. eapply sameSetup_trans; eassumption.
Qed.

Lemma computeSeedPart_mono (n m : nat) (p : cteProducer)
      (r : result unit * cteProducer) :
  computeSeedPart hashRow n p = Some r -> (n <= m)%nat ->
  computeSeedPart hashRow m p = Some r.
Proof.
  unfold computeSeedPart. intros H Hm.
  destruct (seedLoop hashRow n _ []) as [r0|] eqn:E; [|discriminate].
  rewrite (seedLoop_mono n _ _ r0 m E Hm). exact H.
Qed.

Lemma computeRecursivePart_same (fuel : nat) (p : cteProducer)
      (r : result unit) (p' : cteProducer) :
  computeRecursivePart hashRow fuel p = Some (r, p') -> sameSetup p p'.
Proof.
  unfold computeRecursivePart. intros H.
  destruct (recursiveExec p);
    [|inversion H; subst; apply sameSetup_refl].
  destruct (Nat.eqb (NumChunks (iterInTbl p)) 0);
    [inversion H; subst; apply sameSetup_refl|].
  destruct (curIter p >? CTEMaxRecursionDepth p);
    [inversion H; subst; apply sameSetup_refl|].
  destruct (limitDone p (resTbl p));
    [inversion H; subst; apply sameSetup_refl|].
  eapply recLoop_same. exact H.
Qed.

Lemma computeRecursivePart_mono (n m : nat) (p : cteProducer)
      (r : result unit * cteProducer) :
  computeRecursivePart hashRow n p = Some r -> (n <= m)%nat ->
  computeRecursivePart hashRow m p = Some r.
Proof.
  unfold computeRecursivePart. intros H Hm.
  destruct (recursiveExec p); [|exact H].
  destruct (Nat.eqb (NumChunks (iterInTbl p)) 0); [exact H|].
  destruct (curIter p >? CTEMaxRecursionDepth p); [exact H|].
  destruct (limitDone p (resTbl p)); [exact H|].
  eapply recLoop_mono; eassumption.
Qed.

(** [SetDone] is called by [produce] once when both phases succeed, and
    not at all when [produce] returns an error. *)
Lemma produce_accounting (fuel : nat) (p : cteProducer) (r : result unit)
      (p' : cteProducer) :
  stErr (resTbl p) = None ->
  produce hashRow fuel p = Some (r, p') ->
  match r with
  | Ok _ => stDone (resTbl p') = true /\
            stDoneCalls (resTbl p') = S (stDoneCalls (resTbl p))
  | Err e => stDone (resTbl p') = stDone (resTbl p) /\
             stDoneCalls (resTbl p') = stDoneCalls (resTbl p) /\
             stErr (resTbl p') = Some e
  end.
Proof.
  intros He H. unfold produce in H. rewrite He in H.
  destruct (computeSeedPart hashRow fuel p) as [[[[]|e1] p1]|] eqn:E1;
    [| |discriminate]; apply computeSeedPart_same in E1;
    destruct E1 as (_ & _ & _ & _ & _ & _ & _ & F1 & F2 & F3).
  - destruct (computeRecursivePart hashRow fuel p1) as [[[[]|e2] p2]|]
      eqn:E2; [| |discriminate]; apply computeRecursivePart_same in E2;
      destruct E2 as (_ & _ & _ & _ & _ & _ & _ & G1 & G2 & G3);
      inversion H; subst; simpl.
    + split; [reflexivity|]. congruence.
    + repeat split; congruence.
  - inversion H; subst; simpl. repeat split; congruence.
Qed.

(** The state in which the rotation runs: the recursive plan has returned
    its batch. *)
Lemma recBody_break (p : cteProducer) (ex : Executor) (chk : Chunk)
      (p1 : cteProducer) :
  recursiveExec p = Some ex ->
  exNext ex (stChunks (iterInTbl p)) (exPos ex) = Ok chk ->
  NumRows chk = 0%nat ->
  setupTblsForNewIteration hashRow
    (setRecursiveExec p (Some (snd (execNext ex (stChunks (iterInTbl p))))))
  = (Ok tt, p1) ->
  limitDone p1 (resTbl p1) = true \/ NumChunks (iterInTbl p1) = 0%nat ->
  recBody hashRow p = inl (Ok tt, p1).
Proof.
  intros Hex Hnext Hrows Hsetup Hfix. unfold recBody. rewrite Hex.
  simpl in Hsetup |- *. rewrite Hnext, Hrows. simpl Nat.eqb. cbv iota.
  rewrite Hsetup.
  destruct Hfix as [Hl|Hn].
  - rewrite Hl. reflexivity.
  - rewrite Hn. simpl. destruct (limitDone p1 (resTbl p1)); reflexivity.
Qed.

Lemma recBody_depth (p : cteProducer) (ex : Executor) (chk : Chunk)
      (p1 : cteProducer) :
  recursiveExec p = Some ex ->
  exNext ex (stChunks (iterInTbl p)) (exPos ex) = Ok chk ->
  NumRows chk = 0%nat ->
  setupTblsForNewIteration hashRow
    (setRecursiveExec p (Some (snd (execNext ex (stChunks (iterInTbl p))))))
  = (Ok tt, p1) ->
  limitDone p1 (resTbl p1) = false ->
  NumChunks (iterInTbl p1) <> 0%nat ->
  curIter p1 + 1 > CTEMaxRecursionDepth p1 ->
  exists p2,
    recBody hashRow p
    = inl (Err (ErrCTEMaxRecursionDepth (curIter p1 + 1)), p2).
Proof.
  intros Hex Hnext Hrows Hsetup Hl Hn Hd. unfold recBody. rewrite Hex.
  simpl in Hsetup |- *. rewrite Hnext, Hrows. simpl Nat.eqb. cbv iota.
  rewrite Hsetup, Hl.
  apply Nat.eqb_neq in Hn. rewrite Hn. cbv zeta. simpl.
  replace (curIter p1 + 1 >? CTEMaxRecursionDepth p1) with true
    by (symmetry; apply Z.gtb_lt; lia).
  eexists. reflexivity.
Qed.

(** C10 (as amended).  At a rotation that leaves the iteration input
    empty, or the limit satisfied, the loop of the recursive part ends
    with success before the counter is incremented and compared with the
    maximum depth: this holds whatever the counter is, in particular when
    it equals the maximum depth.  The comparison at the entry of the
    recursive part is strict too: a counter at most equal to the maximum
    depth passes it.  That entry comparison is made as soon as there is a
    recursive plan and a non-empty iteration input, before the limit is
    looked at: a counter above the maximum depth fails there whether or
    not the limit is satisfied. *)
Theorem depth_check_skipped_at_fixpoint (fuel : nat) (p : cteProducer)
        (ex : Executor) (chk : Chunk) (p1 : cteProducer) :
  recursiveExec p = Some ex ->
  exNext ex (stChunks (iterInTbl p)) (exPos ex) = Ok chk ->
  NumRows chk = 0%nat ->
  setupTblsForNewIteration hashRow
    (setRecursiveExec p (Some (snd (execNext ex (stChunks (iterInTbl p))))))
  = (Ok tt, p1) ->
  limitDone p1 (resTbl p1) = true \/ NumChunks (iterInTbl p1) = 0%nat ->
  recLoop hashRow (S fuel) p = Some (Ok tt, p1) /\
  curIter p1 = curIter p /\
  (curIter p <= CTEMaxRecursionDepth p ->
   NumChunks (iterInTbl p) <> 0%nat ->
   limitDone p (resTbl p) = false ->
   computeRecursivePart hashRow (S fuel) p = Some (Ok tt, p1)) /\
  (curIter p > CTEMaxRecursionDepth p ->
   NumChunks (iterInTbl p) <> 0%nat ->
   computeRecursivePart hashRow (S fuel) p
   = Some (Err (ErrCTEMaxRecursionDepth (curIter p)), p)).
Proof.
  intros Hex Hnext Hrows Hsetup Hfix.
  pose proof (recBody_break p ex chk p1 Hex Hnext Hrows Hsetup Hfix) as Hb.
  pose proof (recLoop_return fuel p _ Hb) as HL.
  split; [exact HL|]. split; [|split].
  - apply setup_same in Hsetup. destruct Hsetup as (_ & C & _).
    rewrite C. reflexivity.
  - intros Hd Hn Hl. unfold computeRecursivePart. rewrite Hex.
    apply Nat.eqb_neq in Hn. rewrite Hn, Hl.
    replace (curIter p >? CTEMaxRecursionDepth p) with false
      by (symmetry; destruct (Z.gtb_spec (curIter p)
                                (CTEMaxRecursionDepth p)); [lia|reflexivity]).
    exact HL.
  - intros Hd Hn. unfold computeRecursivePart. rewrite Hex.
    apply Nat.eqb_neq in Hn. rewrite Hn.
    replace (curIter p >? CTEMaxRecursionDepth p) with true
      by (symmetry; apply Z.gtb_lt; lia).
    reflexivity.
Qed.

Lemma produce_recursive_error (fuel : nat) (p ps : cteProducer)
      (e : error) (p2 : cteProducer) :
  stErr (resTbl p) = None ->
  computeSeedPart hashRow fuel p = Some (Ok tt, ps) ->
  computeRecursivePart hashRow fuel ps = Some (Err e, p2) ->
  exists p',
    produce hashRow fuel p = Some (Err e, p') /\
    stDone (resTbl p') = stDone (resTbl p) /\
    stDoneCalls (resTbl p') = stDoneCalls (resTbl p) /\
    stErr (resTbl p') = Some e.
Proof.
  intros He Hs Hr.
  assert (Hp : produce hashRow fuel p
               = Some (Err e, setResTbl p2 (stSetError (resTbl p2) e))).
  { unfold produce. rewrite He, Hs, Hr. reflexivity. }
  eexists. split; [exact Hp|].
  exact (produce_accounting fuel p (Err e) _ He Hp).
Qed.

(** C2.  After a successful seed phase that leaves a non-empty iteration
    input to a recursive plan: when the iteration counter already exceeds
    the maximum depth, or when a rotation of the run leaves the iteration
    input non-empty and the limit unsatisfied and the incremented counter
    exceeds the maximum depth, [produce] returns the depth error that
    carries the offending counter, latches it on [resTbl], and does not
    mark [resTbl] done ([SetDone] is not called). *)
Theorem depth_guard (fuel : nat) (p ps : cteProducer) :
  stErr (resTbl p) = None ->
  computeSeedPart hashRow fuel p = Some (Ok tt, ps) ->
  recursiveExec ps <> None ->
  NumChunks (iterInTbl ps) <> 0%nat ->
  (curIter ps > CTEMaxRecursionDepth ps ->
   exists p',
     produce hashRow fuel p
     = Some (Err (ErrCTEMaxRecursionDepth (curIter ps)), p') /\
     stDone (resTbl p') = stDone (resTbl p) /\
     stDoneCalls (resTbl p') = stDoneCalls (resTbl p) /\
     stErr (resTbl p') = Some (ErrCTEMaxRecursionDepth (curIter ps))) /\
  (forall n q ex chk q1,
      curIter ps <= CTEMaxRecursionDepth ps ->
      limitDone ps (resTbl ps) = false ->
      iterBody hashRow n ps = Some q ->
      (n < fuel)%nat ->
      recursiveExec q = Some ex ->
      exNext ex (stChunks (iterInTbl q)) (exPos ex) = Ok chk ->
      NumRows chk = 0%nat ->
      setupTblsForNewIteration hashRow
        (setRecursiveExec q
           (Some (snd (execNext ex (stChunks (iterInTbl q))))))
      = (Ok tt, q1) ->
      limitDone q1 (resTbl q1) = false ->
      NumChunks (iterInTbl q1) <> 0%nat ->
      curIter q1 + 1 > CTEMaxRecursionDepth q1 ->
      exists p',
        produce hashRow fuel p
        = Some (Err (ErrCTEMaxRecursionDepth (curIter q1 + 1)), p') /\
        stDone (resTbl p') = stDone (resTbl p) /\
        stDoneCalls (resTbl p') = stDoneCalls (resTbl p) /\
        stErr (resTbl p')
        = Some (ErrCTEMaxRecursionDepth (curIter q1 + 1))).
Proof.
  intros He Hs Hrec Hin.
  destruct (recursiveExec ps) as [ex0|] eqn:Eex; [clear Hrec|congruence].
  apply Nat.eqb_neq in Hin.
  split.
  - intros Hd.
    apply (produce_recursive_error fuel p ps _ ps He Hs).
    unfold computeRecursivePart. rewrite Eex, Hin.
    replace (curIter ps >? CTEMaxRecursionDepth ps) with true
      by (symmetry; apply Z.gtb_lt; lia).
    reflexivity.
  - intros n q ex chk q1 Hd Hl Hreach Hn Hex Hnext Hrows Hsetup Hl1 Hn1 Hd1.
    destruct (recBody_depth q ex chk q1 Hex Hnext Hrows Hsetup Hl1 Hn1 Hd1)
      as [p2 Hb].
    apply (produce_recursive_error fuel p ps _ p2 He Hs).
    unfold computeRecursivePart. rewrite Eex, Hin, Hl.
    replace (curIter ps >? CTEMaxRecursionDepth ps) with false
      by (symmetry; destruct (Z.gtb_spec (curIter ps)
                                (CTEMaxRecursionDepth ps));
          [lia|reflexivity]).
    replace fuel with (n + S (fuel - n - 1))%nat by lia.
    rewrite (recLoop_iterBody n ps q _ Hreach).
    apply recLoop_return. exact Hb.
Qed.

(** *** Termination of the two loops *)

Lemma seedLoop_terminates (j : nat) :
  forall p chks,
    (forall ex, seedExec p = Some ex ->
                exists c, exNext ex [] (exPos ex + j)%nat = Ok c /\
                          NumRows c = 0%nat) ->
    exists r, seedLoop hashRow (S j) p chks = Some r.
Proof.
  induction j as [|j IH]; intros p chks H.
  - simpl. destruct (limitDone p (iterInTbl p)); [eexists; reflexivity|].
    destruct (seedExec p) as [ex|] eqn:Eex; [|eexists; reflexivity].
    destruct (H ex eq_refl) as (c & Hc & Hrows).
    rewrite Nat.add_0_r in Hc. simpl. rewrite Hc, Hrows. simpl.
    eexists; reflexivity.
  - cbn [seedLoop].
    destruct (limitDone p (iterInTbl p)); [eexists; reflexivity|].
    destruct (seedExec p) as [ex|] eqn:Eex; [|eexists; reflexivity].
    cbn [execNext].
    destruct (exNext ex [] (exPos ex)) as [chk|e0];
      [|eexists; reflexivity].
    destruct (Nat.eqb (NumRows chk) 0); [eexists; reflexivity|].
    destruct (tryDedupAndAdd hashRow _ _ _ _ _)
      as [[[[c' st'] h'] ps']|e0]; [|eexists; reflexivity].
    apply IH. simpl. intros ex' Hex'. inversion Hex'; subst ex'. simpl.
    destruct (H ex eq_refl) as (c & Hc & Hrows).
    exists c. rewrite <- Nat.add_succ_r. split; assumption.
Qed.

Lemma recLoop_inner (f : list Chunk -> nat -> result Chunk) (D : Z)
      (j : nat) :
  forall p ex,
    recursiveExec p = Some ex -> exNext ex = f ->
    CTEMaxRecursionDepth p = D ->
    (exists c, f (stChunks (iterInTbl p)) (exPos ex + j)%nat = Ok c /\
               NumRows c = 0%nat) ->
    (forall q, option_map exNext (recursiveExec q) = Some f ->
               CTEMaxRecursionDepth q = D ->
               curIter q = curIter p + 1 -> curIter q <= D ->
               exists fuel r, recLoop hashRow fuel q = Some r) ->
    exists fuel r, recLoop hashRow fuel p = Some r.
Proof.
  induction j as [|j IH]; intros p ex Hex Hf HD Hempty Houter;
    destruct (recBody hashRow p) as [r0|q] eqn:E;
    try (exists 1%nat, r0; apply recLoop_return; exact E);
    destruct (recBody_inr p q E) as
      (HS & [(Hc & Hin & ex1 & ex' & chk & Hex1 & Hex' & Hpos & Hnext & Hne)
            |(Hc & Hle)]).
  - exfalso. rewrite Hex in Hex1. inversion Hex1; subst ex1.
    destruct Hempty as (c & Hc0 & Hrows).
    rewrite Nat.add_0_r, <- Hf, Hnext in Hc0. inversion Hc0; subst c.
    contradiction.
  - destruct (Houter q) as (fuel & r & Hr); try assumption.
    + destruct HS as (_ & _ & _ & _ & _ & H6 & _).
      rewrite H6, Hex. simpl. rewrite Hf. reflexivity.
    + destruct HS as (H1 & _). congruence.
    + congruence.
    + exists (S fuel), r. rewrite (recLoop_step fuel p q E). exact Hr.
  - rewrite Hex in Hex1. inversion Hex1; subst ex1.
    assert (Hf' : exNext ex' = f).
    { destruct HS as (_ & _ & _ & _ & _ & H6 & _).
      rewrite Hex, Hex' in H6. simpl in H6. inversion H6. congruence. }
    destruct (IH q ex' Hex' Hf') as (fuel & r & Hr).
    + destruct HS as (H1 & _). congruence.
    + destruct Hempty as (c & Hc0 & Hrows). exists c.
      rewrite Hin, Hpos. rewrite Nat.add_succ_r in Hc0.
      split; assumption.
    + intros q' A B' C' D'. apply Houter; try assumption. congruence.
    + exists (S fuel), r. rewrite (recLoop_step fuel p q E). exact Hr.
  - destruct (Houter q) as (fuel & r & Hr); try assumption.
    + destruct HS as (_ & _ & _ & _ & _ & H6 & _).
      rewrite H6, Hex. simpl. rewrite Hf. reflexivity.
    + destruct HS as (H1 & _). congruence.
    + congruence.
    + exists (S fuel), r. rewrite (recLoop_step fuel p q E). exact Hr.
Qed.

Lemma recLoop_terminates (f : list Chunk -> nat -> result Chunk) (D : Z) :
  eventuallyEmpty f ->
  forall d p,
    option_map exNext (recursiveExec p) = Some f ->
    CTEMaxRecursionDepth p = D ->
    D + 1 - curIter p <= Z.of_nat d ->
    exists fuel r, recLoop hashRow fuel p = Some r.
Proof.
  intros Hev. induction d as [|d IH]; intros p Hf HD Hm;
    (destruct (recursiveExec p) as [ex|] eqn:Eex; [|discriminate]);
    simpl in Hf; inversion Hf as [Hf'];
    destruct (Hev (stChunks (iterInTbl p)) (exPos ex))
      as (k & Hk & c & Hc & Hrows);
    apply (recLoop_inner f D (k - exPos ex) p ex Eex Hf' HD).
  - exists c. replace (exPos ex + (k - exPos ex))%nat with k by lia.
    split; assumption.
  - intros q _ _ Hq1 Hq2. lia.
  - exists c. replace (exPos ex + (k - exPos ex))%nat with k by lia.
    split; assumption.
  - intros q Hq0 HqD Hq1 Hq2. apply IH; try assumption. lia.
Qed.

Lemma computeSeedPart_terminates (p : cteProducer) :
  (forall ex, seedExec p = Some ex -> eventuallyEmpty (exNext ex)) ->
  exists fuel r, computeSeedPart hashRow fuel p = Some r.
Proof.
  intros Hev. unfold computeSeedPart.
  set (p0 := setIterInTbl _ _).
  assert (Hj : exists j, forall ex,
               seedExec p0 = Some ex ->
               exists c, exNext ex [] (exPos ex + j)%nat = Ok c /\
                         NumRows c = 0%nat).
  { destruct (seedExec p0) as [ex|] eqn:Eex.
    - destruct (Hev ex Eex [] (exPos ex)) as (k & Hk & c & Hc & Hrows).
      exists (k - exPos ex)%nat. intros ex' Hex'.
      inversion Hex'; subst ex'. exists c.
      replace (exPos ex + (k - exPos ex))%nat with k by lia.
      split; assumption.
    - exists 0%nat. intros ex' Hex'. discriminate. }
  destruct Hj as [j Hj].
  destruct (seedLoop_terminates j p0 [] Hj) as [[[chks|e0] p1] Hr];
    exists (S j); rewrite Hr; eexists; reflexivity.
Qed.

Lemma computeRecursivePart_terminates (p : cteProducer) :
  (forall ex, recursiveExec p = Some ex -> eventuallyEmpty (exNext ex)) ->
  exists fuel r, computeRecursivePart hashRow fuel p = Some r.
Proof.
  intros Hev. unfold computeRecursivePart.
  destruct (recursiveExec p) as [ex|] eqn:Eex;
    [|exists 0%nat; eexists; reflexivity].
  destruct (Nat.eqb (NumChunks (iterInTbl p)) 0);
    [exists 0%nat; eexists; reflexivity|].
  destruct (curIter p >? CTEMaxRecursionDepth p);
    [exists 0%nat; eexists; reflexivity|].
  destruct (limitDone p (resTbl p));
    [exists 0%nat; eexists; reflexivity|].
  apply (recLoop_terminates (exNext ex) (CTEMaxRecursionDepth p)
           (Hev ex eq_refl)
           (Z.to_nat (CTEMaxRecursionDepth p + 1 - curIter p)) p).
  - rewrite Eex. reflexivity.
  - reflexivity.
  - lia.
Qed.

Lemma produce_mono (n m : nat) (p : cteProducer)
      (r : result unit * cteProducer) :
  produce hashRow n p = Some r -> (n <= m)%nat ->
  produce hashRow m p = Some r.
Proof.
  unfold produce. intros H Hm.
  destruct (stErr (resTbl p)); [exact H|].
  destruct (computeSeedPart hashRow n p) as [[r1 p1]|] eqn:E1;
    [|discriminate].
  rewrite (computeSeedPart_mono n m p _ E1 Hm).
  destruct r1 as [[]|e1]; [|exact H].
  destruct (computeRecursivePart hashRow n p1) as [[r2 p2]|] eqn:E2;
    [|discriminate].
  rewrite (computeRecursivePart_mono n m p1 _ E2 Hm). exact H.
Qed.

Lemma produce_terminates (p : cteProducer) :
  (forall ex, seedExec p = Some ex -> eventuallyEmpty (exNext ex)) ->
  (forall ex, recursiveExec p = Some ex -> eventuallyEmpty (exNext ex)) ->
  exists fuel r, produce hashRow fuel p = Some r.
Proof.
  intros Hseed Hrec. unfold produce.
  destruct (stErr (resTbl p)); [exists 0%nat; eexists; reflexivity|].
  destruct (computeSeedPart_terminates p Hseed) as (f1 & [r1 p1] & H1).
  destruct r1 as [[]|e1].
  2:{ exists f1. rewrite H1. eexists; reflexivity. }
  assert (Hrec1 : forall ex, recursiveExec p1 = Some ex ->
                             eventuallyEmpty (exNext ex)).
  { intros ex Hex.
    destruct (computeSeedPart_same f1 p _ p1 H1)
      as (_ & _ & _ & _ & _ & H6 & _).
    rewrite Hex in H6. simpl in H6.
    destruct (recursiveExec p) as [ex0|] eqn:E0; [|discriminate].
    simpl in H6. inversion H6 as [H7]. rewrite H7.
    apply Hrec. reflexivity. }
  destruct (computeRecursivePart_terminates p1 Hrec1)
    as (f2 & [r2 p2] & H2).
  exists (Nat.max f1 f2).
  rewrite (computeSeedPart_mono f1 (Nat.max f1 f2) p _ H1) by lia.
  rewrite (computeRecursivePart_mono f2 (Nat.max f1 f2) p1 _ H2) by lia.
  destruct r2 as [[]|e2]; eexists; reflexivity.
Qed.

(** C1.  When the seed plan and the recursive plan eventually yield an
    empty batch (in every iteration), [produce] terminates: with enough
    fuel it returns.  [SetDone] is called exactly once when it returns
    success, and [resTbl] is then done; it is not called when [produce]
    returns an error.  And when the run reaches a rotation that leaves
    the iteration input empty, [produce] returns success. *)
Theorem produce_terminates_done_once (p : cteProducer) :
  stErr (resTbl p) = None ->
  (forall ex, seedExec p = Some ex -> eventuallyEmpty (exNext ex)) ->
  (forall ex, recursiveExec p = Some ex -> eventuallyEmpty (exNext ex)) ->
  exists fuel r p',
    (forall fuel', (fuel <= fuel')%nat ->
                   produce hashRow fuel' p = Some (r, p')) /\
    stDoneCalls (resTbl p')
    = (stDoneCalls (resTbl p) + (if isOk r then 1 else 0))%nat /\
    (isOk r = true -> stDone (resTbl p') = true) /\
    (forall fuel0 ps n q ex chk q1,
        computeSeedPart hashRow fuel0 p = Some (Ok tt, ps) ->
        recursiveExec ps <> None ->
        NumChunks (iterInTbl ps) <> 0%nat ->
        curIter ps <= CTEMaxRecursionDepth ps ->
        limitDone ps (resTbl ps) = false ->
        iterBody hashRow n ps = Some q ->
        recursiveExec q = Some ex ->
        exNext ex (stChunks (iterInTbl q)) (exPos ex) = Ok chk ->
        NumRows chk = 0%nat ->
        setupTblsForNewIteration hashRow
          (setRecursiveExec q
             (Some (snd (execNext ex (stChunks (iterInTbl q))))))
        = (Ok tt, q1) ->
        NumChunks (iterInTbl q1) = 0%nat ->
        r = Ok tt).
Proof.
  intros He Hseed Hrec.
  destruct (produce_terminates p Hseed Hrec) as (fuel & [r p'] & Hp).
  exists fuel, r, p'.
  pose proof (produce_accounting fuel p r p' He Hp) as Hacc.
  split; [|split; [|split]].
  - intros fuel' Hle. apply (produce_mono fuel fuel' p _ Hp Hle).
  - destruct r as [[]|e]; simpl.
    + destruct Hacc as [_ H]. rewrite H. lia.
    + destruct Hacc as (_ & H & _). rewrite H. lia.
  - destruct r as [[]|e]; simpl; [intros _; apply Hacc | discriminate].
  - intros fuel0 ps n q ex chk q1 Hs Hex0 Hin Hd Hl Hreach Hex Hnext Hrows
           Hsetup Hfix.
    set (m := Nat.max fuel (Nat.max fuel0 (S n))).
    assert (H1 : produce hashRow m p = Some (r, p'))
      by (apply (produce_mono fuel m p _ Hp); unfold m; lia).
    assert (H2 : computeSeedPart hashRow m p = Some (Ok tt, ps))
      by (apply (computeSeedPart_mono fuel0 m p _ Hs); unfold m; lia).
    assert (H3 : computeRecursivePart hashRow m ps = Some (Ok tt, q1)).
    { unfold computeRecursivePart.
      destruct (recursiveExec ps); [|congruence].
      apply Nat.eqb_neq in Hin. rewrite Hin, Hl.
      replace (curIter ps >? CTEMaxRecursionDepth ps) with false
        by (symmetry; destruct (Z.gtb_spec (curIter ps)
                                  (CTEMaxRecursionDepth ps));
            [lia|reflexivity]).
      replace m with (n + S (m - n - 1))%nat by (unfold m; lia).
      rewrite (recLoop_iterBody n ps q _ Hreach).
      apply recLoop_return.
      apply (recBody_break q ex chk q1 Hex Hnext Hrows Hsetup).
      right. exact Hfix. }
    unfold produce in H1. rewrite He, H2, H3 in H1.
    inversion H1. reflexivity.
Qed.

End EvaluationFacts.

(** ** The example of the specification, evaluated *)

Lemma example_plans_eventually_empty :
  eventuallyEmpty (exNext seedOneTwoThree) /\
  eventuallyEmpty (exNext recIncrBelowFive).
Proof.
  split; intros inp pos; exists (S pos); (split; [lia|]);
    eexists; split; reflexivity.
Qed.

Lemma produce_terminates_done_once_witness :
  exists fuel p',
    (forall fuel', (fuel <= fuel')%nat ->
                   produce firstColumnHash fuel' (exampleProducer true 10)
                   = Some (Ok tt, p')) /\
    stDoneCalls (resTbl p') = 1%nat /\ stDone (resTbl p') = true.
Proof.
  destruct (produce_terminates_done_once firstColumnHash
              (exampleProducer true 10))
    as (fuel & r & p' & M & Cnt & Dn & F).
  - reflexivity.
  - intros ex H. vm_compute in H. inversion H; subst ex.
    apply example_plans_eventually_empty.
  - intros ex H. vm_compute in H. inversion H; subst ex.
    apply example_plans_eventually_empty.
  - assert (Hr : r = Ok tt).
    { apply (F 5%nat (exampleSeeded 10) 4%nat (exampleAt 10 4)
               (exampleExecAt 10 4) (mkChunk [] None) (exampleRotated 10 4)).
      - vm_compute. reflexivity.
      - vm_compute. discriminate.
      - vm_compute. discriminate.
      - vm_compute. discriminate.
      - vm_compute. reflexivity.
      - vm_compute. reflexivity.
      - vm_compute. reflexivity.
      - vm_compute. reflexivity.
      - reflexivity.
      - vm_compute. reflexivity.
      - vm_compute. reflexivity. }
    subst r. exists fuel, p'. split; [exact M|].
    split; [exact Cnt | apply Dn; reflexivity].
Defined.

Lemma depth_guard_witness :
  (exists p',
      produce firstColumnHash 5 (exampleProducer true 2)
      = Some (Err (ErrCTEMaxRecursionDepth 3), p') /\
      stDone (resTbl p') = false /\ stDoneCalls (resTbl p') = 0%nat /\
      stErr (resTbl p') = Some (ErrCTEMaxRecursionDepth 3)) /\
  (exists p',
      produce firstColumnHash 5 (exampleProducer true 0)
      = Some (Err (ErrCTEMaxRecursionDepth 1), p') /\
      stDone (resTbl p') = false /\ stDoneCalls (resTbl p') = 0%nat /\
      stErr (resTbl p') = Some (ErrCTEMaxRecursionDepth 1)).
Proof.
  split.
  - destruct (depth_guard firstColumnHash 5 (exampleProducer true 2)
                (exampleSeeded 2)) as [_ B].
    + reflexivity.
    + vm_compute. reflexivity.
    + vm_compute. discriminate.
    + vm_compute. discriminate.
    + apply (B 3%nat (exampleAt 2 3) (exampleExecAt 2 3) (mkChunk [] None)
               (exampleRotated 2 3)).
      * vm_compute. discriminate.
      * vm_compute. reflexivity.
      * vm_compute. reflexivity.
      * lia.
      * vm_compute. reflexivity.
      * vm_compute. reflexivity.
      * reflexivity.
      * vm_compute. reflexivity.
      * vm_compute. reflexivity.
      * vm_compute. discriminate.
      * vm_compute. reflexivity.
  - destruct (depth_guard firstColumnHash 5 (exampleProducer true 0)
                (exampleSeeded 0)) as [A _].
    + reflexivity.
    + vm_compute. reflexivity.
    + vm_compute. discriminate.
    + vm_compute. discriminate.
    + apply A. vm_compute. reflexivity.
Defined.

Lemma depth_check_skipped_at_fixpoint_witness :
  curIter (exampleAt 3 4) = CTEMaxRecursionDepth (exampleAt 3 4) /\
  recLoop firstColumnHash 1 (exampleAt 3 4)
  = Some (Ok tt, exampleRotated 3 4) /\
  curIter (exampleRotated 3 4) = 3 /\
  computeRecursivePart firstColumnHash 1 (exampleAt 3 4)
  = Some (Ok tt, exampleRotated 3 4).
Proof.
  destruct (depth_check_skipped_at_fixpoint firstColumnHash 0
              (exampleAt 3 4) (exampleExecAt 3 4) (mkChunk [] None)
              (exampleRotated 3 4)) as (A & B & C & _).
  - vm_compute. reflexivity.
  - vm_compute. reflexivity.
  - reflexivity.
  - vm_compute. reflexivity.
  - right. vm_compute. reflexivity.
  - split; [vm_compute; reflexivity|]. split; [exact A|].
    split; [rewrite B; vm_compute; reflexivity|].
    apply C.
    + vm_compute. discriminate.
    + vm_compute. discriminate.
    + vm_compute. reflexivity.
Defined.

(** The whole evaluation of the example with maximum depth 3 reaches its
    fixpoint with the counter at 3 and succeeds; with maximum depth 2 it
    fails. *)
Example example_completes_at_exact_depth :
  exists p',
    produce firstColumnHash 5 (exampleProducer true 3) = Some (Ok tt, p') /\
    curIter p' = 3 /\ stRows (resTbl p') = [[1]; [2]; [3]; [4]; [5]] /\
    stDone (resTbl p') = true.
Proof.
  eexists. split; [vm_compute; reflexivity|].
  repeat split; vm_compute; reflexivity.
Qed.

(** ** Deduplication in DISTINCT mode *)

Lemma nth_error_combine_seq (l : list Row) :
  forall a j,
    nth_error (combine (seq a (length l)) l) j
    = option_map (fun r => ((a + j)%nat, r)) (nth_error l j).
Proof.
  induction l as [|x l IH]; intros a j; simpl.
  - destruct j; reflexivity.
  - destruct j as [|j]; simpl.
    + rewrite Nat.add_0_r. reflexivity.
    + rewrite IH. rewrite Nat.add_succ_r. reflexivity.
Qed.

Lemma GetRow_In_logicalRows (c : Chunk) (i : nat) (r : Row) :
  GetRow c i = Some r -> In r (logicalRows c).
Proof.
  unfold GetRow, logicalRows. destruct (chkSel c) as [s|].
  - destruct (nth_error s i) as [j|] eqn:E; [|discriminate].
    intros H. apply in_flat_map. exists j.
    split; [eapply nth_error_In; exact E|]. rewrite H. left. reflexivity.
  - apply nth_error_In.
Qed.

Lemma In_logicalRows_GetRow (c : Chunk) (r : Row) :
  In r (logicalRows c) ->
  exists i, (i < NumRows c)%nat /\ GetRow c i = Some r.
Proof.
  unfold GetRow, logicalRows, NumRows. destruct (chkSel c) as [s|].
  - intros H. apply in_flat_map in H. destruct H as (j & Hj & Hr).
    destruct (nth_error (chkRows c) j) as [r'|] eqn:E; [|contradiction].
    destruct Hr as [Hr|[]]. subst r'.
    apply In_nth_error in Hj. destruct Hj as [i Hi].
    exists i. split.
    + apply nth_error_Some. rewrite Hi. discriminate.
    + rewrite Hi. exact E.
  - intros H. apply In_nth_error in H. destruct H as [i Hi].
    exists i. split; [|exact Hi].
    apply nth_error_Some. rewrite Hi. discriminate.
Qed.

Lemma rowsAt_app (c : Chunk) (s : list nat) (phys : nat) (r : Row) :
  nth_error (chkRows c) phys = Some r ->
  rowsAt c (s ++ [phys]) = rowsAt c s ++ [r].
Proof.
  intros H. unfold rowsAt, logicalRows, SetSel. simpl.
  rewrite flat_map_app. simpl. rewrite H. reflexivity.
Qed.

Lemma GetRow_SetSel (c : Chunk) (s : list nat) (i phys : nat) :
  nth_error s i = Some phys ->
  GetRow (SetSel c s) i = nth_error (chkRows c) phys.
Proof. intros H. unfold GetRow, SetSel. simpl. rewrite H. reflexivity. Qed.

Lemma NumRows_zero_rows (c : Chunk) :
  NumRows c = 0%nat -> logicalRows c = [].
Proof.
  unfold NumRows, logicalRows. destruct (chkSel c) as [s|]; intros H.
  - destruct s; [reflexivity | discriminate].
  - destruct (chkRows c); [reflexivity | discriminate].
Qed.

Section DedupFacts.

Variable hashRow : Row -> Z.

(** What [computeChunkHash] provides for a well-formed chunk: through the
    returned selection every logical row is found at its physical index,
    with its hash. *)
Lemma computeChunkHash_facts (psel : list nat) (c : Chunk)
      (selOri : list nat) (hv : list Z) (ps' : list nat) :
  psel = seq 0 (length psel) ->
  wfChunk c ->
  computeChunkHash hashRow psel c = (selOri, hv, ps') ->
  ps' = seq 0 (length ps') /\
  forall i, (i < NumRows c)%nat ->
    exists phys r,
      nth_error selOri i = Some phys /\
      nth_error (chkRows c) phys = Some r /\
      GetRow c i = Some r /\
      nth_error hv phys = Some (hashRow r).
Proof.
  intros Hps Hwf H. unfold computeChunkHash in H.
  unfold wfChunk in Hwf. unfold NumRows, GetRow, hashValsOf in *.
  destruct (chkSel c) as [s|] eqn:Es; inversion H as [[H1 H2 H3]];
    subst selOri hv ps'; clear H.
  - split; [exact Hps|]. intros i Hi.
    destruct (nth_error s i) as [phys|] eqn:Ei;
      [|apply nth_error_None in Ei; lia].
    assert (Hphys : (phys < length (chkRows c))%nat).
    { rewrite Forall_forall in Hwf. apply Hwf.
      eapply nth_error_In. exact Ei. }
    destruct (nth_error (chkRows c) phys) as [r|] eqn:Er;
      [|apply nth_error_None in Er; lia].
    exists phys, r. split; [reflexivity|]. split; [exact Er|].
    split; [reflexivity|].
    rewrite nth_error_map, nth_error_combine_seq, Er. simpl.
    replace (existsb (Nat.eqb phys) s) with true; [reflexivity|].
    symmetry. apply existsb_exists. exists phys.
    split; [eapply nth_error_In; exact Ei | apply Nat.eqb_refl].
  - rewrite Hps, growSel_seq. split; [rewrite length_seq; reflexivity|].
    intros i Hi.
    destruct (nth_error (chkRows c) i) as [r|] eqn:Er;
      [|apply nth_error_None in Er; lia].
    exists i, r. split; [apply nth_error_seq0; lia|].
    repeat split; try assumption.
    rewrite nth_error_map, Er. reflexivity.
Qed.

(** *** Stage 2: duplicates inside the incoming chunk *)

Lemma stage2_spec (c : Chunk) (st : Storage) (hv : list Z)
      (selOri : list nat) :
  (N.of_nat (NumRows c) < 2 ^ 32)%N ->
  (forall i, (i < NumRows c)%nat ->
     exists phys r,
       nth_error selOri i = Some phys /\
       nth_error (chkRows c) phys = Some r /\
       GetRow c i = Some r /\
       nth_error hv phys = Some (hashRow r)) ->
  forall m k selChk T,
    (k + m = NumRows c)%nat ->
    (forall key ptr, In (key, ptr) T ->
       exists i r, (i < k)%nat /\ ptr = mkRowPtr (u32 0) (u32 i) /\
                   GetRow c i = Some r /\ In r (rowsAt c selChk) /\
                   key = hashRow r) ->
    (forall r, In r (rowsAt c selChk) ->
       exists i, (i < k)%nat /\ GetRow c i = Some r /\
                 In (hashRow r, mkRowPtr (u32 0) (u32 i)) T) ->
    NoDup (rowsAt c selChk) ->
    (forall i r, (i < k)%nat -> GetRow c i = Some r ->
                 In r (rowsAt c selChk)) ->
    (forall phys, In phys selChk ->
       exists r, nth_error (chkRows c) phys = Some r /\
                 nth_error hv phys = Some (hashRow r)) ->
    exists selF,
      dedupInChunk c st hv selOri (seq k m) selChk T = Ok selF /\
      NoDup (rowsAt c selF) /\
      (forall i r, (i < NumRows c)%nat -> GetRow c i = Some r ->
                   In r (rowsAt c selF)) /\
      (forall r, In r (rowsAt c selF) -> In r (logicalRows c)) /\
      (forall phys, In phys selF ->
         exists r, nth_error (chkRows c) phys = Some r /\
                   nth_error hv phys = Some (hashRow r)) /\
      (length selF <= length selChk + m)%nat.
Proof.
  intros H32 Hfacts. induction m as [|m IH];
    intros k selChk T Hk I1 I2 I3 I4 I5.
  - exists selChk. simpl. split; [reflexivity|]. split; [exact I3|].
    split; [intros i r Hi; apply I4; lia|].
    split; [|split; [exact I5 | lia]].
    intros r Hr. destruct (I2 r Hr) as (i & _ & Hg & _).
    eapply GetRow_In_logicalRows. exact Hg.
  - assert (Hkn : (k < NumRows c)%nat) by lia.
    destruct (Hfacts k Hkn) as (phys & r & Hsel & Hrow & Hget & Hhash).
    cbn [seq dedupInChunk]. rewrite Hsel. cbn [fault bind].
    rewrite Hhash. cbn [fault bind]. rewrite Hget. cbn [fault bind].
    destruct (checkPtrs_total r (Some c) st (htGet T (hashRow r)))
      as (b & Hb & Hiff).
    { intros ptr Hptr. apply In_htGet in Hptr.
      destruct (I1 _ _ Hptr) as (i & r' & Hi & Hp & Hg & _).
      subst ptr. simpl. rewrite u32_small by lia. rewrite Hg.
      discriminate. }
    unfold checkHasDup. rewrite Hb. cbn [bind].
    assert (Hbin : b = true <-> In r (rowsAt c selChk)).
    { rewrite Hiff. split.
      - intros (ptr & Hptr & Hres). apply In_htGet in Hptr.
        destruct (I1 _ _ Hptr) as (i & r' & Hi & Hp & Hg & Hin & _).
        subst ptr. simpl in Hres. rewrite u32_small in Hres by lia.
        rewrite Hg in Hres. inversion Hres; subst r'. exact Hin.
      - intros Hin. destruct (I2 r Hin) as (i & Hi & Hg & HT).
        exists (mkRowPtr (u32 0) (u32 i)).
        split; [apply In_htGet; exact HT|].
        simpl. rewrite u32_small by lia. exact Hg. }
    destruct b.
    + (* a duplicate of a row kept before *)
      destruct (IH (S k) selChk T) as (selF & Hr & P); try assumption.
      * lia.
      * intros key ptr Hin.
        destruct (I1 _ _ Hin) as (i & r' & Hi & Hrest).
        exists i, r'. split; [lia | exact Hrest].
      * intros r' Hin. destruct (I2 r' Hin) as (i & Hi & Hrest).
        exists i. split; [lia | exact Hrest].
      * intros i r' Hi Hg.
        destruct (Nat.eq_dec i k) as [->|Hne].
        -- rewrite Hget in Hg. inversion Hg; subst r'.
           apply Hbin. reflexivity.
        -- apply (I4 i r'); [lia | exact Hg].
      * exists selF. split; [exact Hr|].
        destruct P as (P1 & P2 & P3 & P4 & P5).
        repeat split; try assumption. lia.
    + (* a new row: kept and registered *)
      assert (Hnotin : ~ In r (rowsAt c selChk)).
      { intros Hin. apply Hbin in Hin. discriminate. }
      destruct (IH (S k) (selChk ++ [phys])
                  (htPut T (hashRow r) (mkRowPtr (u32 0) (u32 k))))
        as (selF & Hr & P).
      * lia.
      * intros key ptr Hin. unfold htPut in Hin.
        apply in_app_or in Hin. destruct Hin as [Hin|[Hin|[]]].
        -- destruct (I1 _ _ Hin) as (i & r' & Hi & Hp & Hg & Hin' & Hkey).
           exists i, r'. split; [lia|]. split; [exact Hp|].
           split; [exact Hg|]. split; [|exact Hkey].
           rewrite (rowsAt_app c selChk phys r Hrow).
           apply in_or_app. left. exact Hin'.
        -- inversion Hin; subst key ptr. exists k, r.
           split; [lia|]. split; [reflexivity|]. split; [exact Hget|].
           split; [|reflexivity].
           rewrite (rowsAt_app c selChk phys r Hrow).
           apply in_or_app. right. left. reflexivity.
      * intros r' Hin. rewrite (rowsAt_app c selChk phys r Hrow) in Hin.
        apply in_app_or in Hin. destruct Hin as [Hin|[Hin|[]]].
        -- destruct (I2 r' Hin) as (i & Hi & Hg & HT).
           exists i. split; [lia|]. split; [exact Hg|].
           unfold htPut. apply in_or_app. left. exact HT.
        -- subst r'. exists k. split; [lia|]. split; [exact Hget|].
           unfold htPut. apply in_or_app. right. left. reflexivity.
      * rewrite (rowsAt_app c selChk phys r Hrow).
        apply NoDup_app; [exact I3 | repeat constructor; intros [] |].
        intros a Ha [Hr|[]]. subst a. contradiction.
      * intros i r' Hi Hg.
        rewrite (rowsAt_app c selChk phys r Hrow). apply in_or_app.
        destruct (Nat.eq_dec i k) as [->|Hne].
        -- rewrite Hget in Hg. inversion Hg; subst r'.
           right. left. reflexivity.
        -- left. apply (I4 i r'); [lia | exact Hg].
      * intros phys' Hin. apply in_app_or in Hin.
        destruct Hin as [Hin|[Hin|[]]]; [apply I5; exact Hin|].
        subst phys'. exists r. split; assumption.
      * exists selF. split; [exact Hr|].
        destruct P as (P1 & P2 & P3 & P4 & P5).
        repeat split; try assumption.
        rewrite length_app in P5. simpl in P5. lia.
Qed.

Lemma stage2_start (c : Chunk) (st : Storage) (hv : list Z)
      (selOri : list nat) :
  (N.of_nat (NumRows c) < 2 ^ 32)%N ->
  (forall i, (i < NumRows c)%nat ->
     exists phys r,
       nth_error selOri i = Some phys /\
       nth_error (chkRows c) phys = Some r /\
       GetRow c i = Some r /\
       nth_error hv phys = Some (hashRow r)) ->
  exists selF,
    dedupInChunk c st hv selOri (seq 0 (NumRows c)) []
      newConcurrentMapHashTable = Ok selF /\
    NoDup (rowsAt c selF) /\
    (forall i r, (i < NumRows c)%nat -> GetRow c i = Some r ->
                 In r (rowsAt c selF)) /\
    (forall r, In r (rowsAt c selF) -> In r (logicalRows c)) /\
    (forall phys, In phys selF ->
       exists r, nth_error (chkRows c) phys = Some r /\
                 nth_error hv phys = Some (hashRow r)) /\
    (length selF <= NumRows c)%nat.
Proof.
  intros H32 Hfacts.
  apply (stage2_spec c st hv selOri H32 Hfacts (NumRows c) 0 []
           newConcurrentMapHashTable).
  - reflexivity.
  - intros key ptr [].
  - intros r [].
  - constructor.
  - intros i r Hi. lia.
  - intros phys [].
Qed.

(** *** Stage 3: duplicates of rows of the table *)

Lemma checkHasDup_indexed (st : Storage) (h : baseHashTable) (r : Row) :
  htValid st h -> indexed hashRow st h r ->
  checkHasDup (hashRow r) r None st h = Ok true.
Proof.
  intros Hv (ptr & Hin & Hres). unfold checkHasDup.
  destruct (checkPtrs_total r None st (htGet h (hashRow r)))
    as (b & Hb & Hiff).
  - intros q Hq. apply In_htGet in Hq. simpl. eapply Hv. exact Hq.
  - rewrite Hb. f_equal. apply Hiff. exists ptr.
    split; [apply In_htGet; exact Hin | exact Hres].
Qed.

Lemma stage3_all_dup (c2 : Chunk) (st : Storage) (hv : list Z)
      (selChk : list nat) (chkIdx : nat) (h : baseHashTable) :
  htValid st h ->
  forall idxs selSt,
    (forall i, In i idxs ->
       exists phys r,
         nth_error selChk i = Some phys /\
         nth_error hv phys = Some (hashRow r) /\
         GetRow c2 i = Some r /\ indexed hashRow st h r) ->
    dedupInStorage c2 st hv selChk chkIdx idxs selSt h = Ok (selSt, h).
Proof.
  intros Hv. induction idxs as [|i rest IH]; intros selSt H;
    [reflexivity|].
  destruct (H i (or_introl eq_refl)) as (phys & r & Hs & Hh & Hg & Hi).
  cbn [dedupInStorage]. rewrite Hs. cbn [fault bind].
  rewrite Hh. cbn [fault bind]. rewrite Hg. cbn [fault bind].
  rewrite (checkHasDup_indexed st h r Hv Hi). cbn [bind].
  apply IH. intros i' Hi'. apply H. right. exact Hi'.
Qed.

Lemma stage3_post (c2 : Chunk) (st : Storage) (hv : list Z)
      (selChk : list nat) (chkIdx : nat) :
  forall idxs selSt h selF hF,
    dedupInStorage c2 st hv selChk chkIdx idxs selSt h = Ok (selF, hF) ->
    exists selNew hNew,
      selF = selSt ++ selNew /\ hF = h ++ hNew /\
      (forall key ptr, In (key, ptr) hNew ->
         exists j phys,
           ptr = mkRowPtr (u32 chkIdx) (u32 j) /\
           (length selSt <= j)%nat /\
           nth_error selF j = Some phys /\ In phys selChk) /\
      (forall i, In i idxs ->
         exists phys key r,
           nth_error selChk i = Some phys /\
           nth_error hv phys = Some key /\
           GetRow c2 i = Some r /\
           ((exists ptr, In (key, ptr) hF /\ stGetRow st ptr = Some r)
            \/ (exists j, nth_error selF j = Some phys /\
                          In (key, mkRowPtr (u32 chkIdx) (u32 j)) hF))).
Proof.
  induction idxs as [|i rest IH]; intros selSt h selF hF H.
  - simpl in H. inversion H; subst. exists [], [].
    rewrite !app_nil_r. split; [reflexivity|]. split; [reflexivity|].
    split; [intros key ptr []|intros i []].
  - cbn [dedupInStorage] in H.
    destruct (nth_error selChk i) as [phys|] eqn:Hs; [|discriminate].
    cbn [fault bind] in H.
    destruct (nth_error hv phys) as [key|] eqn:Hh; [|discriminate].
    cbn [fault bind] in H.
    destruct (GetRow c2 i) as [r|] eqn:Hg; [|discriminate].
    cbn [fault bind] in H.
    destruct (checkHasDup key r None st h) as [b|] eqn:Hc;
      [|discriminate].
    cbn [bind] in H. destruct b.
    + destruct (IH _ _ _ _ H) as (selNew & hNew & E1 & E2 & N1 & N2).
      exists selNew, hNew. split; [exact E1|]. split; [exact E2|].
      split; [exact N1|].
      intros i' [Hi'|Hi']; [subst i'|apply N2; exact Hi'].
      exists phys, key, r. split; [exact Hs|]. split; [exact Hh|].
      split; [exact Hg|]. left.
      unfold checkHasDup in Hc. apply checkPtrs_true in Hc.
      destruct Hc as (ptr & Hin & Hres). exists ptr.
      split; [|exact Hres]. subst hF. apply in_or_app. left.
      apply In_htGet. exact Hin.
    + destruct (IH _ _ _ _ H) as (selNew & hNew & E1 & E2 & N1 & N2).
      exists (phys :: selNew),
        ((key, mkRowPtr (u32 chkIdx) (u32 (length selSt))) :: hNew).
      rewrite <- app_assoc in E1. simpl in E1.
      unfold htPut in E2. rewrite <- app_assoc in E2. simpl in E2.
      split; [exact E1|]. split; [exact E2|].
      assert (Hj : nth_error selF (length selSt) = Some phys).
      { rewrite E1. rewrite nth_error_app2 by lia.
        rewrite Nat.sub_diag. reflexivity. }
      split.
      * intros key' ptr' [Hin|Hin].
        -- inversion Hin; subst key' ptr'.
           exists (length selSt), phys. split; [reflexivity|].
           split; [lia|]. split; [exact Hj|].
           eapply nth_error_In. exact Hs.
        -- destruct (N1 _ _ Hin) as (j & phys' & A & B' & C & D).
           exists j, phys'. split; [exact A|].
           rewrite length_app in B'. simpl in B'.
           split; [lia|]. split; assumption.
      * intros i' [Hi'|Hi']; [subst i'|apply N2; exact Hi'].
        exists phys, key, r. split; [exact Hs|]. split; [exact Hh|].
        split; [exact Hg|]. right. exists (length selSt).
        split; [exact Hj|]. rewrite E2. apply in_or_app. right.
        left. reflexivity.
Qed.

Lemma stGetRow_added (st : Storage) (c : Chunk) (j : nat) :
  NumRows c <> 0%nat ->
  (N.of_nat (NumChunks st) < 2 ^ 32)%N ->
  (N.of_nat j < 2 ^ 32)%N ->
  stGetRow (stAdd st c) (mkRowPtr (u32 (NumChunks st)) (u32 j))
  = GetRow c j.
Proof.
  intros Hn Hc Hj. unfold stGetRow, stAdd.
  apply Nat.eqb_neq in Hn. rewrite Hn. simpl.
  rewrite !u32_small by assumption. unfold NumChunks.
  rewrite nth_error_app2 by lia. rewrite Nat.sub_diag. reflexivity.
Qed.

Lemma In_rowsAt (c : Chunk) (s : list nat) (r : Row) :
  In r (rowsAt c s) ->
  exists phys, In phys s /\ nth_error (chkRows c) phys = Some r.
Proof.
  unfold rowsAt, logicalRows, SetSel. simpl. intros H.
  apply in_flat_map in H. destruct H as (phys & Hin & Hr).
  exists phys. split; [exact Hin|].
  destruct (nth_error (chkRows c) phys) as [r'|]; [|contradiction].
  destruct Hr as [->|[]]. reflexivity.
Qed.

(** *** The first insertion of a chunk *)

Lemma first_insert_post (psel : list nat) (chk : Chunk) (st : Storage)
      (h : baseHashTable) (chk1 : Chunk) (st1 : Storage)
      (h1 : option baseHashTable) (ps1 : list nat) :
  psel = seq 0 (length psel) ->
  wfChunk chk ->
  (N.of_nat (NumRows chk) < 2 ^ 32)%N ->
  (N.of_nat (NumChunks st) < 2 ^ 32)%N ->
  htValid st h ->
  tryDedupAndAdd hashRow true psel chk st (Some h)
  = Ok (chk1, st1, h1, ps1) ->
  exists h1', h1 = Some h1' /\
    htValid st1 h1' /\
    (forall r, In r (logicalRows chk) -> indexed hashRow st1 h1' r) /\
    ps1 = seq 0 (length ps1).
Proof.
  intros Hps Hwf H32 Hc32 Hv H.
  unfold tryDedupAndAdd, deduplicate in H.
  destruct (Nat.eqb (NumRows chk) 0) eqn:En.
  - cbn [bind] in H. inversion H; subst. exists h.
    apply Nat.eqb_eq in En.
    split; [reflexivity|]. unfold stAdd. rewrite En. simpl.
    split; [exact Hv|]. split; [|exact Hps].
    intros r Hr. rewrite (NumRows_zero_rows chk1 En) in Hr. destruct Hr.
  - destruct (computeChunkHash hashRow psel chk) as [[selOri hv] ps']
      eqn:Ech.
    destruct (computeChunkHash_facts psel chk selOri hv ps' Hps Hwf Ech)
      as (Hps' & Hfacts).
    destruct (stage2_start chk st hv selOri H32 Hfacts)
      as (selF & Hst2 & _ & P2 & _ & P4 & P5).
    rewrite Hst2 in H. cbn [bind fault] in H.
    destruct (dedupInStorage (SetSel chk selF) st hv selF (NumChunks st)
                (seq 0 (length selF)) [] h) as [[selSt hF]|] eqn:Est3;
      [|discriminate].
    cbn [bind] in H. inversion H; subst chk1 st1 h1 ps1. clear H.
    destruct (stage3_post _ _ _ _ _ _ _ _ _ _ Est3)
      as (selNew & hNew & E1 & E2 & N1 & N2).
    simpl in E1. subst selNew.
    set (c1 := SetSel (SetSel chk selF) selSt).
    assert (Hlen : (length selSt <= length selF)%nat).
    { assert (G : forall idxs s0 h0 sF hF0,
                 dedupInStorage (SetSel chk selF) st hv selF (NumChunks st)
                   idxs s0 h0 = Ok (sF, hF0) ->
                 (length sF <= length s0 + length idxs)%nat).
      { clear. induction idxs as [|i rest IH]; intros s0 h0 sF hF0 H.
        - simpl in H. inversion H; subst. simpl. lia.
        - cbn [dedupInStorage] in H.
          destruct (nth_error selF i) as [phys|]; [|discriminate].
          cbn [fault bind] in H.
          destruct (nth_error hv phys) as [key|]; [|discriminate].
          cbn [fault bind] in H.
          destruct (GetRow (SetSel chk selF) i) as [r|]; [|discriminate].
          cbn [fault bind] in H.
          destruct (checkHasDup key r None st h0) as [[]|];
            [| |discriminate];
            cbn [bind] in H; apply IH in H;
            try rewrite length_app in H; simpl in *; lia. }
      pose proof (G _ _ _ _ _ Est3) as Hl.
      rewrite length_seq in Hl. simpl in Hl. exact Hl. }
    assert (Hkept : forall j phys,
               nth_error selSt j = Some phys -> In phys selF ->
               stGetRow (stAdd st c1)
                 (mkRowPtr (u32 (NumChunks st)) (u32 j))
               = nth_error (chkRows chk) phys).
    { intros j phys Hj Hin.
      assert (Hjl : (j < length selSt)%nat)
        by (apply nth_error_Some; rewrite Hj; discriminate).
      rewrite stGetRow_added.
      - unfold c1. exact (GetRow_SetSel (SetSel chk selF) selSt j phys Hj).
      - unfold c1, NumRows. simpl. lia.
      - exact Hc32.
      - lia. }
    exists hF. split; [reflexivity|]. split; [|split; [|exact Hps']].
    + intros key ptr Hin. rewrite E2 in Hin.
      apply in_app_or in Hin. destruct Hin as [Hin|Hin].
      * destruct (stGetRow st ptr) as [r|] eqn:Er;
          [|exfalso; exact (Hv _ _ Hin Er)].
        rewrite (stGetRow_stAdd_old st c1 ptr r Er). discriminate.
      * destruct (N1 _ _ Hin) as (j & phys & Hp & _ & Hj & Hphys).
        subst ptr. rewrite (Hkept j phys Hj Hphys).
        destruct (P4 phys Hphys) as (r & Hr & _). rewrite Hr.
        discriminate.
    + intros r Hr.
      destruct (In_logicalRows_GetRow chk r Hr) as (i & Hi & Hg).
      pose proof (P2 i r Hi Hg) as Hin.
      destruct (In_rowsAt chk selF r Hin) as (phys & Hphys & Hrow).
      destruct (In_nth_error _ _ Hphys) as [i2 Hi2].
      assert (Hi2l : (i2 < length selF)%nat)
        by (apply nth_error_Some; rewrite Hi2; discriminate).
      destruct (N2 i2) as (phys' & key & r' & A & B' & C & D).
      { apply in_seq. lia. }
      rewrite Hi2 in A. inversion A; subst phys'.
      rewrite (GetRow_SetSel chk selF i2 phys Hi2), Hrow in C.
      inversion C; subst r'.
      destruct (P4 phys Hphys) as (r2 & Hr2 & Hk).
      rewrite Hrow in Hr2. inversion Hr2; subst r2.
      rewrite B' in Hk. inversion Hk; subst key.
      destruct D as [(ptr & Hin1 & Hres)|(j & Hj & Hin1)].
      * exists ptr. split; [exact Hin1|].
        apply stGetRow_stAdd_old. exact Hres.
      * exists (mkRowPtr (u32 (NumChunks st)) (u32 j)).
        split; [exact Hin1|].
        rewrite (Hkept j phys Hj Hphys). exact Hrow.
Qed.

(** *** Inserting rows the table already holds *)

Lemma insert_known_rows (psel : list nat) (chk : Chunk) (st : Storage)
      (h : baseHashTable) :
  psel = seq 0 (length psel) ->
  wfChunk chk ->
  (N.of_nat (NumRows chk) < 2 ^ 32)%N ->
  htValid st h ->
  (forall r, In r (logicalRows chk) -> indexed hashRow st h r) ->
  exists chk2 ps2,
    tryDedupAndAdd hashRow true psel chk st (Some h)
    = Ok (chk2, st, Some h, ps2) /\
    NumRows chk2 = 0%nat.
Proof.
  intros Hps Hwf H32 Hv Hidx.
  unfold tryDedupAndAdd, deduplicate.
  destruct (Nat.eqb (NumRows chk) 0) eqn:En.
  - cbn [bind]. apply Nat.eqb_eq in En.
    exists chk, psel. unfold stAdd. rewrite En. simpl.
    split; [destruct st; reflexivity | reflexivity].
  - destruct (computeChunkHash hashRow psel chk) as [[selOri hv] ps']
      eqn:Ech.
    destruct (computeChunkHash_facts psel chk selOri hv ps' Hps Hwf Ech)
      as (Hps' & Hfacts).
    destruct (stage2_start chk st hv selOri H32 Hfacts)
      as (selF & Hst2 & _ & _ & P3 & P4 & _).
    rewrite Hst2. cbn [bind fault].
    rewrite (stage3_all_dup (SetSel chk selF) st hv selF (NumChunks st) h
               Hv (seq 0 (length selF)) []).
    + cbn [bind]. exists (SetSel (SetSel chk selF) []), ps'.
      split; [|reflexivity].
      unfold stAdd. simpl. reflexivity.
    + intros i Hi. apply in_seq in Hi.
      destruct (nth_error selF i) as [phys|] eqn:Es;
        [|apply nth_error_None in Es; lia].
      assert (Hphys : In phys selF) by (eapply nth_error_In; exact Es).
      destruct (P4 phys Hphys) as (r & Hr & Hk).
      exists phys, r. split; [reflexivity|]. split; [exact Hk|].
      split; [rewrite (GetRow_SetSel chk selF i phys Es); exact Hr|].
      apply Hidx. apply P3. unfold rowsAt, logicalRows, SetSel. simpl.
      apply in_flat_map. exists phys. split; [exact Hphys|].
      rewrite Hr. left. reflexivity.
Qed.

(** C3.  In DISTINCT mode, after a chunk has been inserted into a table
    whose hash index is valid, inserting any chunk with the same rows
    (the same multiset, in any order) again leaves the table as it is, so
    its row count is the count after the first insertion.  And stage 2
    collapses the duplicates inside one incoming chunk: the rows it keeps
    are pairwise different and are exactly the rows that occur in the
    chunk. *)
Theorem distinct_insert_idempotent (psel : list nat) (chk chk' : Chunk)
        (st : Storage) (h : baseHashTable) (chk1 : Chunk) (st1 : Storage)
        (h1 : option baseHashTable) (ps1 : list nat) :
  psel = seq 0 (length psel) ->
  wfChunk chk -> wfChunk chk' ->
  (N.of_nat (NumRows chk) < 2 ^ 32)%N ->
  (N.of_nat (NumRows chk') < 2 ^ 32)%N ->
  (N.of_nat (NumChunks st) < 2 ^ 32)%N ->
  htValid st h ->
  tryDedupAndAdd hashRow true psel chk st (Some h)
  = Ok (chk1, st1, h1, ps1) ->
  Permutation (logicalRows chk') (logicalRows chk) ->
  (exists chk2 st2 h2 ps2,
      tryDedupAndAdd hashRow true ps1 chk' st1 h1
      = Ok (chk2, st2, h2, ps2) /\
      st2 = st1 /\ stNumRows st2 = stNumRows st1) /\
  (exists selChk,
      dedupInChunk chk st
        (snd (fst (computeChunkHash hashRow psel chk)))
        (fst (fst (computeChunkHash hashRow psel chk)))
        (seq 0 (NumRows chk)) [] newConcurrentMapHashTable = Ok selChk /\
      NoDup (logicalRows (SetSel chk selChk)) /\
      (forall r, In r (logicalRows (SetSel chk selChk)) <->
                 In r (logicalRows chk))).
Proof.
  intros Hps Hwf Hwf' H32 H32' Hc32 Hv Hins Hperm.
  split.
  - destruct (first_insert_post psel chk st h chk1 st1 h1 ps1
                Hps Hwf H32 Hc32 Hv Hins)
      as (h1' & Hh1 & Hv1 & Hidx & Hps1).
    subst h1.
    destruct (insert_known_rows ps1 chk' st1 h1' Hps1 Hwf' H32' Hv1)
      as (chk2 & ps2 & Hsecond & _).
    + intros r Hr. apply Hidx.
      eapply Permutation_in; [exact Hperm | exact Hr].
    + exists chk2, st1, (Some h1'), ps2.
      split; [exact Hsecond|]. split; reflexivity.
  - destruct (computeChunkHash hashRow psel chk) as [[selOri hv] ps']
      eqn:Ech.
    destruct (computeChunkHash_facts psel chk selOri hv ps' Hps Hwf Ech)
      as (_ & Hfacts).
    destruct (stage2_start chk st hv selOri H32 Hfacts)
      as (selF & Hst2 & P1 & P2 & P3 & _ & _).
    exists selF. simpl. split; [exact Hst2|]. split; [exact P1|].
    intros r. split; [apply P3|].
    intros Hr. destruct (In_logicalRows_GetRow chk r Hr) as (i & Hi & Hg).
    apply (P2 i r Hi Hg).
Qed.

End DedupFacts.

Lemma distinct_insert_idempotent_witness :
  exists chk1 st1 h1 ps1,
    tryDedupAndAdd firstColumnHash true [0; 1]%nat dupChunk emptyStorage
      (Some newConcurrentMapHashTable) = Ok (chk1, st1, h1, ps1) /\
    stRows st1 = [[1; 10]; [2; 5]] /\
    exists chk2 st2 h2 ps2,
      tryDedupAndAdd firstColumnHash true ps1 dupChunkPermuted st1 h1
      = Ok (chk2, st2, h2, ps2) /\
      stNumRows st2 = 2%nat.
Proof.
  do 4 eexists. split; [vm_compute; reflexivity|].
  split; [reflexivity|].
  destruct (distinct_insert_idempotent firstColumnHash [0; 1]%nat
              dupChunk dupChunkPermuted emptyStorage
              newConcurrentMapHashTable
              (mkChunk [[1; 10]; [2; 5]; [1; 10]] (Some [0; 1]%nat))
              (mkStorage
                 [mkChunk [[1; 10]; [2; 5]; [1; 10]] (Some [0; 1]%nat)]
                 false None 0 0)
              (Some [(1, mkRowPtr 0 0); (2, mkRowPtr 0 1)])
              [0; 1; 2]%nat)
    as [(chk2 & st2 & h2 & ps2 & A & B & C) _].
  - reflexivity.
  - exact I.
  - exact I.
  - reflexivity.
  - reflexivity.
  - reflexivity.
  - intros key ptr [].
  - vm_compute. reflexivity.
  - apply perm_swap.
  - exists chk2, st2, h2, ps2. split; [exact A|]. rewrite C. reflexivity.
Defined.

(** With the limit already satisfied by the seed rows no iteration would
    run, and yet the depth comparison at the entry of the recursive part is
    made and fails the evaluation. *)
Lemma depth_checked_although_no_iteration_would_run :
  exists ps p',
    computeSeedPart firstColumnHash 5 limitOneNoRecursion
    = Some (Ok tt, ps) /\
    limitDone ps (resTbl ps) = true /\
    produce firstColumnHash 5 limitOneNoRecursion
    = Some (Err (ErrCTEMaxRecursionDepth 1), p').
Proof.
  do 2 eexists. split; [vm_compute; reflexivity|].
  split; vm_compute; reflexivity.
Qed.

(** * Further properties of the code *)

(** ** Task metadata *)

(** X1.  Serialising a task meta and unserialising the bytes gives the meta
    back: always for the global meta, and for the sub-task meta whenever
    [encoding/json] round-trips its numbers. *)
Theorem task_meta_round_trip :
  (forall g, Proto.UnSerializeGlobalTaskMeta (Proto.SerializeG g)
             = Ok (Some g)) /\
  (forall (Ints : Type) (nilInts : Ints)
          (jsonMarshal : Ints -> result (list Byte.byte))
          (jsonUnmarshal : list Byte.byte -> Ints -> Ints * option error)
          (m : Proto.SimpleNumberSTaskMeta Ints) (js : list Byte.byte),
      jsonMarshal (Proto.Numbers Ints m) = Ok js ->
      jsonUnmarshal js nilInts = (Proto.Numbers Ints m, None) ->
      Proto.UnSerializeSubTaskMeta Ints nilInts jsonUnmarshal
        (Proto.SerializeS Ints jsonMarshal m) = Ok (Some m)).
Proof.
  split.
  - intros []. reflexivity.
  - intros Ints nilInts jm ju [numbers] js Hm Hu. simpl in Hm, Hu.
    unfold Proto.SerializeS. simpl. rewrite Hm. simpl. rewrite Hu.
    reflexivity.
Qed.

Lemma task_meta_round_trip_witness :
  Proto.UnSerializeSubTaskMeta (list Byte.byte) [] rawUnmarshal
    (Proto.SerializeS (list Byte.byte) rawMarshal
       (Proto.mkSTaskMeta (list Byte.byte) [Byte.x5b; Byte.x37; Byte.x5d]))
  = Ok (Some (Proto.mkSTaskMeta (list Byte.byte)
                [Byte.x5b; Byte.x37; Byte.x5d])).
Proof.
  apply (proj2 task_meta_round_trip (list Byte.byte) [] rawMarshal
           rawUnmarshal _ [Byte.x5b; Byte.x37; Byte.x5d]); reflexivity.
Defined.

(** X2.  The edges of unserialising.  An empty byte slice is a run-time
    fault; a first byte other than [0x1] gives the nil meta; with first byte
    [0x1] a sub-task meta is returned whatever [json.Unmarshal] reports (its
    error is dropped).  What [Serialize] returns always starts with [0x1],
    also when [json.Marshal] fails, so unserialising it neither faults nor
    gives nil; and since both kinds of meta use the tag [0x1], the bytes of
    a sub-task meta unserialise as a global meta too. *)
Theorem task_meta_unserialize_edges
        (Ints : Type) (nilInts : Ints)
        (jsonMarshal : Ints -> result (list Byte.byte))
        (jsonUnmarshal : list Byte.byte -> Ints -> Ints * option error) :
  Proto.UnSerializeGlobalTaskMeta [] = Err ErrPanic /\
  Proto.UnSerializeSubTaskMeta Ints nilInts jsonUnmarshal [] = Err ErrPanic /\
  (forall b0 rest,
      b0 <> Byte.x01 ->
      Proto.UnSerializeGlobalTaskMeta (b0 :: rest) = Ok None /\
      Proto.UnSerializeSubTaskMeta Ints nilInts jsonUnmarshal (b0 :: rest)
      = Ok None) /\
  (forall rest,
      Proto.UnSerializeSubTaskMeta Ints nilInts jsonUnmarshal
        (Byte.x01 :: rest)
      = Ok (Some (Proto.mkSTaskMeta Ints
                    (fst (jsonUnmarshal rest nilInts))))) /\
  (forall m,
      exists payload,
        Proto.SerializeS Ints jsonMarshal m = Byte.x01 :: payload /\
        (forall e, jsonMarshal (Proto.Numbers Ints m) = Err e ->
                   payload = []) /\
        Proto.UnSerializeGlobalTaskMeta (Proto.SerializeS Ints jsonMarshal m)
        = Ok (Some Proto.SimpleNumberGTaskMeta)).
Proof.
  split; [reflexivity|]. split; [reflexivity|]. split; [|split].
  - intros b0 rest Hne.
    assert (E : Byte.eqb b0 Byte.x01 = false).
    { destruct (Byte.eqb b0 Byte.x01) eqn:E; [|reflexivity].
      apply Byte.byte_dec_bl in E. contradiction. }
    unfold Proto.UnSerializeGlobalTaskMeta, Proto.UnSerializeSubTaskMeta.
    rewrite E. split; reflexivity.
  - intros rest. unfold Proto.UnSerializeSubTaskMeta. simpl.
    destruct (jsonUnmarshal rest nilInts). reflexivity.
  - intros m. unfold Proto.SerializeS.
    destruct (jsonMarshal (Proto.Numbers Ints m)) as [js|e0].
    + exists js. split; [reflexivity|]. split; [discriminate | reflexivity].
    + exists []. split; [reflexivity|]. split; reflexivity.
Qed.

Lemma task_meta_unserialize_edges_witness :
  Proto.UnSerializeGlobalTaskMeta [Byte.x02; Byte.x5b] = Ok None /\
  Proto.UnSerializeSubTaskMeta (list Byte.byte) [] rawUnmarshal
    [Byte.x02; Byte.x5b] = Ok None.
Proof.
  destruct (task_meta_unserialize_edges (list Byte.byte) [] rawMarshal
              rawUnmarshal) as (_ & _ & A & _).
  apply (A Byte.x02 [Byte.x5b]). discriminate.
Defined.

(** ** Closing the consumer and the producer *)

Section ClosingFacts.

Variable DerefAndClose : Storage -> option error * Storage.

(** What [Close] does to a producer that is not closed yet. *)
Lemma Close_post (childCloseErr : option error)
        (p : cteProducer) (s : Executor) :
  seedExec p = Some s ->
  closed p = false ->
  exists p' s',
    snd (Close DerefAndClose childCloseErr p) = p' /\
    closed p' = true /\
    seedExec p' = Some s' /\ exCloses s' = S (exCloses s) /\
    exOpens s' = exOpens s /\
    resTbl p' = resTbl p /\ iterInTbl p' = iterInTbl p /\
    (forall r out,
        recursiveExec p = Some r -> iterOutTbl p = Some out ->
        fst (Close DerefAndClose childCloseErr p)
        = Ok (firstError [exCloseErr s; exCloseErr r;
                          fst (DerefAndClose out); childCloseErr]) /\
        iterOutTbl p' = Some (snd (DerefAndClose out)) /\
        exists r', recursiveExec p' = Some r' /\
                   exCloses r' = S (exCloses r)) /\
    (recursiveExec p = None ->
     fst (Close DerefAndClose childCloseErr p)
     = Ok (firstError [exCloseErr s; childCloseErr]) /\
     iterOutTbl p' = iterOutTbl p).
Proof.
  intros Hs Hc. unfold Close, closeProducer. rewrite Hc, Hs. simpl.
  destruct (recursiveExec p) as [r|] eqn:Er.
  - simpl. destruct (iterOutTbl p) as [out|] eqn:Eo.
    + destruct (DerefAndClose out) as [derr out'] eqn:Ed. simpl.
      do 2 eexists. split; [reflexivity|]. simpl.
      repeat (split; [reflexivity|]). split.
      * intros r0 out0 Hr Ho. inversion Hr; inversion Ho; subst r0 out0.
        rewrite Ed. simpl. split.
        -- unfold firstError. simpl.
           destruct (exCloseErr s), (exCloseErr r), derr, childCloseErr;
             reflexivity.
        -- split; [reflexivity|]. eexists. split; reflexivity.
      * discriminate.
    + simpl. do 2 eexists. split; [reflexivity|]. simpl.
      repeat (split; [reflexivity|]). split; [|discriminate].
      intros r0 out0 _ Ho. discriminate.
  - simpl. do 2 eexists. split; [reflexivity|]. simpl.
    repeat (split; [reflexivity|]). split; [intros r0 out0 Hr; discriminate|].
    intros _. split; [|reflexivity].
    unfold firstError. simpl.
    destruct (exCloseErr s), childCloseErr; reflexivity.
Qed.

(** X3.  [Close] on a producer that is not closed yet closes the seed plan,
    then the recursive plan and the iteration-output table when there is a
    recursive plan, then the children, each exactly once and whatever the
    earlier ones returned; it returns the first error of that sequence and
    marks the producer closed.  [resTbl] and [iterInTbl] are not touched.
    Without a recursive plan the iteration-output table is not released. *)
Theorem Close_closes_all_first_error (childCloseErr : option error)
        (p : cteProducer) (s : Executor) :
  seedExec p = Some s ->
  closed p = false ->
  exists p' s',
    snd (Close DerefAndClose childCloseErr p) = p' /\
    closed p' = true /\
    seedExec p' = Some s' /\ exCloses s' = S (exCloses s) /\
    exOpens s' = exOpens s /\
    resTbl p' = resTbl p /\ iterInTbl p' = iterInTbl p /\
    (forall r out,
        recursiveExec p = Some r -> iterOutTbl p = Some out ->
        fst (Close DerefAndClose childCloseErr p)
        = Ok (firstError [exCloseErr s; exCloseErr r;
                          fst (DerefAndClose out); childCloseErr]) /\
        iterOutTbl p' = Some (snd (DerefAndClose out)) /\
        exists r', recursiveExec p' = Some r' /\
                   exCloses r' = S (exCloses r)) /\
    (recursiveExec p = None ->
     fst (Close DerefAndClose childCloseErr p)
     = Ok (firstError [exCloseErr s; childCloseErr]) /\
     iterOutTbl p' = iterOutTbl p).
Proof. exact (Close_post childCloseErr p s). Qed.

(** X4.  Once the producer is closed, [Close] of a further consumer only
    closes that consumer's children: the producer is left as it is, so no
    sub-plan is closed twice.  In particular a second [Close] after a first
    one (on a producer with a seed plan) returns just the error of the
    children. *)
Theorem Close_again_leaves_producer (c1 c2 : option error)
        (p : cteProducer) :
  (closed p = true -> Close DerefAndClose c2 p = (Ok c2, p)) /\
  (seedExec p <> None ->
   Close DerefAndClose c2 (snd (Close DerefAndClose c1 p))
   = (Ok c2, snd (Close DerefAndClose c1 p))).
Proof.
  assert (A : forall q, closed q = true ->
                        Close DerefAndClose c2 q = (Ok c2, q)).
  { intros q Hq. unfold Close. rewrite Hq. simpl.
    destruct c2; reflexivity. }
  split; [apply A|].
  intros Hs. apply A.
  destruct (closed p) eqn:Hc.
  - unfold Close. rewrite Hc. simpl. exact Hc.
  - destruct (seedExec p) as [s|] eqn:Es; [|congruence].
    destruct (Close_post c1 p s Es Hc)
      as (p' & s' & Hp' & Hcl & _).
    rewrite Hp'. exact Hcl.
Qed.

(** X5.  A producer without seed plan cannot be closed: [Open] fails on it
    with the missing-seed error, and the [Close] that follows calls
    [p.seedExec.Close()] on the nil plan, a run-time fault nothing
    recovers. *)
Theorem Close_without_seed_faults (HashCode : Z -> list Z)
        (childCloseErr : option error) (e : CTEExec) (p : cteProducer)
        (changed : bool) (p1 : cteProducer) :
  seedExec p = None ->
  closed p = false -> opened p = false -> openErr p = None ->
  childOpenErr e = None ->
  checkAndUpdateCorColHashCode HashCode p = Some (changed, p1) ->
  Close DerefAndClose childCloseErr p = (Err ErrPanic, p) /\
  exists p',
    Open HashCode e p = (Err ErrSeedExecNil, resetExec e, p') /\
    openErr p' = Some ErrSeedExecNil /\
    Close DerefAndClose childCloseErr p' = (Err ErrPanic, p').
Proof.
  intros Hs Hc Ho He Hch Hcheck.
  assert (A : forall q, seedExec q = None -> closed q = false ->
                        Close DerefAndClose childCloseErr q
                        = (Err ErrPanic, q)).
  { intros q Hq1 Hq2. unfold Close, closeProducer. rewrite Hq2, Hq1.
    reflexivity. }
  split; [apply A; assumption|].
  rewrite (Open_unfold HashCode e p changed p1 Hch Hcheck).
  unfold checkAndUpdateCorColHashCode in Hcheck.
  destruct (checkCodes HashCode (corCols p) (corColHashCodes p))
    as [[ch codes]|]; [|discriminate].
  inversion Hcheck; subst ch p1. clear Hcheck.
  unfold openAfterCheck, openProducer, openProducerBody.
  destruct changed.
  - unfold reopenTbls, reset. destruct (isDistinct p) eqn:Ed; simpl;
      rewrite ?Ed; simpl; rewrite Hs; simpl;
      (eexists; split; [reflexivity|]); (split; [reflexivity|]);
      apply A; reflexivity || exact Hs.
  - simpl. rewrite He, Ho, Hs. simpl.
    eexists. split; [reflexivity|]. split; [reflexivity|].
    apply A; [exact Hs | exact Hc].
Qed.

End ClosingFacts.

Lemma Close_closes_all_first_error_witness :
  fst (Close derefFails (Some (ErrSubPlan 11)) closeFixture)
  = Ok (Some (ErrSubPlan 5)) /\
  closed (snd (Close derefFails (Some (ErrSubPlan 11)) closeFixture)) = true.
Proof.
  destruct (Close_closes_all_first_error derefFails (Some (ErrSubPlan 11))
              closeFixture brokenCloseExec eq_refl eq_refl)
    as (p' & s' & Hp' & Hcl & _ & _ & _ & _ & _ & A & _).
  destruct (A recIncrBelowFive emptyStorage eq_refl eq_refl) as (A1 & _).
  split; [exact A1 | rewrite Hp'; exact Hcl].
Defined.

Lemma Close_again_leaves_producer_witness :
  Close derefFails (Some (ErrSubPlan 12))
    (snd (Close derefFails None closeFixture))
  = (Ok (Some (ErrSubPlan 12)), snd (Close derefFails None closeFixture)).
Proof.
  apply (proj2 (Close_again_leaves_producer derefFails None
                  (Some (ErrSubPlan 12)) closeFixture)).
  discriminate.
Defined.

Lemma Close_without_seed_faults_witness :
  exists p',
    Open unitHashCode freshExec (producerOf None None true 10)
    = (Err ErrSeedExecNil, resetExec freshExec, p') /\
    openErr p' = Some ErrSeedExecNil /\
    Close derefFails None p' = (Err ErrPanic, p').
Proof.
  apply (Close_without_seed_faults derefFails unitHashCode None freshExec
           (producerOf None None true 10) false
           (producerOf None None true 10));
    reflexivity.
Defined.

(** ** Fingerprints of the correlated columns *)

Lemma codes_eqb_true (a b : list Z) : codes_eqb a b = true <-> a = b.
Proof.
  unfold codes_eqb. destruct (list_eq_dec Z.eq_dec a b); split; congruence.
Qed.

(** [checkCodes] in closed form, and its idempotence. *)
Lemma checkCodes_spec (HashCode : Z -> list Z)
        (cols : list Z) :
  forall codes,
    checkCodes HashCode cols codes
    = (if Nat.leb (length cols) (length codes)
       then Some (negb (codesAgree (map HashCode cols)
                          (firstn (length cols) codes)),
                  map HashCode cols ++ skipn (length cols) codes)
       else None) /\
    (forall changed codes',
        checkCodes HashCode cols codes = Some (changed, codes') ->
        checkCodes HashCode cols codes' = Some (false, codes')).
Proof.
  induction cols as [|c cols IH]; intros codes.
  - simpl. split; [reflexivity|]. intros ch codes' H. inversion H.
    reflexivity.
  - destruct codes as [|old rest]; [split; [reflexivity | discriminate]|].
    destruct (IH rest) as [IH1 IH2]. cbn [checkCodes length Nat.leb].
    rewrite IH1. split.
    + destruct (Nat.leb (length cols) (length rest)); [|reflexivity].
      cbn [map firstn skipn app].
      destruct (codes_eqb (HashCode c) old) eqn:E.
      * apply codes_eqb_true in E. subst old. do 2 f_equal.
        unfold codesAgree.
        destruct (list_eq_dec (list_eq_dec Z.eq_dec) (map HashCode cols)
                    (firstn (length cols) rest)) as [e1|n1];
          destruct (list_eq_dec (list_eq_dec Z.eq_dec)
                      (HashCode c :: map HashCode cols)
                      (HashCode c :: firstn (length cols) rest))
            as [e2|n2]; try reflexivity.
        -- exfalso. apply n2. f_equal. exact e1.
        -- exfalso. apply n1. inversion e2. reflexivity.
      * do 2 f_equal. unfold codesAgree.
        destruct (list_eq_dec (list_eq_dec Z.eq_dec)
                    (HashCode c :: map HashCode cols)
                    (old :: firstn (length cols) rest)) as [e2|n2];
          [|reflexivity].
        inversion e2 as [[H1 H2]]. subst old.
        assert (codes_eqb (HashCode c) (HashCode c) = true)
          by (apply codes_eqb_true; reflexivity).
        congruence.
    + rewrite <- IH1. intros ch codes' H.
      destruct (checkCodes HashCode cols rest) as [[ch0 r0]|] eqn:E0;
        [|discriminate].
      pose proof (IH2 ch0 r0 eq_refl) as Hidem.
      destruct (codes_eqb (HashCode c) old) eqn:E;
        inversion H; subst ch codes'; cbn [checkCodes];
        rewrite Hidem.
      * rewrite E. reflexivity.
      * assert (E' : codes_eqb (HashCode c) (HashCode c) = true)
          by (apply codes_eqb_true; reflexivity).
        rewrite E'. reflexivity.
Qed.

(** X6.  [checkAndUpdateCorColHashCode] faults exactly when fewer
    fingerprints are stored than there are correlated columns.  Otherwise it
    reports a change exactly when the stored fingerprints of the columns
    differ from those of the current values, and it leaves the fingerprints
    of the current values stored (further entries are kept); a second
    check right after reports no change and changes nothing. *)
Theorem checkCodes_updates_fingerprints (HashCode : Z -> list Z)
        (cols : list Z) :
  forall codes,
    checkCodes HashCode cols codes
    = (if Nat.leb (length cols) (length codes)
       then Some (negb (codesAgree (map HashCode cols)
                          (firstn (length cols) codes)),
                  map HashCode cols ++ skipn (length cols) codes)
       else None) /\
    (forall changed codes',
        checkCodes HashCode cols codes = Some (changed, codes') ->
        checkCodes HashCode cols codes' = Some (false, codes')).
Proof. exact (checkCodes_spec HashCode cols). Qed.

Lemma checkCodes_updates_fingerprints_witness :
  checkCodes unitHashCode [7; 8] [[7]; [3]; [9]]
  = Some (true, [[7]; [8]; [9]]) /\
  checkCodes unitHashCode [7; 8] [[7]; [8]; [9]]
  = Some (false, [[7]; [8]; [9]]).
Proof.
  destruct (checkCodes_updates_fingerprints unitHashCode [7; 8]
              [[7]; [3]; [9]]) as [A B].
  split; [exact A|]. apply (B true). reflexivity.
Defined.

Lemma openProducer_keeps_cols (p : cteProducer) (r : option error)
      (p' : cteProducer) :
  openProducer p = (r, p') ->
  corCols p' = corCols p /\ corColHashCodes p' = corColHashCodes p.
Proof.
  unfold openProducer, openProducerBody. intros H.
  repeat break_match; inversion H; subst; simpl;
    repeat match goal with
           | E : (_, _) = (_, _) |- _ => inversion E; clear E; subst
           end; simpl; split; reflexivity.
Qed.

(** X7.  After an [Open] that succeeded, an [Open] of any consumer of the
    same producer, the correlated values being the same, succeeds and
    leaves the producer exactly as it is: no reset, no sub-plan opened
    again, no table reopened; only the consumer's own cursor is reset. *)
Theorem Open_again_leaves_producer (HashCode : Z -> list Z)
        (e1 e1' e2 : CTEExec) (p p1 : cteProducer) :
  Open HashCode e1 p = (Ok tt, e1', p1) ->
  childOpenErr e2 = None ->
  Open HashCode e2 p1 = (Ok tt, resetExec e2, p1).
Proof.
  intros H1 He2.
  assert (Hfacts : opened p1 = true /\ openErr p1 = None /\
                   exists ch, checkCodes HashCode (corCols p1)
                                (corColHashCodes p1)
                              = Some (ch, corColHashCodes p1)).
  { unfold Open in H1. simpl childOpenErr in H1.
    destruct (childOpenErr e1); [discriminate|].
    unfold checkAndUpdateCorColHashCode in H1.
    destruct (checkCodes HashCode (corCols p) (corColHashCodes p))
      as [[ch codes]|] eqn:Ec; [|discriminate].
    pose proof (proj2 (checkCodes_spec HashCode (corCols p)
                         (corColHashCodes p)) ch codes Ec) as Hidem.
    set (q := setCorColHashCodes p codes) in H1.
    set (p2 := if ch then reopenTbls (reset q) else q) in H1.
    assert (Hc2 : corCols p2 = corCols p /\ corColHashCodes p2 = codes).
    { unfold p2, q. destruct ch; [|split; reflexivity].
      unfold reopenTbls, reset. destruct (isDistinct p) eqn:Ed; simpl;
        rewrite ?Ed; split; reflexivity. }
    destruct Hc2 as [Hc2a Hc2b].
    destruct (openErr p2) eqn:Eerr; [discriminate|].
    destruct (opened p2) eqn:Eop; simpl in H1.
    - inversion H1; subst p1. split; [exact Eop|]. split; [exact Eerr|].
      exists false. rewrite Hc2a, Hc2b. exact Hidem.
    - destruct (openProducer p2) as [[err|] p3] eqn:Eo; [discriminate|].
      inversion H1; subst p1.
      destruct (openProducer_keeps p2 None p3 Eo)
        as (_ & _ & _ & _ & _ & A & B).
      destruct (openProducer_keeps_cols p2 None p3 Eo) as [C D].
      split; [exact B|]. split; [exact A|].
      exists false. rewrite C, D, Hc2a, Hc2b. exact Hidem. }
  destruct Hfacts as (Hop & Herr & ch & Hcodes).
  pose proof (proj2 (checkCodes_spec HashCode (corCols p1)
                       (corColHashCodes p1)) ch _ Hcodes) as Hidem.
  unfold Open. simpl childOpenErr. rewrite He2.
  unfold checkAndUpdateCorColHashCode. rewrite Hidem.
  rewrite setCorColHashCodes_same, Herr, Hop. reflexivity.
Qed.

Lemma Open_again_leaves_producer_witness :
  exists e1' p1,
    Open unitHashCode freshExec
      (producerOf (Some seedOneTwoThree) (Some recIncrBelowFive) true 10)
    = (Ok tt, e1', p1) /\
    Open unitHashCode (mkCTEExec 3 9 true None) p1
    = (Ok tt, freshExec, p1).
Proof.
  do 2 eexists. split; [vm_compute; reflexivity|].
  eapply (Open_again_leaves_producer unitHashCode freshExec _
            (mkCTEExec 3 9 true None)
            (producerOf (Some seedOneTwoThree) (Some recIncrBelowFive)
               true 10)).
  - vm_compute. reflexivity.
  - reflexivity.
Defined.

(** ** Opening and closing: the calls the sub-plans receive *)

(** X8.  [openProducer] followed by [Close], on a producer with a seed plan
    that is not closed: the seed plan receives one [Open] and one [Close],
    whether the open succeeded or failed.  The recursive plan receives one
    [Close] as well, and an [Open] only when the seed plan opened: after a
    failed open of the seed plan it is closed without having been opened.
    When the open failed, [openErr] holds the error and [opened] is
    false. *)
Theorem open_then_close_calls
        (DerefAndClose : Storage -> option error * Storage)
        (childCloseErr : option error) (p : cteProducer) (s : Executor) :
  seedExec p = Some s ->
  closed p = false ->
  let p1 := snd (openProducer p) in
  let p2 := snd (Close DerefAndClose childCloseErr p1) in
  (exists s2, seedExec p2 = Some s2 /\
              exOpens s2 = S (exOpens s) /\ exCloses s2 = S (exCloses s)) /\
  (forall r, recursiveExec p = Some r ->
     exists r2, recursiveExec p2 = Some r2 /\
                exCloses r2 = S (exCloses r) /\
                exOpens r2 = (match exOpenErr s with
                              | Some _ => exOpens r
                              | None => S (exOpens r)
                              end)) /\
  closed p2 = true /\
  (forall e, fst (openProducer p) = Some e ->
             openErr p1 = Some e /\ opened p1 = false) /\
  (fst (openProducer p) = None ->
   exOpenErr s = None /\
   (forall r, recursiveExec p = Some r -> exOpenErr r = None)).
Proof.
  intros Hs Hc. cbv zeta.
  destruct p as [op pr cl oe se re rt it ot ht di ci sl hl lb le md cc ch].
  simpl in Hs, Hc. subst se cl.
  destruct s as [soe sce snx sps sop scl].
  unfold Close, closeProducer, openProducer, openProducerBody.
  destruct re as [[roe rce rnx rps rop rcl]|];
    destruct soe as [e0|]; try destruct roe as [e1|]; destruct di;
    try destruct ot as [out|]; cbn;
    try (destruct (DerefAndClose out) as [derr out']);
    try (destruct (DerefAndClose emptyStorage) as [derr' out'']);
    cbn.
  all: split; [eexists; split; [reflexivity|]; split; reflexivity|].
  all: split; [intros r0 Hr0; try discriminate; inversion Hr0; subst r0;
               (eexists; (split; [reflexivity|]); (split; reflexivity))|].
  all: split; [reflexivity|].
  all: split; [intros e He; try discriminate; inversion He; subst e;
               (split; reflexivity)|].
  all: intros H0; try discriminate.
  all: split; [reflexivity|].
  all: intros r0 Hr0; try discriminate; inversion Hr0; reflexivity.
Qed.

Lemma open_then_close_calls_witness :
  let p := producerOf (Some brokenOpenExec) (Some recIncrBelowFive)
             true 10 in
  let p2 := snd (Close derefFails None (snd (openProducer p))) in
  (exists s2, seedExec p2 = Some s2 /\ exOpens s2 = 1%nat /\
              exCloses s2 = 1%nat) /\
  (exists r2, recursiveExec p2 = Some r2 /\ exCloses r2 = 1%nat /\
              exOpens r2 = 0%nat).
Proof.
  cbv zeta.
  destruct (open_then_close_calls derefFails None
              (producerOf (Some brokenOpenExec) (Some recIncrBelowFive)
                 true 10) brokenOpenExec eq_refl eq_refl)
    as (A & B & _).
  split; [exact A|]. exact (B recIncrBelowFive eq_refl).
Defined.

(** ** Reading the whole result *)

Lemma skipn_nth_cons (l : list Chunk) (i : nat) (x : Chunk) :
  nth_error l i = Some x -> skipn i l = x :: skipn (S i) l.
Proof.
  revert i. induction l as [|y l IH]; intros i H.
  - destruct i; discriminate.
  - destruct i as [|i]; simpl in H |- *.
    + inversion H. reflexivity.
    + apply IH. exact H.
Qed.

(** X9.  Without a limit, [n] successive calls of [getChunk] hand a
    consumer the rows of the next [n] batches of [resTbl] from its cursor
    on, in order and complete; a consumer that starts at the head and calls
    at least once per batch receives the whole table; a consumer that has
    read every batch receives nothing and keeps its cursor. *)
Theorem getChunk_unlimited_drain (p : cteProducer) :
  hasLimit p = false ->
  (forall n e,
      drainChunks n p e
      = Ok (rowsOf (firstn n (skipn (chkIdx e) (stChunks (resTbl p)))))) /\
  (forall n e,
      chkIdx e = 0%nat -> (NumChunks (resTbl p) <= n)%nat ->
      drainChunks n p e = Ok (stRows (resTbl p))) /\
  (forall e,
      (NumChunks (resTbl p) <= chkIdx e)%nat -> getChunk p e = (Ok [], e)).
Proof.
  intros HL.
  assert (A : forall n e,
             drainChunks n p e
             = Ok (rowsOf (firstn n (skipn (chkIdx e)
                                       (stChunks (resTbl p)))))).
  { induction n as [|n IH]; intros e; [reflexivity|].
    cbn [drainChunks]. unfold getChunk. rewrite HL.
    destruct (Nat.ltb (chkIdx e) (NumChunks (resTbl p))) eqn:Elt.
    - apply Nat.ltb_lt in Elt. unfold stGetChunk, NumChunks in *.
      destruct (nth_error (stChunks (resTbl p)) (chkIdx e)) as [res|] eqn:En;
        [|apply nth_error_None in En; lia].
      simpl fault. cbv iota. rewrite IH. simpl chkIdx.
      rewrite (skipn_nth_cons _ _ _ En). reflexivity.
    - apply Nat.ltb_ge in Elt. unfold NumChunks in Elt.
      rewrite IH. rewrite skipn_all2 by exact Elt.
      rewrite !firstn_nil. reflexivity. }
  split; [exact A|]. split.
  - intros n e He Hn. rewrite A, He. simpl skipn.
    rewrite firstn_all2 by exact Hn. reflexivity.
  - intros e He. unfold getChunk. rewrite HL.
    apply Nat.ltb_ge in He. rewrite He. reflexivity.
Qed.

Lemma getChunk_unlimited_drain_witness :
  drainChunks 5 (finishedProducer 1) freshExec = Ok [[1]; [2]] /\
  getChunk (finishedProducer 1) (mkCTEExec 1 0 false None)
  = (Ok [], mkCTEExec 1 0 false None).
Proof.
  destruct (getChunk_unlimited_drain (finishedProducer 1) eq_refl)
    as (_ & A & B).
  split.
  - apply A; [reflexivity | unfold NumChunks; simpl; lia].
  - apply B. unfold NumChunks. simpl. lia.
Defined.

(** X10.  The extremes of a limit [[B, E)] over a finished table: with
    [B = 0] and [E] at least the number of rows the consumer receives the
    whole table, as without a limit; with [B] at least the number of rows
    it receives nothing; and it never receives more than [E - B] rows. *)
Theorem getChunk_limit_extremes (p : cteProducer) (e : CTEExec) (n : nat) :
  hasLimit p = true ->
  0 <= limitBeg p <= limitEnd p ->
  limitEnd p < 2 ^ 64 ->
  Forall wfChunk (stChunks (resTbl p)) ->
  Z.of_nat (length (stRows (resTbl p))) < 2 ^ 63 ->
  chkIdx e = 0%nat -> cursor e = 0 -> meetFirstBatch e = false ->
  (NumChunks (resTbl p) <= n)%nat ->
  (limitBeg p = 0 ->
   Z.of_nat (length (stRows (resTbl p))) <= limitEnd p ->
   drainChunks n p e = Ok (stRows (resTbl p))) /\
  (Z.of_nat (length (stRows (resTbl p))) <= limitBeg p ->
   drainChunks n p e = Ok []) /\
  (exists rows, drainChunks n p e = Ok rows /\
                Z.of_nat (length rows) <= limitEnd p - limitBeg p).
Proof.
  intros HL HBE HE64 Hwf Hbound Hi Hc Hm Hn.
  assert (HU : UnmetSt p (Z.to_nat (limitBeg p)) 0
                 (stChunks (resTbl p)) e).
  { split; [exact Hm|]. split; [rewrite Hc; reflexivity|].
    split; [lia|]. unfold Rem. rewrite Hi. split; [reflexivity | lia]. }
  assert (Hd : drainChunks n p e
               = Ok (firstn (Z.to_nat (limitEnd p) - Z.to_nat (limitBeg p))
                       (skipn (Z.to_nat (limitBeg p))
                          (stRows (resTbl p))))).
  { rewrite (unmet_drain p (Z.to_nat (limitBeg p)) (Z.to_nat (limitEnd p)))
      with (c := 0%nat) (rem := stChunks (resTbl p));
      try lia; try assumption.
    unfold sliceFrom, rowsOf, stRows.
    rewrite Nat.max_l by lia. rewrite Nat.sub_0_r. reflexivity. }
  rewrite Hd. split; [|split].
  - intros HB0 Hall. rewrite HB0. simpl Z.to_nat. simpl skipn.
    rewrite firstn_all2 by lia. reflexivity.
  - intros Hbeyond. rewrite skipn_all2 by lia. rewrite firstn_nil.
    reflexivity.
  - eexists. split; [reflexivity|]. rewrite length_firstn. lia.
Qed.

Lemma getChunk_limit_extremes_witness :
  drainChunks 3 (limitedProducer 0 8) freshExec
  = Ok [[1]; [2]; [3]; [4]; [5]; [6]; [7]; [8]] /\
  drainChunks 3 (limitedProducer 8 9) freshExec = Ok [].
Proof.
  split.
  - destruct (getChunk_limit_extremes (limitedProducer 0 8) freshExec 3)
      as (A & _).
    + reflexivity.
    + unfold limitedProducer; simpl; lia.
    + reflexivity.
    + repeat constructor.
    + reflexivity.
    + reflexivity.
    + reflexivity.
    + reflexivity.
    + unfold limitedProducer, NumChunks; simpl; lia.
    + apply A; [reflexivity | unfold limitedProducer; simpl; lia].
  - destruct (getChunk_limit_extremes (limitedProducer 8 9) freshExec 3)
      as (_ & B & _).
    + reflexivity.
    + unfold limitedProducer; simpl; lia.
    + reflexivity.
    + repeat constructor.
    + reflexivity.
    + reflexivity.
    + reflexivity.
    + reflexivity.
    + unfold limitedProducer, NumChunks; simpl; lia.
    + apply B. unfold limitedProducer; simpl; lia.
Defined.

(** ** What the two phases put into the tables *)

Lemma stChunks_stAdd (s : Storage) (c : Chunk) :
  stChunks (stAdd s c) = stChunks s ++ nonEmptyChunks [c].
Proof.
  unfold stAdd, nonEmptyChunks. simpl.
  destruct (Nat.eqb (NumRows c) 0); simpl;
    [rewrite app_nil_r|]; reflexivity.
Qed.

Lemma nonEmptyChunks_app (a b : list Chunk) :
  nonEmptyChunks (a ++ b) = nonEmptyChunks a ++ nonEmptyChunks b.
Proof. apply filter_app. Qed.

Lemma stChunks_fold_stAdd (chks : list Chunk) :
  forall s, stChunks (fold_left stAdd chks s)
            = stChunks s ++ nonEmptyChunks chks.
Proof.
  induction chks as [|c chks IH]; intros s; simpl.
  - unfold nonEmptyChunks. simpl. rewrite app_nil_r. reflexivity.
  - rewrite IH, stChunks_stAdd, <- app_assoc.
    rewrite <- nonEmptyChunks_app. reflexivity.
Qed.

Lemma rowsOf_nonEmptyChunks (l : list Chunk) :
  rowsOf (nonEmptyChunks l) = rowsOf l.
Proof.
  unfold rowsOf, nonEmptyChunks.
  induction l as [|c l IH]; [reflexivity|]. simpl.
  destruct (Nat.eqb (NumRows c) 0) eqn:E; simpl; rewrite IH.
  - apply Nat.eqb_eq in E. rewrite (NumRows_zero_rows c E). reflexivity.
  - reflexivity.
Qed.

Lemma nonEmptyChunks_Forall (l : list Chunk) :
  Forall (fun c => NumRows c <> 0%nat) (nonEmptyChunks l).
Proof.
  apply Forall_forall. intros c Hc. unfold nonEmptyChunks in Hc.
  apply filter_In in Hc. destruct Hc as [_ Hc].
  apply negb_true_iff in Hc. apply Nat.eqb_neq. exact Hc.
Qed.

Section PhaseFacts.

Variable hashRow : Row -> Z.

Lemma seedLoop_chunks (fuel : nat) :
  forall p chks r p',
    seedLoop hashRow fuel p chks = Some (r, p') ->
    resTbl p' = resTbl p /\ recursiveExec p' = recursiveExec p /\
    curIter p' = curIter p /\
    stIter (iterInTbl p') = stIter (iterInTbl p) /\
    forall chks', r = Ok chks' ->
      exists added,
        chks' = chks ++ added /\
        stChunks (iterInTbl p')
        = stChunks (iterInTbl p) ++ nonEmptyChunks added.
Proof.
  induction fuel as [|fuel IH]; intros p chks r p' H; [discriminate|].
  assert (Base : forall q, resTbl q = resTbl p ->
                   recursiveExec q = recursiveExec p ->
                   curIter q = curIter p -> iterInTbl q = iterInTbl p ->
                   forall x, (x = Ok chks \/ exists e, x = Err e) ->
                   resTbl q = resTbl p /\
                   recursiveExec q = recursiveExec p /\
                   curIter q = curIter p /\
                   stIter (iterInTbl q) = stIter (iterInTbl p) /\
                   forall chks', x = Ok chks' ->
                     exists added,
                       chks' = chks ++ added /\
                       stChunks (iterInTbl q)
                       = stChunks (iterInTbl p) ++ nonEmptyChunks added).
  { intros q A B C D x Hx. rewrite D.
    repeat (split; [assumption || reflexivity|]).
    intros chks' Hc. destruct Hx as [Hx|[e Hx]]; [|congruence].
    rewrite Hx in Hc. inversion Hc; subst chks'. exists [].
    rewrite !app_nil_r. split; reflexivity. }
  simpl in H.
  destruct (limitDone p (iterInTbl p)).
  { inversion H; subst. apply Base; try reflexivity. left; reflexivity. }
  destruct (seedExec p) as [ex|] eqn:Eex.
  2:{ inversion H; subst. apply Base; try reflexivity.
      right; eexists; reflexivity. }
  simpl in H.
  destruct (exNext ex [] (exPos ex)) as [chk|e0].
  2:{ inversion H; subst. apply Base; try reflexivity.
      right; eexists; reflexivity. }
  destruct (Nat.eqb (NumRows chk) 0).
  { inversion H; subst. apply Base; try reflexivity. left; reflexivity. }
  destruct (tryDedupAndAdd hashRow (isDistinct p) (sel p) chk (iterInTbl p)
              (hashTbl p)) as [[[[c' st'] h'] ps']|e0] eqn:Et.
  2:{ inversion H; subst. apply Base; try reflexivity.
      right; eexists; reflexivity. }
  apply tryDedupAndAdd_storage in Et. subst st'.
  apply IH in H. simpl in H.
  destruct H as (A & B & C & D & F).
  split; [exact A|]. split; [exact B|]. split; [exact C|].
  split.
  - rewrite D. unfold stAdd. destruct (Nat.eqb (NumRows c') 0); reflexivity.
  - intros chks' Hr. destruct (F chks' Hr) as (added & E1 & E2).
    exists (c' :: added). rewrite <- app_assoc in E1. simpl in E1.
    split; [exact E1|]. rewrite E2, stChunks_stAdd, <- app_assoc.
    rewrite <- nonEmptyChunks_app. reflexivity.
Qed.

(** X11.  A successful seed phase sets the iteration counter to 1, tags
    [iterInTbl] with iteration 1, and appends the same batches, all with
    rows, to [iterInTbl] and to [resTbl]: with both tables empty at the
    start they hold the same batches, which is what lets the row pointers
    taken against [iterInTbl] be used against [resTbl].  The recursive plan
    is not touched.  A seed phase that fails leaves [resTbl] as it was. *)
Theorem seed_phase_fills_both_tables (fuel : nat) (p ps : cteProducer)
        (r : result unit) :
  computeSeedPart hashRow fuel p = Some (r, ps) ->
  recursiveExec ps = recursiveExec p /\
  (r = Ok tt ->
   curIter ps = 1 /\ stIter (iterInTbl ps) = 1 /\
   exists added,
     stChunks (iterInTbl ps) = stChunks (iterInTbl p) ++ added /\
     stChunks (resTbl ps) = stChunks (resTbl p) ++ added /\
     Forall (fun c => NumRows c <> 0%nat) added) /\
  (forall e, r = Err e -> resTbl ps = resTbl p).
Proof.
  unfold computeSeedPart. intros H.
  destruct (seedLoop hashRow fuel _ []) as [[[chks|e0] p1]|] eqn:E;
    [| |discriminate];
    apply seedLoop_chunks in E; simpl in E;
    destruct E as (A & B & C & D & F); inversion H; subst; simpl.
  - split; [exact B|]. split; [|discriminate].
    intros _. split; [rewrite C; reflexivity|]. split; [rewrite C; reflexivity|].
    destruct (F chks eq_refl) as (added & E1 & E2). simpl in E1. subst added.
    exists (nonEmptyChunks chks). split; [exact E2|].
    split; [|apply nonEmptyChunks_Forall].
    rewrite stChunks_fold_stAdd, A. reflexivity.
  - split; [exact B|]. split; [discriminate|]. intros e _. exact A.
Qed.

End PhaseFacts.

Lemma map_stGetChunk_seq (out : Storage) :
  map (stGetChunk out) (seq 0 (NumChunks out)) = map Ok (stChunks out).
Proof.
  unfold NumChunks, stGetChunk.
  assert (G : forall (l : list Chunk) (k : nat) (pre : list Chunk),
             map (fun i => fault (nth_error (pre ++ l) i))
               (seq (length pre) (length l)) = map (@Ok Chunk) l).
  { induction l as [|x l IH]; intros k pre; [reflexivity|]. simpl.
    f_equal.
    - rewrite nth_error_app2 by lia. rewrite Nat.sub_diag. reflexivity.
    - specialize (IH k (pre ++ [x])).
      rewrite <- app_assoc, length_app in IH. simpl in IH.
      rewrite Nat.add_1_r in IH. exact IH. }
  apply (G (stChunks out) 0%nat []).
Qed.

Lemma map_Ok_inj (a b : list Chunk) :
  map (@Ok Chunk) a = map (@Ok Chunk) b -> a = b.
Proof.
  revert b. induction a as [|x a IH]; intros [|y b] H; try discriminate.
  - reflexivity.
  - simpl in H. inversion H. f_equal. apply IH. assumption.
Qed.

Section RotationFacts.

Variable hashRow : Row -> Z.

Lemma foldIntoRes_chunks (out : Storage) (idxs : list nat) :
  forall p chks r p',
    foldIntoRes hashRow out idxs p chks = (r, p') ->
    (exists more, stChunks (resTbl p') = stChunks (resTbl p) ++ more) /\
    forall chks', r = Ok chks' ->
      exists added,
        chks' = chks ++ added /\
        stChunks (resTbl p')
        = stChunks (resTbl p) ++ nonEmptyChunks added /\
        (isDistinct p = false ->
         map (@Ok Chunk) added = map (stGetChunk out) idxs).
Proof.
  induction idxs as [|i rest IH]; intros p chks r p' H; simpl in H.
  - inversion H; subst. split; [exists []; rewrite app_nil_r; reflexivity|].
    intros chks' Hc. inversion Hc; subst. exists [].
    rewrite !app_nil_r. repeat split; reflexivity.
  - destruct (stGetChunk out i) as [chk|e0] eqn:Eg.
    2:{ inversion H; subst.
        split; [exists []; rewrite app_nil_r; reflexivity | discriminate]. }
    destruct (tryDedupAndAdd hashRow (isDistinct p) (sel p)
                (if isDistinct p then CopyConstruct chk else chk)
                (resTbl p) (hashTbl p))
      as [[[[c' st'] h'] ps']|e0] eqn:Et.
    2:{ inversion H; subst.
        split; [exists []; rewrite app_nil_r; reflexivity | discriminate]. }
    pose proof (tryDedupAndAdd_storage _ _ _ _ _ _ _ _ _ _ Et) as Hst.
    subst st'. apply IH in H. simpl in H. destruct H as [(more & Hm) F].
    split.
    + exists (nonEmptyChunks [c'] ++ more).
      rewrite Hm, stChunks_stAdd, <- app_assoc. reflexivity.
    + intros chks' Hr. destruct (F chks' Hr) as (added & E1 & E2 & E3).
      exists (c' :: added). rewrite <- app_assoc in E1. simpl in E1.
      split; [exact E1|]. split.
      * rewrite E2, stChunks_stAdd, <- app_assoc.
        rewrite <- nonEmptyChunks_app. reflexivity.
      * intros Hd. simpl. rewrite (E3 Hd). f_equal.
        unfold tryDedupAndAdd in Et. rewrite Hd in Et.
        inversion Et. rewrite Eg. congruence.
Qed.

(** X12.  A successful rotation appends batches with rows to [resTbl],
    makes the rows of those batches the new content of [iterInTbl] (which
    is reopened: not done, no error), and leaves [iterOutTbl] empty.  In
    DISTINCT mode [iterInTbl] holds exactly the appended, deduplicated
    batches; otherwise it takes over the batches of [iterOutTbl], which are
    also the ones appended to [resTbl]. *)
Theorem rotation_moves_output (p p' : cteProducer) :
  setupTblsForNewIteration hashRow p = (Ok tt, p') ->
  exists added,
    stChunks (resTbl p') = stChunks (resTbl p) ++ added /\
    stRows (resTbl p') = stRows (resTbl p) ++ stRows (iterInTbl p') /\
    Forall (fun c => NumRows c <> 0%nat) added /\
    (exists out', iterOutTbl p' = Some out' /\ stChunks out' = []) /\
    stDone (iterInTbl p') = false /\ stErr (iterInTbl p') = None /\
    (isDistinct p = true -> stChunks (iterInTbl p') = added) /\
    (isDistinct p = false ->
     exists out, iterOutTbl p = Some out /\
                 stChunks (iterInTbl p') = stChunks out /\
                 added = nonEmptyChunks (stChunks out)).
Proof.
  unfold setupTblsForNewIteration. intros H.
  destruct (iterOutTbl p) as [out|] eqn:Eo; [|discriminate].
  destruct (foldIntoRes hashRow out (seq 0 (NumChunks out)) p [])
    as [[chks|e0] q] eqn:E; [|discriminate].
  pose proof (foldIntoRes_same hashRow _ _ _ _ _ _ E)
    as ((_ & Hd & _) & _).
  apply foldIntoRes_chunks in E. destruct E as [_ F].
  destruct (F chks eq_refl) as (added & E1 & E2 & E3). simpl in E1.
  subst added. exists (nonEmptyChunks chks).
  assert (Hnd : isDistinct p = false -> chks = stChunks out).
  { intros Hp. apply map_Ok_inj. rewrite (E3 Hp).
    apply map_stGetChunk_seq. }
  rewrite Hd in H.
  destruct (isDistinct p) eqn:Edp; simpl in H; inversion H; subst p';
    clear H; simpl.
  - split; [exact E2|]. split.
    + unfold stRows. rewrite E2, stChunks_fold_stAdd. simpl.
      rewrite flat_map_app. reflexivity.
    + split; [apply nonEmptyChunks_Forall|].
      split; [eexists; split; reflexivity|].
      pose proof (sameFlags_fold_stAdd chks (stReopen (iterInTbl q)))
        as SF.
      unfold sameFlags in SF. simpl in SF.
      destruct SF as (SF1 & SF2 & _).
      split; [exact SF1|]. split; [exact SF2|].
      split; [intros _; rewrite stChunks_fold_stAdd; reflexivity|].
      intros Hc. discriminate.
  - rewrite (Hnd eq_refl) in *. split; [exact E2|]. split.
    + unfold stRows. rewrite E2. rewrite flat_map_app. f_equal.
      simpl. exact (rowsOf_nonEmptyChunks (stChunks out)).
    + split; [apply nonEmptyChunks_Forall|].
      split; [eexists; split; reflexivity|].
      split; [reflexivity|]. split; [reflexivity|].
      split; [intros Hc; discriminate|].
      intros _. exists out. repeat split; reflexivity.
Qed.

End RotationFacts.


Lemma seed_phase_fills_both_tables_witness :
  curIter (exampleSeeded 10) = 1 /\
  exists added,
    stChunks (resTbl (exampleSeeded 10))
    = stChunks (resTbl (exampleProducer true 10)) ++ added.
Proof.
  assert (H : computeSeedPart firstColumnHash 5 (exampleProducer true 10)
              = Some (Ok tt, exampleSeeded 10))
    by (vm_compute; reflexivity).
  destruct (seed_phase_fills_both_tables firstColumnHash 5
              (exampleProducer true 10) (exampleSeeded 10) (Ok tt) H)
    as (_ & A & _).
  destruct (A eq_refl) as (C & _ & added & _ & R & _).
  split; [exact C|]. exists added. exact R.
Defined.

Lemma rotation_moves_output_witness :
  stRows (resTbl (snd (setupTblsForNewIteration firstColumnHash
                         rotationFixture)))
  = stRows (resTbl rotationFixture)
    ++ stRows (iterInTbl (snd (setupTblsForNewIteration firstColumnHash
                                 rotationFixture))).
Proof.
  assert (H : setupTblsForNewIteration firstColumnHash rotationFixture
              = (Ok tt, snd (setupTblsForNewIteration firstColumnHash
                               rotationFixture)))
    by (vm_compute; reflexivity).
  destruct (rotation_moves_output firstColumnHash rotationFixture _ H)
    as (added & _ & A & _).
  exact A.
Defined.

Lemma extendsTbl_refl (s : Storage) : extendsTbl s s.
Proof. exists []. rewrite app_nil_r. reflexivity. Qed.

Lemma extendsTbl_trans (a b c : Storage) :
  extendsTbl a b -> extendsTbl b c -> extendsTbl a c.
Proof.
  intros [m1 H1] [m2 H2]. exists (m1 ++ m2).
  rewrite H2, H1, app_assoc. reflexivity.
Qed.

Lemma extendsTbl_GetChunk (s s' : Storage) (i : nat) (c : Chunk) :
  extendsTbl s s' -> stGetChunk s i = Ok c -> stGetChunk s' i = Ok c.
Proof.
  intros [more H]. unfold stGetChunk. rewrite H.
  destruct (nth_error (stChunks s) i) as [x|] eqn:E; [|discriminate].
  intros Hx. rewrite nth_error_app1.
  - rewrite E. exact Hx.
  - apply nth_error_Some. rewrite E. discriminate.
Qed.

Section AppendOnly.

Variable hashRow : Row -> Z.

Lemma computeSeedPart_extends (fuel : nat) (p ps : cteProducer)
      (r : result unit) :
  computeSeedPart hashRow fuel p = Some (r, ps) ->
  extendsTbl (resTbl p) (resTbl ps).
Proof.
  unfold computeSeedPart. intros H.
  destruct (seedLoop hashRow fuel _ []) as [[[chks|e0] p1]|] eqn:E;
    [| |discriminate];
    apply (seedLoop_chunks hashRow) in E; simpl in E;
    destruct E as (A & _); inversion H; subst; simpl; rewrite A.
  - exists (nonEmptyChunks chks). apply stChunks_fold_stAdd.
  - apply extendsTbl_refl.
Qed.

Lemma setup_extends (p p' : cteProducer) (r : result unit) :
  setupTblsForNewIteration hashRow p = (r, p') ->
  extendsTbl (resTbl p) (resTbl p').
Proof.
  unfold setupTblsForNewIteration. intros H.
  destruct (iterOutTbl p) as [out|].
  2:{ inversion H; subst. apply extendsTbl_refl. }
  destruct (foldIntoRes hashRow out (seq 0 (NumChunks out)) p [])
    as [[chks|e0] q] eqn:E;
    apply (foldIntoRes_chunks hashRow) in E; destruct E as [Hm _].
  - destruct (isDistinct q); simpl in H; inversion H; subst; exact Hm.
  - inversion H; subst. exact Hm.
Qed.

Lemma recBody_extends (p : cteProducer) :
  match recBody hashRow p with
  | inl (_, q) => extendsTbl (resTbl p) (resTbl q)
  | inr q => extendsTbl (resTbl p) (resTbl q)
  end.
Proof.
  unfold recBody.
  destruct (recursiveExec p) as [ex|]; [|apply extendsTbl_refl].
  simpl.
  destruct (exNext ex (stChunks (iterInTbl p)) (exPos ex)) as [chk|e0];
    [|apply extendsTbl_refl].
  destruct (Nat.eqb (NumRows chk) 0).
  2:{ simpl. destruct (iterOutTbl p); apply extendsTbl_refl. }
  destruct (setupTblsForNewIteration hashRow _) as [[[]|e1] p1] eqn:Es;
    apply setup_extends in Es; simpl in Es; [|exact Es].
  destruct (limitDone p1 (resTbl p1)); [exact Es|].
  destruct (Nat.eqb (NumChunks (iterInTbl p1)) 0); [exact Es|].
  cbv zeta. simpl.
  destruct (curIter p1 + 1 >? CTEMaxRecursionDepth p1); [exact Es|].
  destruct (exCloseErr _); [exact Es|].
  destruct (exOpenErr _); exact Es.
Qed.

Lemma recLoop_extends (fuel : nat) :
  forall p r q, recLoop hashRow fuel p = Some (r, q) ->
                extendsTbl (resTbl p) (resTbl q).
Proof.
  induction fuel as [|fuel IH]; intros p r q H; [discriminate|].
  simpl in H. pose proof (recBody_extends p) as B.
  destruct (recBody hashRow p) as [[r0 q0]|p1].
  - inversion H; subst. exact B.
  - eapply extendsTbl_trans; [exact B|]. eapply IH. exact H.
Qed.

Lemma computeRecursivePart_extends (fuel : nat) (p q : cteProducer)
      (r : result unit) :
  computeRecursivePart hashRow fuel p = Some (r, q) ->
  extendsTbl (resTbl p) (resTbl q).
Proof.
  unfold computeRecursivePart. intros H.
  destruct (recursiveExec p).
  2:{ inversion H; subst. apply extendsTbl_refl. }
  destruct (Nat.eqb (NumChunks (iterInTbl p)) 0).
  { inversion H; subst. apply extendsTbl_refl. }
  destruct (curIter p >? CTEMaxRecursionDepth p).
  { inversion H; subst. apply extendsTbl_refl. }
  destruct (limitDone p (resTbl p)).
  { inversion H; subst. apply extendsTbl_refl. }
  eapply recLoop_extends. exact H.
Qed.

Lemma produce_extends (fuel : nat) (p q : cteProducer) (r : result unit) :
  produce hashRow fuel p = Some (r, q) ->
  extendsTbl (resTbl p) (resTbl q).
Proof.
  unfold produce. intros H.
  destruct (stErr (resTbl p)).
  { inversion H; subst. apply extendsTbl_refl. }
  destruct (computeSeedPart hashRow fuel p) as [[[[]|e1] p1]|] eqn:E1;
    [| |discriminate]; apply computeSeedPart_extends in E1.
  2:{ inversion H; subst. exact E1. }
  destruct (computeRecursivePart hashRow fuel p1) as [[[[]|e2] p2]|] eqn:E2;
    [| |discriminate]; apply computeRecursivePart_extends in E2;
    inversion H; subst; eapply extendsTbl_trans; eassumption.
Qed.

(** X13.  The result table only grows during an evaluation: whatever
    [produce] returns (success or error), and hence whatever [Next]
    returns, the batches that [resTbl] held before are still there, at the
    same chunk indices, and a batch that could be read still reads the
    same. *)
Theorem resTbl_append_only (fuel : nat) (p : cteProducer) :
  (forall r p', produce hashRow fuel p = Some (r, p') ->
     extendsTbl (resTbl p) (resTbl p') /\
     forall i c, stGetChunk (resTbl p) i = Ok c ->
                 stGetChunk (resTbl p') i = Ok c) /\
  (forall e r e' p', Next hashRow fuel e p = Some (r, e', p') ->
     extendsTbl (resTbl p) (resTbl p') /\
     forall i c, stGetChunk (resTbl p) i = Ok c ->
                 stGetChunk (resTbl p') i = Ok c).
Proof.
  assert (G : forall q, extendsTbl (resTbl p) (resTbl q) ->
              extendsTbl (resTbl p) (resTbl q) /\
              forall i c, stGetChunk (resTbl p) i = Ok c ->
                          stGetChunk (resTbl q) i = Ok c).
  { intros q Hq. split; [exact Hq|]. intros i c.
    apply extendsTbl_GetChunk. exact Hq. }
  split.
  - intros r p' H. apply G. eapply produce_extends. exact H.
  - intros e r e' p' H. apply G. unfold Next in H.
    destruct (negb (stDone (resTbl p))).
    + destruct (produce hashRow fuel p) as [[[[]|e1] p1]|] eqn:E;
        [| |discriminate]; apply produce_extends in E.
      * destruct (getChunk p1 e). inversion H; subst. exact E.
      * inversion H; subst. exact E.
    + destruct (getChunk p e). inversion H; subst. apply extendsTbl_refl.
Qed.

End AppendOnly.

Lemma resTbl_append_only_witness :
  exists r p',
    produce firstColumnHash 20 (exampleSeeded 10) = Some (r, p') /\
    stGetChunk (resTbl p') 0
    = Ok (mkChunk [[1]; [2]; [3]] (Some [0; 1; 2]%nat)).
Proof.
  destruct (produce firstColumnHash 20 (exampleSeeded 10)) as [[r p']|]
    eqn:E.
  - exists r, p'. split; [reflexivity|].
    destruct (resTbl_append_only firstColumnHash 20 (exampleSeeded 10))
      as [A _].
    destruct (A r p' E) as [_ B]. apply B. vm_compute. reflexivity.
  - vm_compute in E. discriminate.
Defined.


Lemma advanced_refl (p : cteProducer) : advanced p p.
Proof.
  unfold advanced.
  split; [reflexivity|]. split; [reflexivity|]. split; [lia|].
  split; [left; reflexivity|].
  intros ex H. exists ex. split; [exact H|]. lia.
Qed.

Lemma advanced_trans (a b c : cteProducer) :
  advanced a b -> advanced b c -> advanced a c.
Proof.
  intros (S1 & D1 & L1 & B1 & R1) (S2 & D2 & L2 & B2 & R2).
  unfold advanced. split; [congruence|]. split; [congruence|].
  split; [lia|]. split.
  - rewrite D1 in B2. destruct B2 as [B2|B2]; [|right; exact B2].
    rewrite B2. exact B1.
  - intros ex Hex. destruct (R1 ex Hex) as (ex1 & H1 & O1 & C1).
    destruct (R2 ex1 H1) as (ex2 & H2 & O2 & C2).
    exists ex2. split; [exact H2|]. lia.
Qed.

Section IterationFacts.

Variable hashRow : Row -> Z.

Lemma foldIntoRes_seedExec (out : Storage) (idxs : list nat) :
  forall p chks r p',
    foldIntoRes hashRow out idxs p chks = (r, p') ->
    seedExec p' = seedExec p.
Proof.
  induction idxs as [|i rest IH]; intros p chks r p' H; simpl in H.
  - inversion H; subst. reflexivity.
  - destruct (stGetChunk out i) as [chk|e0];
      [|inversion H; subst; reflexivity].
    destruct (tryDedupAndAdd hashRow (isDistinct p) (sel p)
                (if isDistinct p then CopyConstruct chk else chk)
                (resTbl p) (hashTbl p))
      as [[[[c' st'] h'] ps']|e0];
      [|inversion H; subst; reflexivity].
    apply IH in H. exact H.
Qed.

Lemma setup_seedExec (p p' : cteProducer) (r : result unit) :
  setupTblsForNewIteration hashRow p = (r, p') ->
  seedExec p' = seedExec p.
Proof.
  unfold setupTblsForNewIteration. intros H.
  destruct (iterOutTbl p) as [out|]; [|inversion H; subst; reflexivity].
  destruct (foldIntoRes hashRow out (seq 0 (NumChunks out)) p [])
    as [[chks|e0] q] eqn:E; apply foldIntoRes_seedExec in E.
  - destruct (isDistinct q); simpl in H; inversion H; subst; exact E.
  - inversion H; subst. exact E.
Qed.

Lemma recBody_advanced (p : cteProducer) :
  match recBody hashRow p with
  | inl (Ok _, q) => advanced p q
  | inl (Err _, _) => True
  | inr q => advanced p q
  end.
Proof.
  unfold recBody.
  destruct (recursiveExec p) as [ex|] eqn:Eex; [|exact I].
  simpl.
  destruct (exNext ex (stChunks (iterInTbl p)) (exPos ex)) as [chk|e0];
    [|exact I].
  destruct (Nat.eqb (NumRows chk) 0).
  2:{ simpl. destruct (iterOutTbl p); [|exact I].
      unfold advanced. simpl. rewrite Eex.
      split; [reflexivity|]. split; [reflexivity|]. split; [lia|].
      split; [left; reflexivity|].
      intros ex0 H0. inversion H0; subst ex0.
      eexists. split; [reflexivity|]. simpl. lia. }
  destruct (setupTblsForNewIteration hashRow _) as [[[]|e1] p1] eqn:Es;
    [|exact I].
  pose proof (setup_same hashRow _ _ _ Es) as (S1 & C1 & R1).
  pose proof (setup_seedExec _ _ _ Es) as Sd.
  destruct S1 as (D1 & _). simpl in C1, R1, Sd, D1.
  assert (A1 : advanced p p1).
  { unfold advanced. rewrite Sd, D1, C1, R1, Eex.
    split; [reflexivity|]. split; [reflexivity|]. split; [lia|].
    split; [left; reflexivity|].
    intros ex0 H0. inversion H0; subst ex0.
    eexists. split; [reflexivity|]. simpl. lia. }
  destruct (limitDone p1 (resTbl p1)); [exact A1|].
  destruct (Nat.eqb (NumChunks (iterInTbl p1)) 0); [exact A1|].
  cbv zeta. simpl.
  destruct (Z.gtb_spec (curIter p1 + 1) (CTEMaxRecursionDepth p1));
    [exact I|].
  destruct (exCloseErr _); [exact I|].
  destruct (exOpenErr _); [exact I|].
  unfold advanced. simpl. rewrite Sd, D1, C1, Eex.
  split; [reflexivity|]. split; [reflexivity|]. split; [lia|].
  split; [right; lia|].
  intros ex0 H0. inversion H0; subst ex0.
  eexists. split; [reflexivity|]. simpl. lia.
Qed.

Lemma recLoop_advanced (fuel : nat) :
  forall p q, recLoop hashRow fuel p = Some (Ok tt, q) -> advanced p q.
Proof.
  induction fuel as [|fuel IH]; intros p q H; [discriminate|].
  simpl in H. pose proof (recBody_advanced p) as B.
  destruct (recBody hashRow p) as [[r0 q0]|p1].
  - inversion H; subst. exact B.
  - eapply advanced_trans; [exact B|]. apply IH. exact H.
Qed.

Lemma computeRecursivePart_advanced (fuel : nat) (p q : cteProducer) :
  computeRecursivePart hashRow fuel p = Some (Ok tt, q) ->
  advanced p q /\ (recursiveExec p = None -> q = p).
Proof.
  unfold computeRecursivePart. intros H.
  destruct (recursiveExec p).
  2:{ inversion H; subst. split; [apply advanced_refl|reflexivity]. }
  split; [|discriminate].
  destruct (Nat.eqb (NumChunks (iterInTbl p)) 0).
  { inversion H; subst. apply advanced_refl. }
  destruct (curIter p >? CTEMaxRecursionDepth p); [discriminate|].
  destruct (limitDone p (resTbl p)).
  { inversion H; subst. apply advanced_refl. }
  eapply recLoop_advanced. exact H.
Qed.

Lemma seedLoop_seedExec (fuel : nat) :
  forall p chks r p' s,
    seedLoop hashRow fuel p chks = Some (r, p') ->
    seedExec p = Some s ->
    exists s', seedExec p' = Some s' /\
               exOpens s' = exOpens s /\ exCloses s' = exCloses s.
Proof.
  induction fuel as [|fuel IH]; intros p chks r p' s H Hs; [discriminate|].
  simpl in H. rewrite Hs in H.
  destruct (limitDone p (iterInTbl p)).
  { inversion H; subst. exists s. repeat split; assumption. }
  simpl in H.
  destruct (exNext s [] (exPos s)) as [chk|e0].
  2:{ inversion H; subst. eexists. simpl. repeat split; reflexivity. }
  destruct (Nat.eqb (NumRows chk) 0).
  { inversion H; subst. eexists. simpl. repeat split; reflexivity. }
  match type of H with
  | match ?t with _ => _ end = _ =>
      destruct t as [[[[c' st'] h'] ps']|e0]
  end.
  2:{ inversion H; subst. eexists. simpl. repeat split; reflexivity. }
  eapply IH in H; [|simpl; reflexivity].
  destruct H as (s' & A & B & C). exists s'.
  split; [exact A|]. simpl in B, C. split; assumption.
Qed.

Lemma computeSeedPart_counts (fuel : nat) (p ps : cteProducer) :
  computeSeedPart hashRow fuel p = Some (Ok tt, ps) ->
  curIter ps = 1 /\ recursiveExec ps = recursiveExec p /\
  CTEMaxRecursionDepth ps = CTEMaxRecursionDepth p /\
  forall s, seedExec p = Some s ->
    exists s', seedExec ps = Some s' /\
               exOpens s' = exOpens s /\ exCloses s' = exCloses s.
Proof.
  intros H. pose proof (computeSeedPart_same hashRow _ _ _ _ H) as (D & _).
  unfold computeSeedPart in H.
  destruct (seedLoop hashRow fuel _ []) as [[[chks|e0] p1]|] eqn:E;
    [|discriminate|discriminate].
  pose proof (seedLoop_chunks hashRow _ _ _ _ _ E) as (_ & R & C & _).
  simpl in R, C. inversion H; subst ps; simpl.
  split; [rewrite C; reflexivity|]. split; [exact R|].
  split; [exact D|].
  intros s Hs.
  destruct (seedLoop_seedExec _ _ _ _ _ s E Hs) as (s' & A & B).
  exists s'. split; assumption.
Qed.

(** X14.  A successful evaluation ends with an iteration counter of at
    least 1 that is 1 or within the maximum recursion depth.  Between its
    start and its end the recursive plan has been closed and opened again
    once for every iteration after the first, and never otherwise; the
    seed plan is neither opened nor closed.  Without a recursive plan the
    counter ends at 1. *)
Theorem produce_iterations_and_reopens (fuel : nat) (p p' : cteProducer) :
  produce hashRow fuel p = Some (Ok tt, p') ->
  1 <= curIter p' /\
  (curIter p' = 1 \/ curIter p' <= CTEMaxRecursionDepth p) /\
  (forall ex, recursiveExec p = Some ex ->
     exists ex', recursiveExec p' = Some ex' /\
       Z.of_nat (exOpens ex') = Z.of_nat (exOpens ex) + (curIter p' - 1) /\
       Z.of_nat (exCloses ex')
       = Z.of_nat (exCloses ex) + (curIter p' - 1)) /\
  (recursiveExec p = None -> curIter p' = 1 /\ recursiveExec p' = None) /\
  (forall s, seedExec p = Some s ->
     exists s', seedExec p' = Some s' /\
       exOpens s' = exOpens s /\ exCloses s' = exCloses s).
Proof.
  unfold produce. intros H.
  destruct (stErr (resTbl p)); [discriminate|].
  destruct (computeSeedPart hashRow fuel p) as [[[[]|e1] p1]|] eqn:E1;
    [|discriminate|discriminate].
  destruct (computeRecursivePart hashRow fuel p1) as [[[[]|e2] p2]|] eqn:E2;
    [|discriminate|discriminate].
  inversion H; subst p'; clear H. simpl.
  apply computeSeedPart_counts in E1. destruct E1 as (C1 & R1 & D1 & S1).
  apply computeRecursivePart_advanced in E2.
  destruct E2 as ((S2 & D2 & L2 & B2 & R2) & N2).
  rewrite C1 in *. rewrite D1 in *. rewrite R1 in *.
  split; [exact L2|]. split; [exact B2|]. split; [exact R2|]. split.
  - intros Hn. rewrite (N2 Hn). split; [exact C1|].
    rewrite R1. exact Hn.
  - intros s Hs. rewrite S2. apply S1. exact Hs.
Qed.

End IterationFacts.

Lemma produce_iterations_and_reopens_witness :
  exists p',
    produce firstColumnHash 20 (exampleProducer true 10) = Some (Ok tt, p') /\
    (curIter p' = 1 \/ curIter p' <= 10).
Proof.
  destruct (produce firstColumnHash 20 (exampleProducer true 10))
    as [[[[]|e] p']|] eqn:E.
  - exists p'. split; [reflexivity|].
    destruct (produce_iterations_and_reopens firstColumnHash 20
                (exampleProducer true 10) p' E) as (_ & A & _).
    exact A.
  - vm_compute in E. discriminate.
  - vm_compute in E. discriminate.
Defined.


(** X15.  Once an evaluation has failed, every consumer is told so: the
    [Next] that ran the failing [produce] returns its error without moving
    the consumer's cursor, and every later [Next] of any consumer, with any
    amount of fuel, returns the same error at once, handing out no rows and
    leaving the producer (its tables and sub-plans) as it is. *)
Theorem Next_error_sticky (hashRow : Row -> Z) (fuel : nat) (e : CTEExec)
        (p p' : cteProducer) (err : error) :
  stDone (resTbl p) = false ->
  produce hashRow fuel p = Some (Err err, p') ->
  Next hashRow fuel e p = Some (Err err, e, p') /\
  forall fuel2 e2, Next hashRow fuel2 e2 p' = Some (Err err, e2, p').
Proof.
  intros Hd H.
  assert (F : stDone (resTbl p') = false /\ stErr (resTbl p') = Some err).
  { destruct (stErr (resTbl p)) as [e0|] eqn:Ee.
    - unfold produce in H. rewrite Ee in H. inversion H; subst.
      split; assumption.
    - pose proof (produce_accounting hashRow fuel p (Err err) p' Ee H)
        as (A & _ & B).
      split; [congruence | exact B]. }
  destruct F as [F1 F2]. split.
  - unfold Next. rewrite Hd. simpl. rewrite H. reflexivity.
  - intros fuel2 e2. unfold Next, produce. rewrite F1, F2. reflexivity.
Qed.

Lemma Next_error_sticky_witness :
  exists p',
    produce firstColumnHash 20 (exampleProducer true 2)
    = Some (Err (ErrCTEMaxRecursionDepth 3), p') /\
    Next firstColumnHash 0 freshExec p'
    = Some (Err (ErrCTEMaxRecursionDepth 3), freshExec, p').
Proof.
  destruct (produce firstColumnHash 20 (exampleProducer true 2))
    as [[[[]|e] p']|] eqn:E.
  - vm_compute in E. discriminate.
  - assert (He : e = ErrCTEMaxRecursionDepth 3)
      by (vm_compute in E; congruence).
    subst e. exists p'. split; [reflexivity|].
    destruct (Next_error_sticky firstColumnHash 20 freshExec
                (exampleProducer true 2) p' (ErrCTEMaxRecursionDepth 3)
                eq_refl E) as [_ A].
    apply A.
  - vm_compute in E. discriminate.
Defined.


Lemma checkPtrs_false (row : Row) (st : Storage) (ptrs : list RowPtr) :
  checkPtrs row None st ptrs = Ok false ->
  forall ptr, In ptr ptrs ->
    exists r', stGetRow st ptr = Some r' /\ r' <> row.
Proof.
  induction ptrs as [|q rest IH]; intros H ptr Hin; [destruct Hin|].
  simpl in H.
  destruct (stGetRow st q) as [r'|] eqn:Eq; [|discriminate].
  cbn [fault bind] in H.
  destruct (row_eqb row r') eqn:Er; [discriminate|].
  destruct Hin as [->|Hin].
  - exists r'. split; [exact Eq|]. intros ->.
    rewrite row_eqb_refl in Er. discriminate.
  - apply IH; assumption.
Qed.

Lemma stGetRow_In_stRows (st : Storage) (ptr : RowPtr) (r : Row) :
  stGetRow st ptr = Some r -> In r (stRows st).
Proof.
  unfold stGetRow, stRows. intros H.
  destruct (nth_error (stChunks st) (N.to_nat (ChkIdx ptr))) as [c|] eqn:E;
    [|discriminate].
  apply in_flat_map. exists c. split.
  - eapply nth_error_In. exact E.
  - eapply GetRow_In_logicalRows. exact H.
Qed.

Lemma stRows_stAdd (st : Storage) (c : Chunk) :
  stRows (stAdd st c) = stRows st ++ logicalRows c.
Proof.
  unfold stRows, stAdd. destruct (Nat.eqb (NumRows c) 0) eqn:E.
  - apply Nat.eqb_eq in E. rewrite (NumRows_zero_rows c E), app_nil_r.
    reflexivity.
  - simpl. rewrite flat_map_app. simpl. rewrite app_nil_r. reflexivity.
Qed.

Lemma stGetRow_beyond (st : Storage) (j : N) :
  (N.of_nat (NumChunks st) < 2 ^ 32)%N ->
  stGetRow st (mkRowPtr (u32 (NumChunks st)) j) = None.
Proof.
  intros H. unfold stGetRow. simpl. rewrite (u32_small _ H).
  assert (E : nth_error (stChunks st) (NumChunks st) = None)
    by (apply nth_error_None; unfold NumChunks; lia).
  rewrite E. reflexivity.
Qed.

Lemma rowsAt_In (c : Chunk) (s : list nat) (phys : nat) (r : Row) :
  In phys s -> nth_error (chkRows c) phys = Some r -> In r (rowsAt c s).
Proof.
  intros Hin Hr. unfold rowsAt, logicalRows, SetSel. simpl.
  apply in_flat_map. exists phys. split; [exact Hin|].
  rewrite Hr. left. reflexivity.
Qed.

Lemma NoDup_snoc (l : list Row) (x : Row) :
  NoDup l -> ~ In x l -> NoDup (l ++ [x]).
Proof.
  intros Hn Hx. apply NoDup_app.
  - exact Hn.
  - constructor; [intros []|constructor].
  - intros a Ha [Hax|[]]. subst a. exact (Hx Ha).
Qed.

Section DistinctFacts.

Variable hashRow : Row -> Z.

(** Stage 3 keeps only rows the table does not hold, and no row twice: a
    row whose key is already in the index for the incoming batch cannot be
    kept, since probing its bucket reads the batch through the table. *)
Lemma stage3_fresh (chk : Chunk) (selChk : list nat) (st : Storage)
      (hv : list Z) (h0 : baseHashTable) :
  (N.of_nat (NumChunks st) < 2 ^ 32)%N ->
  (forall phys, In phys selChk ->
     exists r, nth_error (chkRows chk) phys = Some r /\
               nth_error hv phys = Some (hashRow r)) ->
  htComplete hashRow st h0 ->
  forall idxs selSt h selF hF,
    dedupInStorage (SetSel chk selChk) st hv selChk (NumChunks st)
      idxs selSt h = Ok (selF, hF) ->
    (forall kp, In kp h0 -> In kp h) ->
    (forall phys, In phys selSt ->
       In phys selChk /\
       exists r j,
         nth_error (chkRows chk) phys = Some r /\
         In (hashRow r, mkRowPtr (u32 (NumChunks st)) (u32 j)) h) ->
    NoDup (rowsAt chk selSt) ->
    (forall r, In r (rowsAt chk selSt) -> ~ In r (stRows st)) ->
    NoDup (rowsAt chk selF) /\
    (forall r, In r (rowsAt chk selF) -> ~ In r (stRows st)) /\
    (forall phys, In phys selF -> In phys selChk) /\
    (forall kp, In kp h0 -> In kp hF).
Proof.
  intros Hc32 Hphys Hcomp.
  induction idxs as [|i rest IH];
    intros selSt h selF hF H Hsub Hkept Hnd Hfresh.
  - simpl in H. inversion H; subst selF hF.
    split; [exact Hnd|]. split; [exact Hfresh|].
    split; [intros phys Hp; apply Hkept; exact Hp | exact Hsub].
  - cbn [dedupInStorage] in H.
    destruct (nth_error selChk i) as [phys|] eqn:Ei; [|discriminate].
    cbn [fault bind] in H.
    destruct (Hphys phys (nth_error_In _ _ Ei)) as (r & Hr & Hk).
    rewrite Hk in H. cbn [fault bind] in H.
    rewrite (GetRow_SetSel chk selChk i phys Ei), Hr in H.
    cbn [fault bind] in H.
    destruct (checkHasDup (hashRow r) r None st h) as [[]|] eqn:Ed;
      [| |discriminate]; cbn [bind] in H.
    + eapply IH; eassumption.
    + unfold checkHasDup in Ed.
      pose proof (checkPtrs_false _ _ _ Ed) as Hf.
      assert (Hn1 : ~ In r (rowsAt chk selSt)).
      { intros Hin.
        destruct (In_rowsAt chk selSt r Hin) as (phys' & Hp' & Hr').
        destruct (Hkept phys' Hp') as (_ & r2 & j & Hr2 & Hin2).
        rewrite Hr' in Hr2. inversion Hr2; subst r2.
        apply In_htGet in Hin2. destruct (Hf _ Hin2) as (r' & Hres & _).
        rewrite (stGetRow_beyond st _ Hc32) in Hres. discriminate. }
      assert (Hn2 : ~ In r (stRows st)).
      { intros Hin. destruct (Hcomp r Hin) as (ptr & Hp & Hres).
        apply Hsub in Hp. apply In_htGet in Hp.
        destruct (Hf _ Hp) as (r' & Hres' & Hne).
        rewrite Hres in Hres'. inversion Hres'; subst r'.
        apply Hne. reflexivity. }
      eapply IH; [exact H| | | |].
      * intros kp Hkp. unfold htPut. apply in_or_app. left.
        apply Hsub. exact Hkp.
      * intros phys' Hp'. apply in_app_or in Hp'.
        destruct Hp' as [Hp'|[Hp'|[]]].
        -- destruct (Hkept phys' Hp') as (A & r2 & j & B & C).
           split; [exact A|]. exists r2, j. split; [exact B|].
           unfold htPut. apply in_or_app. left. exact C.
        -- subst phys'. split; [eapply nth_error_In; exact Ei|].
           exists r, (length selSt). split; [exact Hr|].
           unfold htPut. apply in_or_app. right. left. reflexivity.
      * rewrite (rowsAt_app chk selSt phys r Hr).
        apply NoDup_snoc; assumption.
      * intros r0 Hin. rewrite (rowsAt_app chk selSt phys r Hr) in Hin.
        apply in_app_or in Hin. destruct Hin as [Hin|[Hin|[]]].
        -- apply Hfresh. exact Hin.
        -- subst r0. exact Hn2.
Qed.


(** A successful DISTINCT insertion into a table that is a set. *)
Lemma insert_set_post (psel : list nat) (chk : Chunk)
        (st : Storage) (h : baseHashTable) (chk1 : Chunk) (st1 : Storage)
        (h1 : option baseHashTable) (ps1 : list nat) :
  psel = seq 0 (length psel) ->
  wfChunk chk ->
  (N.of_nat (NumRows chk) < 2 ^ 32)%N ->
  (N.of_nat (NumChunks st) < 2 ^ 32)%N ->
  htValid st h -> htComplete hashRow st h -> NoDup (stRows st) ->
  tryDedupAndAdd hashRow true psel chk st (Some h)
  = Ok (chk1, st1, h1, ps1) ->
  stRows st1 = stRows st ++ logicalRows chk1 /\
  NoDup (stRows st1) /\
  (forall r, In r (logicalRows chk1) ->
             In r (logicalRows chk) /\ ~ In r (stRows st)) /\
  (forall r, In r (stRows st1) <->
             In r (stRows st) \/ In r (logicalRows chk)) /\
  (exists h1', h1 = Some h1' /\ htValid st1 h1' /\
               htComplete hashRow st1 h1') /\
  ps1 = seq 0 (length ps1).
Proof.
  intros Hps Hwf H32 Hc32 Hv Hcomp Hnd H.
  destruct (first_insert_post hashRow psel chk st h chk1 st1 h1 ps1
              Hps Hwf H32 Hc32 Hv H) as (h1' & Eh & Hv1 & Hidx & Hps1).
  subst h1.
  pose proof (tryDedupAndAdd_storage _ _ _ _ _ _ _ _ _ _ H) as Est.
  assert (F : NoDup (logicalRows chk1) /\
              (forall r, In r (logicalRows chk1) ->
                         In r (logicalRows chk) /\ ~ In r (stRows st)) /\
              (forall kp, In kp h -> In kp h1')).
  { unfold tryDedupAndAdd, deduplicate in H.
    destruct (Nat.eqb (NumRows chk) 0) eqn:En.
    - cbn [bind] in H. inversion H; subst chk1 h1'.
      apply Nat.eqb_eq in En. rewrite (NumRows_zero_rows chk En).
      split; [constructor|]. split; [intros r []|].
      intros kp Hkp; exact Hkp.
    - destruct (computeChunkHash hashRow psel chk) as [[selOri hv] ps']
        eqn:Ech.
      destruct (computeChunkHash_facts hashRow psel chk selOri hv ps'
                  Hps Hwf Ech) as (_ & Hfacts).
      destruct (stage2_start hashRow chk st hv selOri H32 Hfacts)
        as (selF & Hst2 & _ & _ & P3 & P4 & _).
      rewrite Hst2 in H. cbn [bind fault] in H.
      destruct (dedupInStorage (SetSel chk selF) st hv selF (NumChunks st)
                  (seq 0 (length selF)) [] h) as [[selSt hF]|] eqn:Est3;
        [|discriminate].
      cbn [bind] in H. inversion H; subst chk1 h1'. clear H.
      destruct (stage3_fresh chk selF st hv h Hc32 P4 Hcomp
                  (seq 0 (length selF)) [] h selSt hF Est3)
        as (N1 & N2 & N3 & N4).
      + intros kp Hkp; exact Hkp.
      + intros phys [].
      + constructor.
      + intros r [].
      + change (logicalRows (SetSel (SetSel chk selF) selSt))
          with (rowsAt chk selSt).
        split; [exact N1|]. split; [|exact N4].
        intros r Hr. split; [|apply N2; exact Hr].
        destruct (In_rowsAt chk selSt r Hr) as (phys & Hp & Hrow).
        apply P3. eapply rowsAt_In; [apply N3; exact Hp | exact Hrow]. }
  destruct F as (F1 & F2 & F3). subst st1.
  assert (M : forall r, In r (stRows (stAdd st chk1)) <->
                        In r (stRows st) \/ In r (logicalRows chk)).
  { intros r. rewrite stRows_stAdd. split.
    - intros Hin. apply in_app_or in Hin. destruct Hin as [Hin|Hin].
      + left. exact Hin.
      + right. apply F2. exact Hin.
    - intros [Hin|Hin].
      + apply in_or_app. left. exact Hin.
      + rewrite <- stRows_stAdd.
        destruct (Hidx r Hin) as (ptr & _ & Hres).
        eapply stGetRow_In_stRows. exact Hres. }
  split; [apply stRows_stAdd|]. split.
  - rewrite stRows_stAdd. apply NoDup_app; [exact Hnd | exact F1|].
    intros a Ha Hb. exact (proj2 (F2 a Hb) Ha).
  - split; [exact F2|]. split; [exact M|]. split; [|exact Hps1].
    exists h1'. split; [reflexivity|]. split; [exact Hv1|].
    intros r Hr. apply M in Hr. destruct Hr as [Hr|Hr].
    + destruct (Hcomp r Hr) as (ptr & Hp & Hres). exists ptr.
      split; [apply F3; exact Hp|].
      apply stGetRow_stAdd_old. exact Hres.
    + apply Hidx. exact Hr.
Qed.

(** X16.  DISTINCT insertion keeps the table a set.  When the rows of the
    table are pairwise different and the hash index is valid and complete
    (every row of the table is reachable through it), a successful
    [tryDedupAndAdd] appends the rows of the returned batch, which are
    rows of the incoming batch that the table did not hold, no row twice;
    the rows of the table are then those it held and those of the incoming
    batch, still pairwise different, and the index is again valid and
    complete. *)
Theorem distinct_insert_keeps_table_a_set (psel : list nat) (chk : Chunk)
        (st : Storage) (h : baseHashTable) (chk1 : Chunk) (st1 : Storage)
        (h1 : option baseHashTable) (ps1 : list nat) :
  psel = seq 0 (length psel) ->
  wfChunk chk ->
  (N.of_nat (NumRows chk) < 2 ^ 32)%N ->
  (N.of_nat (NumChunks st) < 2 ^ 32)%N ->
  htValid st h -> htComplete hashRow st h -> NoDup (stRows st) ->
  tryDedupAndAdd hashRow true psel chk st (Some h)
  = Ok (chk1, st1, h1, ps1) ->
  stRows st1 = stRows st ++ logicalRows chk1 /\
  NoDup (stRows st1) /\
  (forall r, In r (logicalRows chk1) ->
             In r (logicalRows chk) /\ ~ In r (stRows st)) /\
  (forall r, In r (stRows st1) <->
             In r (stRows st) \/ In r (logicalRows chk)) /\
  exists h1', h1 = Some h1' /\ htValid st1 h1' /\
              htComplete hashRow st1 h1'.
Proof.
  intros Hps Hwf H32 Hc32 Hv Hcomp Hnd H.
  destruct (insert_set_post psel chk st h chk1 st1 h1 ps1
              Hps Hwf H32 Hc32 Hv Hcomp Hnd H) as (A & B & C & D & E & _).
  split; [exact A|]. split; [exact B|]. split; [exact C|].
  split; [exact D | exact E].
Qed.

End DistinctFacts.


Lemma distinct_insert_keeps_table_a_set_witness :
  NoDup (stRows (mkStorage
                   [mkChunk [[1; 10]; [2; 5]; [1; 10]] (Some [0; 1]%nat)]
                   false None 0 0)).
Proof.
  destruct (distinct_insert_keeps_table_a_set firstColumnHash [0; 1]%nat
              dupChunk emptyStorage newConcurrentMapHashTable
              (mkChunk [[1; 10]; [2; 5]; [1; 10]] (Some [0; 1]%nat))
              (mkStorage
                 [mkChunk [[1; 10]; [2; 5]; [1; 10]] (Some [0; 1]%nat)]
                 false None 0 0)
              (Some [(1, mkRowPtr 0 0); (2, mkRowPtr 0 1)])
              [0; 1; 2]%nat)
    as (_ & A & _).
  - reflexivity.
  - exact I.
  - reflexivity.
  - reflexivity.
  - intros key ptr [].
  - intros r [].
  - constructor.
  - vm_compute. reflexivity.
  - exact A.
Defined.


Section DistinctEvaluation.

Variable hashRow : Row -> Z.

Lemma setTable_chunks (a b : Storage) (h : option baseHashTable)
      (psel : list nat) :
  stChunks a = stChunks b ->
  setTable hashRow a h psel -> setTable hashRow b h psel.
Proof.
  intros E (P & N & h' & Eh & V & C).
  assert (G : forall ptr, stGetRow b ptr = stGetRow a ptr)
    by (intros ptr; unfold stGetRow; rewrite E; reflexivity).
  assert (R : stRows b = stRows a)
    by (unfold stRows; rewrite E; reflexivity).
  split; [exact P|]. split; [rewrite R; exact N|].
  exists h'. split; [exact Eh|]. split.
  - intros key ptr Hin. rewrite G. exact (V key ptr Hin).
  - intros r Hr. rewrite R in Hr. destruct (C r Hr) as (ptr & Hp & Hres).
    exists ptr. split; [exact Hp|]. rewrite G. exact Hres.
Qed.

Lemma setTable_insert (psel : list nat) (chk : Chunk) (st : Storage)
      (h : option baseHashTable) (chk1 : Chunk) (st1 : Storage)
      (h1 : option baseHashTable) (ps1 : list nat) :
  goodChunk chk ->
  (N.of_nat (NumChunks st) < 2 ^ 32)%N ->
  setTable hashRow st h psel ->
  tryDedupAndAdd hashRow true psel chk st h = Ok (chk1, st1, h1, ps1) ->
  setTable hashRow st1 h1 ps1.
Proof.
  intros [Hwf H32] Hc32 (P & N & h' & Eh & V & C) H. subst h.
  destruct (insert_set_post hashRow psel chk st h' chk1 st1 h1 ps1
              P Hwf H32 Hc32 V C N H) as (_ & A & _ & _ & B & D).
  split; [exact D|]. split; [exact A | exact B].
Qed.

Lemma seedLoop_distinct (fuel : nat) :
  forall p chks chks' p',
    seedLoop hashRow fuel p chks = Some (Ok chks', p') ->
    isDistinct p = true ->
    goodNext (option_map exNext (seedExec p)) ->
    (N.of_nat (NumChunks (iterInTbl p')) < 2 ^ 32)%N ->
    setTable hashRow (iterInTbl p) (hashTbl p) (sel p) ->
    setTable hashRow (iterInTbl p') (hashTbl p') (sel p').
Proof.
  induction fuel as [|fuel IH]; intros p chks chks' p' H Hd Hg Hb Hs;
    [discriminate|].
  simpl in H.
  destruct (limitDone p (iterInTbl p)).
  { inversion H; subst. exact Hs. }
  destruct (seedExec p) as [ex|] eqn:Eex; [|discriminate].
  simpl in H.
  destruct (exNext ex [] (exPos ex)) as [chk|e0] eqn:En; [|discriminate].
  destruct (Nat.eqb (NumRows chk) 0).
  { inversion H; subst. simpl. exact Hs. }
  rewrite Hd in H.
  destruct (tryDedupAndAdd hashRow true (sel p) chk (iterInTbl p)
              (hashTbl p)) as [[[[c' st'] h'] ps']|e0] eqn:Et;
    [|discriminate].
  pose proof (seedLoop_chunks hashRow _ _ _ _ _ H) as (_ & _ & _ & _ & F).
  destruct (F chks' eq_refl) as (added & _ & Hc). simpl in Hc.
  pose proof (tryDedupAndAdd_storage _ _ _ _ _ _ _ _ _ _ Et) as Hst.
  assert (Hb0 : (N.of_nat (NumChunks (iterInTbl p)) < 2 ^ 32)%N).
  { pose proof (NumChunks_stAdd_le (iterInTbl p) c') as L.
    rewrite <- Hst in L. unfold NumChunks in *.
    rewrite Hc, length_app in Hb. lia. }
  eapply IH in H; [exact H | exact Hd | | exact Hb |].
  - simpl. intros g inp k c Eg Hc'.
    apply (Hg g inp k c); [exact Eg | exact Hc'].
  - simpl. eapply setTable_insert; [|exact Hb0 | exact Hs | exact Et].
    eapply Hg; [reflexivity | exact En].
Qed.

Lemma seedLoop_out (fuel : nat) :
  forall p chks r p',
    seedLoop hashRow fuel p chks = Some (r, p') ->
    iterOutTbl p' = iterOutTbl p.
Proof.
  induction fuel as [|fuel IH]; intros p chks r p' H; [discriminate|].
  simpl in H.
  destruct (limitDone p (iterInTbl p)); [inversion H; reflexivity|].
  destruct (seedExec p) as [ex|]; [|inversion H; reflexivity].
  simpl in H.
  destruct (exNext ex [] (exPos ex)) as [chk|e0];
    [|inversion H; reflexivity].
  destruct (Nat.eqb (NumRows chk) 0); [inversion H; reflexivity|].
  destruct (tryDedupAndAdd hashRow (isDistinct p) (sel p) chk (iterInTbl p)
              (hashTbl p)) as [[[[c' st'] h'] ps']|e0];
    [|inversion H; reflexivity].
  apply IH in H. exact H.
Qed.

Lemma computeSeedPart_distinct (fuel : nat) (p ps : cteProducer) :
  computeSeedPart hashRow fuel p = Some (Ok tt, ps) ->
  isDistinct p = true ->
  goodNext (option_map exNext (seedExec p)) ->
  stChunks (resTbl p) = [] -> stChunks (iterInTbl p) = [] ->
  setTable hashRow (iterInTbl p) (hashTbl p) (sel p) ->
  (N.of_nat (NumChunks (resTbl ps)) < 2 ^ 32)%N ->
  setTable hashRow (resTbl ps) (hashTbl ps) (sel ps) /\
  iterOutTbl ps = iterOutTbl p.
Proof.
  unfold computeSeedPart. intros H Hd Hg Er Ei Hs Hb.
  destruct (seedLoop hashRow fuel _ []) as [[[chks|e0] p1]|] eqn:E;
    [|discriminate|discriminate].
  pose proof (seedLoop_chunks hashRow _ _ _ _ _ E) as (A & _ & _ & _ & F).
  destruct (F chks eq_refl) as (added & E1 & E2).
  simpl in A, E1, E2. subst added. rewrite Ei in E2. simpl in E2.
  assert (Eo : iterOutTbl p1 = iterOutTbl p).
  { pose proof (seedLoop_out _ _ _ _ _ E) as O. exact O. }
  inversion H; subst ps; clear H. simpl in *.
  assert (Ec : stChunks (fold_left stAdd chks (resTbl p1))
               = stChunks (iterInTbl p1)).
  { rewrite stChunks_fold_stAdd, A, Er, E2. reflexivity. }
  split; [|exact Eo].
  apply (setTable_chunks (iterInTbl p1)); [symmetry; exact Ec|].
  eapply seedLoop_distinct; [exact E | exact Hd | exact Hg | |].
  - unfold NumChunks in *. rewrite <- Ec. exact Hb.
  - simpl. apply (setTable_chunks (iterInTbl p)); [reflexivity | exact Hs].
Qed.


Lemma foldIntoRes_distinct (out : Storage) (idxs : list nat) :
  forall p chks chks' p',
    foldIntoRes hashRow out idxs p chks = (Ok chks', p') ->
    isDistinct p = true ->
    Forall goodChunk (stChunks out) ->
    (N.of_nat (NumChunks (resTbl p')) < 2 ^ 32)%N ->
    setTable hashRow (resTbl p) (hashTbl p) (sel p) ->
    setTable hashRow (resTbl p') (hashTbl p') (sel p').
Proof.
  induction idxs as [|i rest IH]; intros p chks chks' p' H Hd Hg Hb Hs;
    simpl in H.
  - inversion H; subst. exact Hs.
  - destruct (stGetChunk out i) as [chk|e0] eqn:Eg; [|discriminate].
    rewrite Hd in H.
    destruct (tryDedupAndAdd hashRow true (sel p) _ (resTbl p) (hashTbl p))
      as [[[[c' st'] h'] ps']|e0] eqn:Et; [|discriminate].
    pose proof (foldIntoRes_chunks hashRow _ _ _ _ _ _ H) as [(more & Hm) _].
    simpl in Hm.
    pose proof (tryDedupAndAdd_storage _ _ _ _ _ _ _ _ _ _ Et) as Hst.
    assert (Hb0 : (N.of_nat (NumChunks (resTbl p)) < 2 ^ 32)%N).
    { pose proof (NumChunks_stAdd_le (resTbl p) c') as L.
      rewrite <- Hst in L. unfold NumChunks in *.
      rewrite Hm, length_app in Hb. lia. }
    assert (Hgood : goodChunk chk).
    { unfold stGetChunk in Eg.
      destruct (nth_error (stChunks out) i) as [c|] eqn:En;
        [|discriminate].
      inversion Eg; subst c. rewrite Forall_forall in Hg.
      apply Hg. eapply nth_error_In. exact En. }
    eapply IH in H; [exact H | exact Hd | exact Hg | exact Hb |].
    simpl. eapply setTable_insert; [|exact Hb0 | exact Hs | exact Et].
    exact Hgood.
Qed.

Lemma setup_distinct (p p' : cteProducer) :
  setupTblsForNewIteration hashRow p = (Ok tt, p') ->
  isDistinct p = true ->
  (forall out, iterOutTbl p = Some out -> Forall goodChunk (stChunks out)) ->
  (N.of_nat (NumChunks (resTbl p')) < 2 ^ 32)%N ->
  setTable hashRow (resTbl p) (hashTbl p) (sel p) ->
  setTable hashRow (resTbl p') (hashTbl p') (sel p') /\
  (forall out, iterOutTbl p' = Some out -> stChunks out = []).
Proof.
  unfold setupTblsForNewIteration. intros H Hd Hg Hb Hs.
  destruct (iterOutTbl p) as [out|] eqn:Eo; [|discriminate].
  destruct (foldIntoRes hashRow out (seq 0 (NumChunks out)) p [])
    as [[chks|e0] q] eqn:E; [|discriminate].
  pose proof (foldIntoRes_same hashRow _ _ _ _ _ _ E)
    as ((_ & Hdq & _) & _).
  rewrite Hdq, Hd in H. simpl in H. inversion H; subst p'; clear H.
  simpl in *. split.
  - eapply foldIntoRes_distinct;
      [exact E | exact Hd | apply Hg; reflexivity | exact Hb | exact Hs].
  - intros o Ho. inversion Ho; subst o. reflexivity.
Qed.

Lemma Forall_good_stAdd (out : Storage) (chk : Chunk) :
  Forall goodChunk (stChunks out) -> goodChunk chk ->
  Forall goodChunk (stChunks (stAdd out chk)).
Proof.
  intros Ho Hc. unfold stAdd. destruct (Nat.eqb (NumRows chk) 0);
    [exact Ho|]. simpl. apply Forall_app. split; [exact Ho|].
  constructor; [exact Hc | constructor].
Qed.

Lemma recBody_distinct (p : cteProducer) :
  distinctInv hashRow p ->
  match recBody hashRow p with
  | inl (Ok _, q) =>
      (N.of_nat (NumChunks (resTbl q)) < 2 ^ 32)%N -> distinctInv hashRow q
  | inl (Err _, _) => True
  | inr q =>
      (N.of_nat (NumChunks (resTbl q)) < 2 ^ 32)%N -> distinctInv hashRow q
  end.
Proof.
  intros (Hd & Hg & Hs & Ho). unfold recBody.
  destruct (recursiveExec p) as [ex|] eqn:Eex; [|exact I].
  simpl.
  destruct (exNext ex (stChunks (iterInTbl p)) (exPos ex)) as [chk|e0]
    eqn:En; [|exact I].
  destruct (Nat.eqb (NumRows chk) 0).
  2:{ simpl. destruct (iterOutTbl p) as [out|] eqn:Eo; [|exact I].
      intros _. unfold distinctInv. simpl.
      split; [exact Hd|]. split; [exact Hg|]. split; [exact Hs|].
      intros o Eo'. inversion Eo'; subst o.
      apply Forall_good_stAdd; [apply Ho; reflexivity|].
      eapply Hg; [reflexivity | exact En]. }
  destruct (setupTblsForNewIteration hashRow _) as [[[]|e1] p1] eqn:Es;
    [|exact I].
  assert (A1 : (N.of_nat (NumChunks (resTbl p1)) < 2 ^ 32)%N ->
               distinctInv hashRow p1).
  { intros Hb.
    pose proof (setup_same hashRow _ _ _ Es) as ((_ & D1 & _) & _ & R1).
    destruct (setup_distinct _ _ Es Hd Ho Hb Hs) as [S1 O1].
    simpl in D1, R1.
    split; [rewrite D1; exact Hd|]. split; [rewrite R1; exact Hg|].
    split; [exact S1|].
    intros o Eo'. rewrite (O1 o Eo'). constructor. }
  destruct (limitDone p1 (resTbl p1)); [exact A1|].
  destruct (Nat.eqb (NumChunks (iterInTbl p1)) 0); [exact A1|].
  cbv zeta. simpl.
  destruct (curIter p1 + 1 >? CTEMaxRecursionDepth p1); [exact I|].
  destruct (exCloseErr _); [exact I|].
  destruct (exOpenErr _); [exact I|].
  intros Hb. simpl in Hb. destruct (A1 Hb) as (D1 & _ & S1 & O1).
  unfold distinctInv. simpl.
  split; [exact D1|]. split; [exact Hg|]. split; [exact S1 | exact O1].
Qed.

Lemma extendsTbl_NumChunks (a b : Storage) :
  extendsTbl a b -> (NumChunks a <= NumChunks b)%nat.
Proof.
  intros [more H]. unfold NumChunks. rewrite H, length_app. lia.
Qed.

Lemma recLoop_distinct (fuel : nat) :
  forall p q,
    recLoop hashRow fuel p = Some (Ok tt, q) ->
    (N.of_nat (NumChunks (resTbl q)) < 2 ^ 32)%N ->
    distinctInv hashRow p -> distinctInv hashRow q.
Proof.
  induction fuel as [|fuel IH]; intros p q H Hb Hi; [discriminate|].
  simpl in H. pose proof (recBody_distinct p Hi) as B.
  destruct (recBody hashRow p) as [[r0 q0]|p1].
  - inversion H; subst. apply B. exact Hb.
  - pose proof (extendsTbl_NumChunks _ _
                  (recLoop_extends hashRow _ _ _ _ H)) as L.
    apply (IH p1 q H Hb). apply B. lia.
Qed.

Lemma computeRecursivePart_distinct (fuel : nat) (p q : cteProducer) :
  computeRecursivePart hashRow fuel p = Some (Ok tt, q) ->
  (N.of_nat (NumChunks (resTbl q)) < 2 ^ 32)%N ->
  distinctInv hashRow p -> distinctInv hashRow q.
Proof.
  unfold computeRecursivePart. intros H Hb Hi.
  destruct (recursiveExec p); [|inversion H; subst; exact Hi].
  destruct (Nat.eqb (NumChunks (iterInTbl p)) 0);
    [inversion H; subst; exact Hi|].
  destruct (curIter p >? CTEMaxRecursionDepth p); [discriminate|].
  destruct (limitDone p (resTbl p)); [inversion H; subst; exact Hi|].
  eapply recLoop_distinct; eassumption.
Qed.


(** X17.  The result of a DISTINCT evaluation is a set.  For a producer in
    DISTINCT mode that starts with empty tables and a fresh hash index, and
    whose plans hand out well-formed batches of fewer than 2^32 rows: when
    [produce] succeeds and [resTbl] holds fewer than 2^32 batches, no row
    occurs twice in [resTbl], and the hash index is valid and complete for
    it. *)
Theorem distinct_result_is_a_set (fuel : nat) (p p' : cteProducer) :
  isDistinct p = true ->
  hashTbl p = Some newConcurrentMapHashTable ->
  sel p = seq 0 (length (sel p)) ->
  stChunks (resTbl p) = [] -> stChunks (iterInTbl p) = [] ->
  (forall out, iterOutTbl p = Some out -> stChunks out = []) ->
  goodNext (option_map exNext (seedExec p)) ->
  goodNext (option_map exNext (recursiveExec p)) ->
  produce hashRow fuel p = Some (Ok tt, p') ->
  (N.of_nat (NumChunks (resTbl p')) < 2 ^ 32)%N ->
  NoDup (stRows (resTbl p')) /\
  exists h, hashTbl p' = Some h /\ htValid (resTbl p') h /\
            htComplete hashRow (resTbl p') h.
Proof.
  intros Hd Hh Hsel Er Ei Eo Gs Gr H Hb.
  unfold produce in H.
  destruct (stErr (resTbl p)); [discriminate|].
  destruct (computeSeedPart hashRow fuel p) as [[[[]|e1] p1]|] eqn:E1;
    [|discriminate|discriminate].
  destruct (computeRecursivePart hashRow fuel p1) as [[[[]|e2] p2]|] eqn:E2;
    [|discriminate|discriminate].
  inversion H; subst p'; clear H. simpl in Hb. simpl.
  change (NumChunks (stSetDone (resTbl p2))) with (NumChunks (resTbl p2))
    in Hb.
  pose proof (extendsTbl_NumChunks _ _
                (computeRecursivePart_extends hashRow _ _ _ _ E2)) as L.
  pose proof (computeSeedPart_same hashRow _ _ _ _ E1)
    as (_ & D1 & _ & _ & _ & R1 & _).
  assert (S0 : setTable hashRow (iterInTbl p) (hashTbl p) (sel p)).
  { split; [exact Hsel|]. split.
    - unfold stRows. rewrite Ei. constructor.
    - exists newConcurrentMapHashTable. split; [exact Hh|]. split.
      + intros key ptr [].
      + intros r Hr. unfold stRows in Hr. rewrite Ei in Hr. destruct Hr. }
  destruct (computeSeedPart_distinct fuel p p1 E1 Hd Gs Er Ei S0)
    as [S1 O1]; [lia|].
  assert (I1 : distinctInv hashRow p1).
  { split; [rewrite D1; exact Hd|]. split; [rewrite R1; exact Gr|].
    split; [exact S1|].
    intros out Ho. rewrite O1 in Ho. rewrite (Eo out Ho). constructor. }
  destruct (computeRecursivePart_distinct fuel p1 p2 E2 Hb I1)
    as (_ & _ & S2 & _).
  assert (S3 : setTable hashRow (stSetDone (resTbl p2)) (hashTbl p2)
                 (sel p2))
    by (apply (setTable_chunks (resTbl p2)); [reflexivity | exact S2]).
  destruct S3 as (_ & N & h & Eh & V & C).
  split; [exact N|]. exists h. split; [exact Eh|]. split; assumption.
Qed.

End DistinctEvaluation.

Lemma goodNext_seedOneTwoThree :
  goodNext (option_map exNext (Some seedOneTwoThree)).
Proof.
  intros g inp k c Eg Hc. inversion Eg; subst g; clear Eg.
  destruct k; inversion Hc; subst c; split; try exact I;
    vm_compute; reflexivity.
Qed.

Lemma goodNext_recIncrBatched :
  goodNext (option_map exNext (Some recIncrBatched)).
Proof.
  intros g inp k c Eg Hc. injection Eg as <-.
  destruct k as [|k]; cbn [recIncrBatched exNext] in Hc;
    injection Hc as <-; (split; [exact I|]).
  - unfold NumRows. cbn [chkSel chkRows].
    pose proof (firstn_le_length 1024 (incrBelowFive inp)) as L.
    apply (N.le_lt_trans _ (N.of_nat 1024)); [|vm_compute; reflexivity].
    apply N2Z.inj_le. rewrite !nat_N_Z. apply Nat2Z.inj_le. exact L.
  - vm_compute. reflexivity.
Qed.

Lemma distinct_result_is_a_set_witness :
  exists p',
    produce firstColumnHash 20 batchedProducer = Some (Ok tt, p') /\
    NoDup (stRows (resTbl p')).
Proof.
  destruct (produce firstColumnHash 20 batchedProducer)
    as [[[[]|e] p']|] eqn:E.
  - exists p'. split; [reflexivity|].
    destruct (distinct_result_is_a_set firstColumnHash 20 batchedProducer
                p') as [A _].
    + reflexivity.
    + reflexivity.
    + reflexivity.
    + reflexivity.
    + reflexivity.
    + intros out Ho. vm_compute in Ho. inversion Ho. reflexivity.
    + exact goodNext_seedOneTwoThree.
    + exact goodNext_recIncrBatched.
    + exact E.
    + vm_compute in E. inversion E. vm_compute. reflexivity.
    + exact A.
  - vm_compute in E. discriminate.
  - vm_compute in E. discriminate.
Defined.


Lemma NoDup_app_disjoint (l1 l2 : list Row) :
  NoDup (l1 ++ l2) -> forall x, In x l2 -> ~ In x l1.
Proof.
  induction l1 as [|a l1 IH]; intros Hn x H2 H1; [destruct H1|].
  simpl in Hn. inversion Hn; subst. destruct H1 as [->|H1].
  - match goal with Hx : ~ In _ _ |- _ => apply Hx end.
    apply in_or_app. right. exact H2.
  - exact (IH ltac:(assumption) x H2 H1).
Qed.

Lemma In_stRows_chunks (out : Storage) (r : Row) :
  In r (stRows out) <->
  exists i c, In i (seq 0 (NumChunks out)) /\ stGetChunk out i = Ok c /\
              In r (logicalRows c).
Proof.
  unfold stRows, stGetChunk, NumChunks. rewrite in_flat_map. split.
  - intros (c & Hc & Hr). destruct (In_nth_error _ _ Hc) as [i Hi].
    exists i, c. split.
    + apply in_seq. split; [lia|]. simpl. apply nth_error_Some.
      rewrite Hi. discriminate.
    + split; [rewrite Hi; reflexivity | exact Hr].
  - intros (i & c & _ & Hg & Hr).
    destruct (nth_error (stChunks out) i) as [c'|] eqn:E; [|discriminate].
    inversion Hg; subst c'. exists c.
    split; [eapply nth_error_In; exact E | exact Hr].
Qed.

Section DeltaFacts.

Variable hashRow : Row -> Z.

Lemma foldIntoRes_members (out : Storage) (idxs : list nat) :
  forall p chks chks' p',
    foldIntoRes hashRow out idxs p chks = (Ok chks', p') ->
    isDistinct p = true ->
    Forall goodChunk (stChunks out) ->
    (N.of_nat (NumChunks (resTbl p')) < 2 ^ 32)%N ->
    setTable hashRow (resTbl p) (hashTbl p) (sel p) ->
    forall r,
      In r (stRows (resTbl p')) <->
      In r (stRows (resTbl p)) \/
      exists i c, In i idxs /\ stGetChunk out i = Ok c /\
                  In r (logicalRows c).
Proof.
  induction idxs as [|i rest IH]; intros p chks chks' p' H Hd Hg Hb Hs r;
    simpl in H.
  - inversion H; subst. split; [intros Hr; left; exact Hr|].
    intros [Hr|(i & c & [] & _)]. exact Hr.
  - destruct (stGetChunk out i) as [chk|e0] eqn:Eg; [|discriminate].
    rewrite Hd in H.
    destruct (tryDedupAndAdd hashRow true (sel p) _ (resTbl p) (hashTbl p))
      as [[[[c' st'] h'] ps']|e0] eqn:Et; [|discriminate].
    pose proof (foldIntoRes_chunks hashRow _ _ _ _ _ _ H) as [(more & Hm) _].
    simpl in Hm.
    pose proof (tryDedupAndAdd_storage _ _ _ _ _ _ _ _ _ _ Et) as Hst.
    assert (Hb0 : (N.of_nat (NumChunks (resTbl p)) < 2 ^ 32)%N).
    { pose proof (NumChunks_stAdd_le (resTbl p) c') as L.
      rewrite <- Hst in L. unfold NumChunks in *.
      rewrite Hm, length_app in Hb. lia. }
    assert (Hgood : goodChunk chk).
    { unfold stGetChunk in Eg.
      destruct (nth_error (stChunks out) i) as [c|] eqn:En;
        [|discriminate].
      inversion Eg; subst c. rewrite Forall_forall in Hg.
      apply Hg. eapply nth_error_In. exact En. }
    pose proof (setTable_insert hashRow _ _ _ _ _ _ _ _ Hgood Hb0 Hs Et)
      as Hs1.
    destruct Hs as (P & N & h0 & Eh & V & C).
    rewrite Eh in Et. destruct Hgood as [Hwf H32].
    destruct (insert_set_post hashRow _ _ _ _ _ _ _ _
                P Hwf H32 Hb0 V C N Et) as (_ & _ & _ & M & _).
    rewrite (IH _ _ _ _ H Hd Hg Hb Hs1 r). simpl. rewrite (M r).
    split.
    + intros [[Hr|Hr]|(j & c & Hj & Hc & Hr)].
      * left. exact Hr.
      * right. exists i, chk. split; [left; reflexivity|].
        split; [exact Eg | exact Hr].
      * right. exists j, c. split; [right; exact Hj|].
        split; [exact Hc | exact Hr].
    + intros [Hr|(j & c & [Hj|Hj] & Hc & Hr)].
      * left. left. exact Hr.
      * subst j. rewrite Eg in Hc. inversion Hc; subst c.
        left. right. exact Hr.
      * right. exists j, c. split; [exact Hj|].
        split; [exact Hc | exact Hr].
Qed.

(** X18.  In DISTINCT mode the rotation computes the delta.  When [resTbl]
    is a set described by the hash index, a successful rotation leaves in
    [iterInTbl], as the input of the next iteration, exactly the rows of
    [iterOutTbl] that [resTbl] did not hold, no row twice; [resTbl] then
    holds the rows it held and those of [iterOutTbl], and is still a
    set. *)
Theorem rotation_distinct_delta (p p' : cteProducer) (out : Storage) :
  distinctInv hashRow p ->
  iterOutTbl p = Some out ->
  setupTblsForNewIteration hashRow p = (Ok tt, p') ->
  (N.of_nat (NumChunks (resTbl p')) < 2 ^ 32)%N ->
  NoDup (stRows (iterInTbl p')) /\
  (forall r, In r (stRows (iterInTbl p')) <->
             In r (stRows out) /\ ~ In r (stRows (resTbl p))) /\
  (forall r, In r (stRows (resTbl p')) <->
             In r (stRows (resTbl p)) \/ In r (stRows out)) /\
  NoDup (stRows (resTbl p')).
Proof.
  intros (Hd & _ & Hs & Ho) Eo H Hb.
  unfold setupTblsForNewIteration in H. rewrite Eo in H.
  destruct (foldIntoRes hashRow out (seq 0 (NumChunks out)) p [])
    as [[chks|e0] q] eqn:E; [|discriminate].
  pose proof (foldIntoRes_same hashRow _ _ _ _ _ _ E)
    as ((_ & Hdq & _) & _).
  rewrite Hdq, Hd in H. simpl in H. inversion H; subst p'; clear H.
  simpl in *.
  pose proof (Ho out Eo) as Hg.
  destruct (foldIntoRes_chunks hashRow _ _ _ _ _ _ E) as [_ F].
  destruct (F chks eq_refl) as (added & E1 & E2 & _). simpl in E1.
  subst added.
  destruct (foldIntoRes_distinct hashRow _ _ _ _ _ _ E Hd Hg Hb Hs)
    as (_ & N & _).
  pose proof (foldIntoRes_members _ _ _ _ _ _ E Hd Hg Hb Hs) as M.
  assert (Rq : stRows (resTbl q)
               = stRows (resTbl p) ++ rowsOf (nonEmptyChunks chks)).
  { unfold stRows, rowsOf. rewrite E2, flat_map_app. reflexivity. }
  assert (Ri : stRows (fold_left stAdd chks (stReopen (iterInTbl q)))
               = rowsOf (nonEmptyChunks chks)).
  { unfold stRows, rowsOf. rewrite stChunks_fold_stAdd. reflexivity. }
  assert (M' : forall r, In r (stRows (resTbl q)) <->
                         In r (stRows (resTbl p)) \/ In r (stRows out)).
  { intros r. rewrite (M r), <- In_stRows_chunks. reflexivity. }
  rewrite Ri. rewrite Rq in N.
  split; [exact (NoDup_app_remove_l _ _ N)|]. split; [|split].
  - intros r. split.
    + intros Hr. pose proof (NoDup_app_disjoint _ _ N r Hr) as Hn.
      split; [|exact Hn].
      assert (Hq : In r (stRows (resTbl q)))
        by (rewrite Rq; apply in_or_app; right; exact Hr).
      apply M' in Hq. destruct Hq as [Hq|Hq]; [contradiction | exact Hq].
    + intros [Hr Hn].
      assert (Hq : In r (stRows (resTbl q)))
        by (apply M'; right; exact Hr).
      rewrite Rq in Hq. apply in_app_or in Hq.
      destruct Hq as [Hq|Hq]; [contradiction | exact Hq].
  - exact M'.
  - rewrite Rq. exact N.
Qed.

End DeltaFacts.


Lemma distinctInv_batchedRotation :
  distinctInv firstColumnHash batchedRotation.
Proof.
  split; [reflexivity|]. split; [exact goodNext_recIncrBatched|]. split.
  - destruct (computeSeedPart_distinct firstColumnHash 5 batchedProducer
                batchedSeeded) as [S _].
    + vm_compute. reflexivity.
    + reflexivity.
    + exact goodNext_seedOneTwoThree.
    + reflexivity.
    + reflexivity.
    + split; [reflexivity|]. split; [constructor|].
      exists newConcurrentMapHashTable. split; [reflexivity|].
      split; [intros key ptr [] | intros r []].
    + vm_compute. reflexivity.
    + exact S.
  - intros out Ho. injection Ho as <-.
    constructor; [|constructor]. split; [exact I | vm_compute; reflexivity].
Qed.

Lemma rotation_distinct_delta_witness :
  In [4] (stRows (iterInTbl (snd (setupTblsForNewIteration firstColumnHash
                                    batchedRotation)))) /\
  ~ In [3] (stRows (iterInTbl (snd (setupTblsForNewIteration
                                      firstColumnHash batchedRotation)))).
Proof.
  destruct (rotation_distinct_delta firstColumnHash batchedRotation
              (snd (setupTblsForNewIteration firstColumnHash
                      batchedRotation))
              (mkStorage [mkChunk [[2]; [3]; [4]] None] false None 0 0)
              distinctInv_batchedRotation)
    as (_ & A & _).
  - reflexivity.
  - vm_compute. reflexivity.
  - vm_compute. reflexivity.
  - split.
    + apply (proj2 (A [4])). split.
      * right. right. left. reflexivity.
      * intros [H|[H|[H|[]]]]; discriminate H.
    + intros H. apply (proj1 (A [3])) in H. destruct H as [_ H].
      apply H. right. right. left. reflexivity.
Defined.
